(** * Q-Chess: the rules engine of Demo_Q-Chess.py, embedded and verified

    The development follows the Python source class by class: pieces and the
    8x8 board, the split qubits and their subsystems, the split manager, the
    per-kind move generators, the check and legality engine, and move
    execution.  Mutable objects are kept in an arena: a subsystem is named by
    its position in the manager's list, a qubit by its position in the
    subsystem's list, so that the references held by the global position map
    alias the objects the way the Python references do. *)

From Stdlib Require Import ZArith Bool List Lia.
From stdpp Require Import base option list gmap.

Local Open Scope Z_scope.

(** ** Pieces

    A piece is a two-character string, colour then kind ('wk', 'bp', ...);
    the empty string stands for an empty square. *)

Inductive Color := White | Black.
Inductive Kind := Pawn | Knight | Bishop | Rook | Queen | King.
Record Piece := mkPiece { pcolor : Color; pkind : Kind }.

#[global] Instance Color_eq_dec : EqDecision Color.
Proof. solve_decision. Defined.
#[global] Instance Kind_eq_dec : EqDecision Kind.
Proof. solve_decision. Defined.
#[global] Instance Piece_eq_dec : EqDecision Piece.
Proof. solve_decision. Defined.

(** ['' : str] is [None]. *)
Abbreviation Cell := (option Piece).
Abbreviation Pos := (Z * Z)%type.

(** ['b' if color == 'w' else 'w'] *)
Definition opponent_of (color : Color) : Color :=
  match color with White => Black | Black => White end.

(** [piece and piece[0] == t] *)
Definition has_color (x : Cell) (t : Color) : bool :=
  match x with Some p => bool_decide (pcolor p = t) | None => false end.

(** [not piece or piece[0] != t] *)
Definition free_or_enemy (x : Cell) (t : Color) : bool :=
  match x with Some p => negb (bool_decide (pcolor p = t)) | None => true end.

(** [piece and piece[0] != t] *)
Definition enemy_of (x : Cell) (t : Color) : bool :=
  match x with Some p => negb (bool_decide (pcolor p = t)) | None => false end.

Definition is_empty (x : Cell) : bool :=
  match x with Some _ => false | None => true end.

(** ** The board: a list of eight rows of eight cells

    Python indexing: an index in [0, len) selects that slot, an index in
    [-len, 0) counts from the end, anything else raises IndexError. *)

Abbreviation Board := (list (list (option Piece))).

Definition py_slot (len : nat) (i : Z) : option nat :=
  let n := Z.of_nat len in
  if (0 <=? i) && (i <? n) then Some (Z.to_nat i)
  else if (- n <=? i) && (i <? 0) then Some (Z.to_nat (i + n))
  else None.

(** [board[r][c]]; [None] is the IndexError. *)
Definition board_at (b : Board) (r c : Z) : option Cell :=
  i ← py_slot (length b) r;
  row ← b !! i;
  j ← py_slot (length row) c;
  row !! j.

(** [board[r][c] = x]; [None] is the IndexError. *)
Definition board_put (b : Board) (r c : Z) (x : Cell) : option Board :=
  i ← py_slot (length b) r;
  row ← b !! i;
  j ← py_slot (length row) c;
  Some (<[i := <[j := x]> row]> b).

(** The read and the write used where the source has checked
    [0 <= r < 8 and 0 <= c < 8] or iterates [range(8)], so that no
    IndexError can arise. *)
Definition cell (b : Board) (r c : Z) : Cell := default None (board_at b r c).
Definition board_set (b : Board) (r c : Z) (x : Cell) : Board :=
  default b (board_put b r c x).

(** [0 <= r < 8 and 0 <= c < 8] *)
Definition on_board (r c : Z) : bool :=
  (0 <=? r) && (r <? 8) && ((0 <=? c) && (c <? 8)).

(** [range(8)] *)
Definition range8 : list Z := [0; 1; 2; 3; 4; 5; 6; 7].

Definition wf_board (b : Board) : Prop :=
  length b = 8%nat /\ Forall (fun row => length row = 8%nat) b.

Definition wp := Some (mkPiece White Pawn).
Definition wn := Some (mkPiece White Knight).
Definition wb := Some (mkPiece White Bishop).
Definition wr := Some (mkPiece White Rook).
Definition wq := Some (mkPiece White Queen).
Definition wk := Some (mkPiece White King).
Definition bp := Some (mkPiece Black Pawn).
Definition bn := Some (mkPiece Black Knight).
Definition bb := Some (mkPiece Black Bishop).
Definition br := Some (mkPiece Black Rook).
Definition bq := Some (mkPiece Black Queen).
Definition bk := Some (mkPiece Black King).
Definition __ : Cell := None.

Definition INITIAL_BOARD : Board :=
  [ [br; bn; bb; bq; bk; bb; bn; br];
    [bp; bp; bp; bp; bp; bp; bp; bp];
    [__; __; __; __; __; __; __; __];
    [__; __; __; __; __; __; __; __];
    [__; __; __; __; __; __; __; __];
    [__; __; __; __; __; __; __; __];
    [wp; wp; wp; wp; wp; wp; wp; wp];
    [wr; wn; wb; wq; wk; wb; wn; wr] ].

Definition empty_row : list Cell := [__; __; __; __; __; __; __; __].
Definition empty_board : Board :=
  [empty_row; empty_row; empty_row; empty_row;
   empty_row; empty_row; empty_row; empty_row].

(** ** Split qubits, subsystems and the split manager *)

(** A branch tag: ['a'] or ['b']. *)
Inductive BranchTag := BrA | BrB.

#[global] Instance BranchTag_eq_dec : EqDecision BranchTag.
Proof. solve_decision. Defined.

(** [class SplitBranch] *)
Record SplitBranch := mkBranch { pos : Pos; piece_type : Piece }.

(** [class SplitQubit].  [parent] and [children] name qubits of the same
    subsystem by their position in [split_qubits]. *)
Record SplitQubit := mkQubit {
  branch_a : SplitBranch;
  branch_b : SplitBranch;
  parent : option nat;
  parent_branch : option BranchTag;
  children : list nat;
  qubit_index : nat;
  collapsed_result : option BranchTag
}.

(** The gates [add_split_qubit] appends to the subsystem's circuit. *)
Inductive Gate := GateH (q : nat) | GateX (q : nat) | GateCH (ctrl tgt : nat).
Record Circuit := mkCircuit { num_qubits : nat; gates : list Gate }.

(** [class QuantumSubsystem] *)
Record QuantumSubsystem := mkSubsystem {
  split_qubits : list SplitQubit;
  position_to_qubit : gmap Pos (nat * BranchTag);
  qc : Circuit;
  result_map : gmap nat BranchTag;
  measured : bool
}.

(** [class QuantumSplitManager].  An entry of the global position map is
    (subsystem, qubit, branch). *)
Record QuantumSplitManager := mkManager {
  subsystems : list QuantumSubsystem;
  global_position_map : gmap Pos (nat * nat * BranchTag)
}.

(** ** The game state *)

Record PerColor (A : Type) := mkPerColor { for_w : A; for_b : A }.
Arguments mkPerColor {A} _ _.
Arguments for_w {A} _.
Arguments for_b {A} _.

Definition pc_get {A} (p : PerColor A) (c : Color) : A :=
  match c with White => for_w p | Black => for_b p end.
Definition pc_set {A} (p : PerColor A) (c : Color) (x : A) : PerColor A :=
  match c with
  | White => mkPerColor x (for_b p)
  | Black => mkPerColor (for_w p) x
  end.

(** [{'king': .., 'queen': .., 'king_nm': .., 'queen_nm': ..}] *)
Record Castling := mkCastling {
  c_king : bool; c_queen : bool; c_king_nm : bool; c_queen_nm : bool
}.

(** One entry of [history]. *)
Abbreviation HistoryEntry := (Z * Z * Z * Z * Cell * Cell)%type.

(** The fields of [ChessGame] the rules engine reads or writes; the window,
    the font and the selection of the user interface are left out.
    [oracle_calls] counts the runs of the measurement backend. *)
Record Game := mkGame {
  board : Board;
  turn : Color;
  captured : PerColor (list Cell);
  en_passant : option Pos;
  castling : PerColor Castling;
  history : list HistoryEntry;
  promotion_pending : bool;
  promotion_pos : option Pos;
  check_cache : PerColor (option bool);
  game_over : bool;
  edit_mode : bool;
  draw_by_stalemate : bool;
  split_mode : bool;
  split_manager : QuantumSplitManager;
  oracle_calls : nat
}.

Definition set_board (g : Game) (x : Board) : Game :=
  mkGame x (turn g) (captured g) (en_passant g) (castling g) (history g)
    (promotion_pending g) (promotion_pos g) (check_cache g) (game_over g)
    (edit_mode g) (draw_by_stalemate g) (split_mode g) (split_manager g)
    (oracle_calls g).
Definition set_turn (g : Game) (x : Color) : Game :=
  mkGame (board g) x (captured g) (en_passant g) (castling g) (history g)
    (promotion_pending g) (promotion_pos g) (check_cache g) (game_over g)
    (edit_mode g) (draw_by_stalemate g) (split_mode g) (split_manager g)
    (oracle_calls g).
Definition set_captured (g : Game) (x : PerColor (list Cell)) : Game :=
  mkGame (board g) (turn g) x (en_passant g) (castling g) (history g)
    (promotion_pending g) (promotion_pos g) (check_cache g) (game_over g)
    (edit_mode g) (draw_by_stalemate g) (split_mode g) (split_manager g)
    (oracle_calls g).
Definition set_en_passant (g : Game) (x : option Pos) : Game :=
  mkGame (board g) (turn g) (captured g) x (castling g) (history g)
    (promotion_pending g) (promotion_pos g) (check_cache g) (game_over g)
    (edit_mode g) (draw_by_stalemate g) (split_mode g) (split_manager g)
    (oracle_calls g).
Definition set_castling (g : Game) (x : PerColor Castling) : Game :=
  mkGame (board g) (turn g) (captured g) (en_passant g) x (history g)
    (promotion_pending g) (promotion_pos g) (check_cache g) (game_over g)
    (edit_mode g) (draw_by_stalemate g) (split_mode g) (split_manager g)
    (oracle_calls g).
Definition set_history (g : Game) (x : list HistoryEntry) : Game :=
  mkGame (board g) (turn g) (captured g) (en_passant g) (castling g) x
    (promotion_pending g) (promotion_pos g) (check_cache g) (game_over g)
    (edit_mode g) (draw_by_stalemate g) (split_mode g) (split_manager g)
    (oracle_calls g).
Definition set_promotion (g : Game) (x : bool) (p : option Pos) : Game :=
  mkGame (board g) (turn g) (captured g) (en_passant g) (castling g)
    (history g) x p (check_cache g) (game_over g)
    (edit_mode g) (draw_by_stalemate g) (split_mode g) (split_manager g)
    (oracle_calls g).
Definition set_check_cache (g : Game) (x : PerColor (option bool)) : Game :=
  mkGame (board g) (turn g) (captured g) (en_passant g) (castling g)
    (history g) (promotion_pending g) (promotion_pos g) x (game_over g)
    (edit_mode g) (draw_by_stalemate g) (split_mode g) (split_manager g)
    (oracle_calls g).
Definition set_game_over (g : Game) (over stalemate : bool) : Game :=
  mkGame (board g) (turn g) (captured g) (en_passant g) (castling g)
    (history g) (promotion_pending g) (promotion_pos g) (check_cache g) over
    (edit_mode g) stalemate (split_mode g) (split_manager g)
    (oracle_calls g).
Definition set_split_mode (g : Game) (x : bool) : Game :=
  mkGame (board g) (turn g) (captured g) (en_passant g) (castling g)
    (history g) (promotion_pending g) (promotion_pos g) (check_cache g)
    (game_over g) (edit_mode g) (draw_by_stalemate g) x (split_manager g)
    (oracle_calls g).
Definition set_split_manager (g : Game) (x : QuantumSplitManager) : Game :=
  mkGame (board g) (turn g) (captured g) (en_passant g) (castling g)
    (history g) (promotion_pending g) (promotion_pos g) (check_cache g)
    (game_over g) (edit_mode g) (draw_by_stalemate g) (split_mode g) x
    (oracle_calls g).
Definition set_oracle_calls (g : Game) (x : nat) : Game :=
  mkGame (board g) (turn g) (captured g) (en_passant g) (castling g)
    (history g) (promotion_pending g) (promotion_pos g) (check_cache g)
    (game_over g) (edit_mode g) (draw_by_stalemate g) (split_mode g)
    (split_manager g) x.

Definition initial_castling : PerColor Castling :=
  mkPerColor (mkCastling false false true true)
             (mkCastling false false true true).

(** [ChessGame.__init__] *)
Definition initial_game : Game :=
  mkGame INITIAL_BOARD White (mkPerColor [] []) None initial_castling []
    false None (mkPerColor None None) false false false false
    (mkManager [] ∅) 0%nat.

(** ** The move generator (per kind, ignoring check-safety)

    The generators read [self.board], [self.turn], [self.en_passant]; every
    read of the board they make is guarded by the range test of the source
    or is on the column of the origin square. *)

(** [0 <= r < 8] *)
Definition in_rank (r : Z) : bool := (0 <=? r) && (r <? 8).

Definition get_pawn_moves (g : Game) (row col : Z) : list Pos :=
  let b := board g in
  let direction := match turn g with White => -1 | Black => 1 end in
  let start_row := match turn g with White => 6 | Black => 1 end in
  let moves : list Pos := [] in
  let moves :=
    if in_rank (row + direction) then
      if is_empty (cell b (row + direction) col) then
        let moves := moves ++ [(row + direction, col)] in
        if (row =? start_row) && in_rank (row + 2 * direction) then
          if is_empty (cell b (row + 2 * direction) col)
          then moves ++ [(row + 2 * direction, col)]
          else moves
        else moves
      else moves
    else moves in
  fold_left
    (fun moves dc =>
       let nc := col + dc in
       if in_rank (row + direction) && in_rank nc then
         let target_pos := (row + direction, nc) in
         let moves :=
           if enemy_of (cell b (row + direction) nc) (turn g)
           then moves ++ [target_pos] else moves in
         if bool_decide (Some target_pos = en_passant g)
         then moves ++ [target_pos] else moves
       else moves)
    [-1; 1] moves.

Definition knight_offsets : list (Z * Z) :=
  [(-2, -1); (-2, 1); (-1, -2); (-1, 2); (1, -2); (1, 2); (2, -1); (2, 1)].

Definition get_knight_moves (g : Game) (row col : Z) : list Pos :=
  fold_left
    (fun moves '(dr, dc) =>
       let r := row + dr in
       let c := col + dc in
       if in_rank r && in_rank c then
         if free_or_enemy (cell (board g) r c) (turn g)
         then moves ++ [(r, c)] else moves
       else moves)
    knight_offsets [].

(** One direction of a sliding piece: the body of [while True].  The loop
    leaves the board after at most eight squares; [fuel] bounds the number
    of iterations and [ray_fuel_enough] shows that nine are never used up. *)
Fixpoint ray (fuel : nat) (g : Game) (r c dr dc : Z) (moves : list Pos)
  : list Pos :=
  match fuel with
  | O => moves
  | S fuel' =>
      let r := r + dr in
      let c := c + dc in
      if in_rank r && in_rank c then
        match cell (board g) r c with
        | None => ray fuel' g r c dr dc (moves ++ [(r, c)])
        | Some p =>
            if negb (bool_decide (pcolor p = turn g))
            then moves ++ [(r, c)]
            else moves
        end
      else moves
  end.

Definition ray_fuel : nat := 9.

Definition bishop_dirs : list (Z * Z) := [(-1, -1); (-1, 1); (1, -1); (1, 1)].
Definition rook_dirs : list (Z * Z) := [(-1, 0); (1, 0); (0, -1); (0, 1)].

Definition get_bishop_moves (g : Game) (row col : Z) : list Pos :=
  fold_left (fun moves '(dr, dc) => ray ray_fuel g row col dr dc moves)
            bishop_dirs [].

Definition get_rook_moves (g : Game) (row col : Z) : list Pos :=
  fold_left (fun moves '(dr, dc) => ray ray_fuel g row col dr dc moves)
            rook_dirs [].

Definition get_queen_moves (g : Game) (row col : Z) : list Pos :=
  let rook_moves := get_rook_moves g row col in
  let bishop_moves := get_bishop_moves g row col in
  rook_moves ++ bishop_moves.

(** The first loop of [get_king_moves]: the eight adjacent squares. *)
Definition king_step_moves (g : Game) (row col : Z) : list Pos :=
  fold_left
    (fun moves dr =>
       fold_left
         (fun moves dc =>
            if (dr =? 0) && (dc =? 0) then moves
            else
              let r := row + dr in
              let c := col + dc in
              if in_rank r && in_rank c then
                if free_or_enemy (cell (board g) r c) (turn g)
                then moves ++ [(r, c)] else moves
              else moves)
         [-1; 0; 1] moves)
    [-1; 0; 1] [].

(** [get_valid_moves(col, row, simple=True)]: with [simple] set the king
    generator skips castling and the legality filter is not applied, so the
    call neither fails nor changes the game; [get_valid_moves_simple_eq]
    relates it to the general function below. *)
Definition get_valid_moves_simple (g : Game) (col row : Z) : list Pos :=
  if game_over g || edit_mode g then []
  else
    match cell (board g) row col with
    | None => []
    | Some piece =>
        match pkind piece with
        | Pawn => get_pawn_moves g row col
        | Knight => get_knight_moves g row col
        | Bishop => get_bishop_moves g row col
        | Rook => get_rook_moves g row col
        | Queen => get_queen_moves g row col
        | King => king_step_moves g row col
        end
    end.

Definition pos_in (p : Pos) (moves : list Pos) : bool :=
  existsb (fun q => bool_decide (p = q)) moves.

(** ** Queries of the split manager *)

(** [is_split_piece]: [pos in self.global_position_map] *)
Definition is_split_piece (m : QuantumSplitManager) (p : Pos) : bool :=
  bool_decide (is_Some (global_position_map m !! p)).

(** [get_qubit_for_position]: [self.global_position_map.get(pos)] *)
Definition get_qubit_for_position (m : QuantumSplitManager) (p : Pos)
  : option (nat * nat * BranchTag) :=
  global_position_map m !! p.

Definition branch_entry (br : SplitBranch) : Pos * Piece :=
  (pos br, piece_type br).

(** [get_split_positions]: one group per unmeasured subsystem that has
    qubits, two entries per qubit.  [processed_qubits] holds the qubits
    already listed; a qubit is named by (subsystem, position). *)
Definition get_split_positions (m : QuantumSplitManager)
  : list (list (Pos * Piece)) :=
  fst (fold_left
    (fun '(split_groups, processed_qubits) '(sid, subsystem) =>
       if negb (measured subsystem) then
         let '(group, processed_qubits) :=
           fold_left
             (fun '(group, processed_qubits) '(qid, qubit) =>
                if bool_decide ((sid, qid) ∉ (processed_qubits : gset (nat * nat)))
                then (group ++ [branch_entry (branch_a qubit);
                                branch_entry (branch_b qubit)],
                      {[ (sid, qid) ]} ∪ processed_qubits)
                else (group, processed_qubits))
             (imap pair (split_qubits subsystem))
             (([] : list (Pos * Piece)), processed_qubits) in
         (match group with
          | [] => split_groups
          | _ => split_groups ++ [group]
          end, processed_qubits)
       else (split_groups, processed_qubits))
    (imap pair (subsystems m))
    (([] : list (list (Pos * Piece))), (∅ : gset (nat * nat)))).

(** ** Attack detection *)

(** The board [is_square_attacked] builds for one branch of a group:
    [temp_board[pos[0]][pos[1]] = piece], then every other position of the
    group is cleared. *)
Definition hypothetical_board (b : Board) (group : list (Pos * Piece))
    (p : Pos) (piece : Piece) : Board :=
  fold_left
    (fun temp_board '(other_pos, _) =>
       if bool_decide (other_pos ≠ p)
       then board_set temp_board other_pos.1 other_pos.2 None
       else temp_board)
    group (board_set b p.1 p.2 (Some piece)).

(** [is_square_attacked].  Each loop returns [True] at the first hit and the
    function falls through to [False]; [self.turn] (and, for a split piece,
    [self.board]) is replaced for the one call of the move generator and put
    back. *)
Definition is_square_attacked (g : Game) (row col : Z) (color : Color)
    (simple : bool) : bool :=
  let opponent := opponent_of color in
  if simple then
    existsb (fun r => existsb (fun c =>
      has_color (cell (board g) r c) opponent
      && pos_in (row, col) (get_valid_moves_simple (set_turn g opponent) c r))
      range8) range8
  else
    existsb (fun r => existsb (fun c =>
      has_color (cell (board g) r c) opponent
      && negb (is_split_piece (split_manager g) (r, c))
      && pos_in (row, col) (get_valid_moves_simple (set_turn g opponent) c r))
      range8) range8
    || existsb (fun group => existsb (fun '(p, piece) =>
         bool_decide (pcolor piece = opponent)
         && pos_in (row, col)
              (get_valid_moves_simple
                 (set_turn
                    (set_board g (hypothetical_board (board g) group p piece))
                    opponent)
                 p.2 p.1))
         group) (get_split_positions (split_manager g)).

(** The king search of [is_in_check]: [break] leaves the inner loop only, so
    a king in a later row replaces one found earlier. *)
Definition find_king (b : Board) (color : Color) : option Pos :=
  fold_left
    (fun king_pos r =>
       match find (fun c => bool_decide (cell b r c = Some (mkPiece color King)))
                  range8 with
       | Some c => Some (r, c)
       | None => king_pos
       end)
    range8 None.

(** [invalidate_check_cache] *)
Definition invalidate_check_cache (g : Game) : Game :=
  set_check_cache g (mkPerColor None None).

(** ** Effects

    A method that can change the game or stop with an exception is a
    function from the game to an optional result and game; [None] is an
    uncaught Python exception (IndexError), which ends the program. *)

Definition M (A : Type) : Type := Game -> option (A * Game).

Definition ret {A} (x : A) : M A := fun g => Some (x, g).
Definition bind {A B} (m : M A) (k : A -> M B) : M B :=
  fun g => match m g with Some (x, g') => k x g' | None => None end.
Definition raise {A} : M A := fun _ => None.
Definition get_game : M Game := fun g => Some (g, g).
Definition put_game (g : Game) : M unit := fun _ => Some (tt, g).
Definition modify (f : Game -> Game) : M unit := fun g => Some (tt, f g).
Definition lift {A} (o : option A) : M A :=
  fun g => match o with Some x => Some (x, g) | None => None end.

Notation "x <- c1 ;; c2" := (bind c1 (fun x => c2))
  (at level 100, c1 at next level, right associativity).
Notation "c1 ;;; c2" := (bind c1 (fun _ => c2))
  (at level 100, c2 at level 100, right associativity).

(** [for x in l: body] with early exit on an exception. *)
Fixpoint for_each {A} (l : list A) (body : A -> M unit) : M unit :=
  match l with
  | [] => ret tt
  | x :: rest => body x ;;; for_each rest body
  end.

(** ** The quantum subsystem *)

Definition new_subsystem : QuantumSubsystem :=
  mkSubsystem [] ∅ (mkCircuit 0 []) ∅ false.

Definition set_collapsed (q : SplitQubit) (r : option BranchTag) : SplitQubit :=
  mkQubit (branch_a q) (branch_b q) (parent q) (parent_branch q) (children q)
    (qubit_index q) r.

Definition add_child (q : SplitQubit) (child : nat) : SplitQubit :=
  mkQubit (branch_a q) (branch_b q) (parent q) (parent_branch q)
    (children q ++ [child]) (qubit_index q) (collapsed_result q).

(** [add_split_qubit]; the new qubit is appended, so its name is the old
    length of [split_qubits].  [parent.children.append(self)] is the update
    of the parent in place. *)
Definition add_split_qubit (s : QuantumSubsystem) (br_a br_b : SplitBranch)
    (parent_qubit : option nat) (parent_br : option BranchTag)
  : option (nat * QuantumSubsystem) :=
  let qid := length (split_qubits s) in
  let index := num_qubits (qc s) in
  let new_qubit := mkQubit br_a br_b parent_qubit parent_br [] index None in
  '(qubits, new_gates) ←
    match parent_qubit with
    | None => Some (split_qubits s, [GateH index])
    | Some pid =>
        p ← split_qubits s !! pid;
        let ctrl := qubit_index p in
        let tgt := index in
        Some (<[pid := add_child p qid]> (split_qubits s),
              if bool_decide (parent_br = Some BrA)
              then [GateX ctrl; GateCH ctrl tgt; GateX ctrl]
              else [GateCH ctrl tgt])
    end;
  Some (qid,
        mkSubsystem (qubits ++ [new_qubit])
          (<[pos br_b := (qid, BrB)]>
             (<[pos br_a := (qid, BrA)]> (position_to_qubit s)))
          (mkCircuit (S index) (gates (qc s) ++ new_gates))
          (result_map s) (measured s)).

(** [qubit.branch_a if qubit.collapsed_result == 'a' else qubit.branch_b] *)
Definition real_branch (q : SplitQubit) : SplitBranch :=
  match collapsed_result q with
  | Some BrA => branch_a q
  | _ => branch_b q
  end.

(** The body of the loop of [apply_to_board] for one qubit. *)
Definition apply_qubit (b : Board) (q : SplitQubit) : option Board :=
  b1 ← board_put b (pos (branch_a q)).1 (pos (branch_a q)).2 None;
  b2 ← board_put b1 (pos (branch_b q)).1 (pos (branch_b q)).2 None;
  let real := real_branch q in
  board_put b2 (pos real).1 (pos real).2 (Some (piece_type real)).

Fixpoint apply_qubits (b : Board) (qs : list SplitQubit) : option Board :=
  match qs with
  | [] => Some b
  | q :: rest => b' ← apply_qubit b q; apply_qubits b' rest
  end.

Section Engine.

(** The measurement backend: one shot of the subsystem's circuit with every
    qubit measured, as the string of result bits ([true] is '1').  The first
    argument is the number of runs made before, so that two runs are free to
    differ. *)
Variable oracle : nat -> Circuit -> list bool.

(** The loop of [collapse] over [self.split_qubits]; [bits] is
    [measured_str[::-1]] and [qid] the position of the next qubit. *)
Fixpoint read_outcomes (bits : list bool) (qid : nat) (qs : list SplitQubit)
    (rm : gmap nat BranchTag)
  : option (list SplitQubit * gmap nat BranchTag) :=
  match qs with
  | [] => Some ([], rm)
  | q :: rest =>
      bit ← bits !! qubit_index q;
      let r := if (bit : bool) then BrB else BrA in
      '(rest', rm') ← read_outcomes bits (S qid) rest (<[qid := r]> rm);
      Some (set_collapsed q (Some r) :: rest', rm')
  end.

(** [collapse]: returns the result map, the subsystem after the call and
    the number of oracle runs after the call. *)
Definition collapse (s : QuantumSubsystem) (calls : nat)
  : option (gmap nat BranchTag * QuantumSubsystem * nat) :=
  if measured s then Some (result_map s, s, calls)
  else
    let n := length (split_qubits s) in
    let measured_str := oracle calls (mkCircuit n (gates (qc s))) in
    '(qubits, rm) ← read_outcomes (rev measured_str) 0 (split_qubits s)
                      (result_map s);
    Some (rm,
          mkSubsystem qubits (position_to_qubit s) (qc s) rm true,
          S calls).

(** ** The split manager *)

Definition set_subsystem (m : QuantumSplitManager) (sid : nat)
    (s : QuantumSubsystem) : QuantumSplitManager :=
  mkManager (<[sid := s]> (subsystems m)) (global_position_map m).

Definition lookup_qubit (m : QuantumSplitManager) (qubit : nat * nat)
  : option SplitQubit :=
  s ← subsystems m !! qubit.1; split_qubits s !! qubit.2.

(** [create_split_qubit]; returns the name (subsystem, qubit) of the new
    qubit. *)
Definition create_split_qubit (m : QuantumSplitManager) (from_pos to_pos : Pos)
    (piece : Piece) : option (nat * nat * QuantumSplitManager) :=
  let parent_info := global_position_map m !! from_pos in
  '(sid, subsystem, subs, parent_qubit, parent_br) ←
    match parent_info with
    | Some (sid, parent_qubit, parent_br) =>
        s ← subsystems m !! sid;
        Some (sid, s, subsystems m, Some parent_qubit, Some parent_br)
    | None =>
        Some (length (subsystems m), new_subsystem,
              subsystems m ++ [new_subsystem], None, None)
    end;
  let br_a := mkBranch from_pos piece in
  let br_b := mkBranch to_pos piece in
  '(qid, s') ← add_split_qubit subsystem br_a br_b parent_qubit parent_br;
  Some (sid, qid,
        mkManager (<[sid := s']> subs)
          (<[pos br_b := (sid, qid, BrB)]>
             (<[pos br_a := (sid, qid, BrA)]> (global_position_map m)))).

(** [subsystem.collapse()] on the subsystem named [sid] of the manager. *)
Definition subsystem_collapse (sid : nat) : M unit :=
  g <- get_game ;;
  s <- lift (subsystems (split_manager g) !! sid) ;;
  r <- lift (collapse s (oracle_calls g)) ;;
  put_game (set_oracle_calls
              (set_split_manager g (set_subsystem (split_manager g) sid r.1.2))
              r.2).

(** [collapse_qubit]: the first subsystem holding the qubit collapses; a
    qubit is held by the subsystem it is named after. *)
Definition collapse_qubit (qubit : nat * nat) : M unit :=
  g <- get_game ;;
  match lookup_qubit (split_manager g) qubit with
  | Some _ => subsystem_collapse qubit.1
  | None => ret tt
  end.

(** [collapse_all] *)
Definition collapse_all : M unit :=
  g <- get_game ;;
  for_each (seq 0 (length (subsystems (split_manager g)))) subsystem_collapse.

(** [QuantumSubsystem.apply_to_board] on the subsystem named [sid], writing
    to the game's board. *)
Definition apply_to_board (sid : nat) (target_qubit : option (nat * nat))
  : M unit :=
  g <- get_game ;;
  s <- lift (subsystems (split_manager g) !! sid) ;;
  (if negb (measured s) then subsystem_collapse sid else ret tt) ;;;
  g <- get_game ;;
  qubits_to_process <-
    lift (match target_qubit with
          | Some qubit => q ← lookup_qubit (split_manager g) qubit; Some [q]
          | None => s ← subsystems (split_manager g) !! sid;
                    Some (split_qubits s)
          end) ;;
  b <- lift (apply_qubits (board g) qubits_to_process) ;;
  put_game (set_board g b).

(** The positions [apply_collapse_to_board] collects for one subsystem. *)
Definition positions_of (m : QuantumSplitManager) (sid : nat)
    (target_qubit : option (nat * nat)) : list Pos :=
  omap (fun '(p, (sub, qubit, _)) =>
          if bool_decide (sub = sid)
             && match target_qubit with
                | None => true
                | Some t => bool_decide ((sub, qubit) = t)
                end
          then Some p else None)
       (map_to_list (global_position_map m)).

(** The first loop of [apply_collapse_to_board]. *)
Fixpoint apply_measured (sids : list nat) (target_qubit : option (nat * nat))
  : M (list Pos) :=
  match sids with
  | [] => ret []
  | sid :: rest =>
      g <- get_game ;;
      s <- lift (subsystems (split_manager g) !! sid) ;;
      here <- (if measured s then
                 apply_to_board sid target_qubit ;;;
                 g <- get_game ;;
                 ret (positions_of (split_manager g) sid target_qubit)
               else ret []) ;;
      more <- apply_measured rest target_qubit ;;
      ret (here ++ more)
  end.

(** [del self.global_position_map[pos]]; a missing key is a KeyError. *)
Definition del_position (p : Pos) : M unit :=
  g <- get_game ;;
  let m := split_manager g in
  match global_position_map m !! p with
  | None => raise
  | Some _ =>
      put_game (set_split_manager g
                  (mkManager (subsystems m) (delete p (global_position_map m))))
  end.

(** [apply_collapse_to_board(self.board, target_qubit)] *)
Definition apply_collapse_to_board (target_qubit : option (nat * nat))
  : M unit :=
  g <- get_game ;;
  positions_to_remove <-
    apply_measured (seq 0 (length (subsystems (split_manager g))))
                   target_qubit ;;
  for_each positions_to_remove del_position.

(** ** Check detection *)

Definition set_cached (color : Color) (v : bool) (g : Game) : Game :=
  set_check_cache g (pc_set (check_cache g) color (Some v)).

(** [is_in_check] *)
Definition is_in_check (color : Color) (simple : bool) : M bool :=
  g <- get_game ;;
  match (if simple then None else pc_get (check_cache g) color) with
  | Some cached => ret cached
  | None =>
      match find_king (board g) color with
      | None => ret false
      | Some king_pos =>
          let in_check :=
            is_square_attacked g king_pos.1 king_pos.2 color simple in
          (if negb simple && in_check then
             for_each (seq 0 (length (subsystems (split_manager g))))
               (fun sid =>
                  g <- get_game ;;
                  s <- lift (subsystems (split_manager g) !! sid) ;;
                  if negb (measured s) then subsystem_collapse sid
                  else ret tt) ;;;
             apply_collapse_to_board None ;;;
             modify invalidate_check_cache
           else ret tt) ;;;
          (if negb simple then modify (set_cached color in_check)
           else ret tt) ;;;
          ret in_check
      end
  end.

(** ** Legality and castling *)

(** [self.board[r][c] = x] *)
Definition write_board (r c : Z) (x : Cell) : M unit :=
  g <- get_game ;;
  b <- lift (board_put (board g) r c x) ;;
  put_game (set_board g b).

(** [self.board[r][c]] *)
Definition read_board (r c : Z) : M Cell :=
  g <- get_game ;; lift (board_at (board g) r c).

(** [is_legal_move] *)
Definition is_legal_move (from_row from_col to_row to_col : Z) : M bool :=
  g <- get_game ;;
  if game_over g || edit_mode g then ret false
  else
    piece <- read_board from_row from_col ;;
    captured <- read_board to_row to_col ;;
    write_board to_row to_col piece ;;;
    write_board from_row from_col None ;;;
    in_check_after_move <- is_in_check (turn g) true ;;
    write_board from_row from_col piece ;;;
    write_board to_row to_col captured ;;;
    in_check_before <- is_in_check (turn g) true ;;
    if in_check_before then
      write_board to_row to_col piece ;;;
      write_board from_row from_col None ;;;
      still_in_check <- is_in_check (turn g) true ;;
      write_board from_row from_col piece ;;;
      write_board to_row to_col captured ;;;
      if still_in_check then ret false else ret true
    else if in_check_after_move then ret false else ret true.

Definition set_castle_king (v : bool) (g : Game) : Game :=
  let r := pc_get (castling g) (turn g) in
  set_castling g (pc_set (castling g) (turn g)
                    (mkCastling v (c_queen r) (c_king_nm r) (c_queen_nm r))).
Definition set_castle_queen (v : bool) (g : Game) : Game :=
  let r := pc_get (castling g) (turn g) in
  set_castling g (pc_set (castling g) (turn g)
                    (mkCastling (c_king r) v (c_king_nm r) (c_queen_nm r))).

(** [not self.board[r][c]] *)
Definition square_empty (r c : Z) : M bool :=
  x <- read_board r c ;; ret (is_empty x).

(** The king-side block of [can_castle]: [if self.castling[..]['king_nm']: ...];
    [and] evaluates its right operand only when the left one holds, so a
    square is read only if the ones before it were empty.  The result is
    whether the block set [c = 1]. *)
Definition castle_king_side (row col : Z) : M bool :=
  g <- get_game ;;
  if c_king_nm (pc_get (castling g) (turn g)) then
    e1 <- square_empty row (col + 1) ;;
    e2 <- (if e1 then square_empty row (col + 2) else ret false) ;;
    if e2 then
      g <- get_game ;;
      if negb (is_square_attacked g row (col + 1) (turn g) true)
         && negb (is_square_attacked g row (col + 2) (turn g) true)
      then modify (set_castle_king true) ;;; ret true
      else ret false
    else ret false
  else ret false.

(** The queen-side block of [can_castle]. *)
Definition castle_queen_side (row col : Z) : M bool :=
  g <- get_game ;;
  if c_queen_nm (pc_get (castling g) (turn g)) then
    e1 <- square_empty row (col - 1) ;;
    e2 <- (if e1 then square_empty row (col - 2) else ret false) ;;
    e3 <- (if e2 then square_empty row (col - 3) else ret false) ;;
    if e3 then
      g <- get_game ;;
      if negb (is_square_attacked g row (col - 1) (turn g) true)
         && negb (is_square_attacked g row (col - 2) (turn g) true)
      then modify (set_castle_queen true) ;;; ret true
      else ret false
    else ret false
  else ret false.

(** [can_castle] *)
Definition can_castle (row col : Z) : M bool :=
  g <- get_game ;;
  x <- read_board row col ;;
  piece <- lift x ;;
  let rights := pc_get (castling g) (turn g) in
  if negb (bool_decide (pkind piece = King))
     || (negb (c_king_nm rights) && negb (c_queen_nm rights))
  then ret false
  else
    in_check <- is_in_check (turn g) true ;;
    if in_check then ret false
    else
      c1 <- castle_king_side row col ;;
      c2 <- castle_queen_side row col ;;
      if c1 || c2 then ret true
      else
        modify (set_castle_queen false) ;;;
        modify (set_castle_king false) ;;;
        ret false.

(** [get_king_moves] *)
Definition get_king_moves (row col : Z) (simple : bool) : M (list Pos) :=
  g <- get_game ;;
  let moves := king_step_moves g row col in
  let rights := pc_get (castling g) (turn g) in
  if negb simple && (c_king_nm rights || c_queen_nm rights) then
    ok <- can_castle row col ;;
    if ok then
      g <- get_game ;;
      let rights := pc_get (castling g) (turn g) in
      let moves := if c_king rights then moves ++ [(row, col + 2)] else moves in
      let moves := if c_queen rights then moves ++ [(row, col - 2)] else moves in
      ret moves
    else ret moves
  else ret moves.

(** [[(r, c) for r, c in moves if self.is_legal_move(row, col, r, c)]] *)
Fixpoint filter_legal (row col : Z) (moves : list Pos) : M (list Pos) :=
  match moves with
  | [] => ret []
  | (r, c) :: rest =>
      ok <- is_legal_move row col r c ;;
      rest' <- filter_legal row col rest ;;
      ret (if ok then (r, c) :: rest' else rest')
  end.

(** [get_valid_moves] *)
Definition get_valid_moves (col row : Z) (simple : bool) : M (list Pos) :=
  g <- get_game ;;
  if game_over g || edit_mode g then ret []
  else
    x <- read_board row col ;;
    if negb simple && negb (has_color x (turn g)) then ret []
    else
      match x with
      | None => ret []
      | Some piece =>
          moves <- match pkind piece with
                   | Pawn => ret (get_pawn_moves g row col)
                   | Knight => ret (get_knight_moves g row col)
                   | Bishop => ret (get_bishop_moves g row col)
                   | Rook => ret (get_rook_moves g row col)
                   | Queen => ret (get_queen_moves g row col)
                   | King => get_king_moves row col simple
                   end ;;
          if simple then ret moves else filter_legal row col moves
      end.

(** ** Checkmate and stalemate *)

(** [for to_row, to_col in moves: if self.is_legal_move(..): return False] *)
Fixpoint some_legal (row col : Z) (moves : list Pos) : M bool :=
  match moves with
  | [] => ret false
  | (to_row, to_col) :: rest =>
      ok <- is_legal_move row col to_row to_col ;;
      if ok then ret true else some_legal row col rest
  end.

(** The search both [is_checkmate] and [is_stalemate] make over the pieces
    of [color]; [true] when a legal move was found. *)
Fixpoint has_legal_move (color : Color) (squares : list Pos) : M bool :=
  match squares with
  | [] => ret false
  | (row, col) :: rest =>
      g <- get_game ;;
      if has_color (cell (board g) row col) color then
        moves <- get_valid_moves col row false ;;
        found <- some_legal row col moves ;;
        if found then ret true else has_legal_move color rest
      else has_legal_move color rest
  end.

(** [for row in range(8): for col in range(8)] *)
Definition all_squares : list Pos :=
  flat_map (fun row => map (fun col => (row, col)) range8) range8.

Definition is_checkmate (color : Color) : M bool :=
  in_check <- is_in_check color false ;;
  if negb in_check then ret false
  else found <- has_legal_move color all_squares ;; ret (negb found).

Definition is_stalemate (color : Color) : M bool :=
  in_check <- is_in_check color false ;;
  if in_check then ret false
  else found <- has_legal_move color all_squares ;; ret (negb found).

(** ** Move execution

    [make_move] is one long method; it is cut here at the comments that
    divide it in the source ("Handle moving a split piece", "Handle target
    position", ...).  A block that executes [return] yields [Return]. *)

Inductive Step (A : Type) := Return | Continue (x : A).
Arguments Return {A}.
Arguments Continue {A} _.

Definition flip_turn (g : Game) : Game := set_turn g (opponent_of (turn g)).

(** [if self.is_checkmate(self.turn): ... elif self.is_stalemate(self.turn): ...] *)
Definition evaluate_end : M unit :=
  g <- get_game ;;
  mate <- is_checkmate (turn g) ;;
  if mate then modify (fun g => set_game_over g true false)
  else
    g <- get_game ;;
    stale <- is_stalemate (turn g) ;;
    if stale then modify (fun g => set_game_over g true true) else ret tt.

(** The lines that end a move that was not carried out: the check cache is
    invalidated, the turn passes and the end of the game is evaluated. *)
Definition pass_turn : M unit :=
  modify invalidate_check_cache ;;;
  modify flip_turn ;;;
  evaluate_end.

(** [self.captured[self.turn].append(x)] *)
Definition record_capture (x : Cell) (g : Game) : Game :=
  set_captured g (pc_set (captured g) (turn g)
                    (pc_get (captured g) (turn g) ++ [x])).

(** The qubit after the collapse, as [qubit.collapsed_result] reads it. *)
Definition real_pos_of (qubit : nat * nat) : M Pos :=
  g <- get_game ;;
  q <- lift (lookup_qubit (split_manager g) qubit) ;;
  ret (pos (real_branch q)).

(** "Handle moving a split piece" *)
Definition handle_split_from (from_row from_col : Z) (piece : Piece)
  : M (Step Piece) :=
  g <- get_game ;;
  if is_split_piece (split_manager g) (from_row, from_col) then
    match get_qubit_for_position (split_manager g) (from_row, from_col) with
    | Some (sid, qid, _) =>
        subsystem_collapse sid ;;;
        g <- get_game ;;
        q <- lift (lookup_qubit (split_manager g) (sid, qid)) ;;
        let real := real_branch q in
        if bool_decide (pos real ≠ (from_row, from_col)) then
          apply_collapse_to_board (Some (sid, qid)) ;;;
          write_board from_row from_col None ;;;
          pass_turn ;;;
          ret Return
        else
          apply_collapse_to_board (Some (sid, qid)) ;;;
          write_board from_row from_col None ;;;
          ret (Continue (piece_type real))
    | None => ret (Continue piece)
    end
  else ret (Continue piece).

(** "Handle target position"; [target_piece] and [is_split_to] were read
    when [make_move] was entered. *)
Definition handle_target (to_row to_col : Z) (target_piece : Cell)
    (is_split_to : bool) : M (Step unit) :=
  g <- get_game ;;
  match target_piece with
  | None => ret (Continue tt)
  | Some t =>
      if bool_decide (pcolor t = turn g) then
        if is_split_to then
          match get_qubit_for_position (split_manager g) (to_row, to_col) with
          | Some (sid, qid, _) =>
              collapse_qubit (sid, qid) ;;;
              real <- real_pos_of (sid, qid) ;;
              apply_collapse_to_board (Some (sid, qid)) ;;;
              if bool_decide (real = (to_row, to_col)) then
                pass_turn ;;; ret Return
              else ret (Continue tt)
          | None => ret (Continue tt)
          end
        else ret Return
      else
        if is_split_to then
          match get_qubit_for_position (split_manager g) (to_row, to_col) with
          | Some (sid, qid, _) =>
              collapse_qubit (sid, qid) ;;;
              real <- real_pos_of (sid, qid) ;;
              apply_collapse_to_board (Some (sid, qid)) ;;;
              if bool_decide (real = (to_row, to_col)) then
                modify (record_capture target_piece) ;;; ret (Continue tt)
              else ret (Continue tt)
          | None => ret (Continue tt)
          end
        else modify (record_capture target_piece) ;;; ret (Continue tt)
  end.

(** "Handle en passant capture" *)
Definition handle_en_passant (to_row to_col : Z) (is_en_passant : bool)
  : M unit :=
  if is_en_passant then
    g <- get_game ;;
    let capture_row :=
      to_row + (match turn g with White => 1 | Black => -1 end) in
    captured_piece <- read_board capture_row to_col ;;
    (if is_split_piece (split_manager g) (capture_row, to_col) then
       match get_qubit_for_position (split_manager g) (capture_row, to_col) with
       | Some (sid, qid, _) =>
           collapse_qubit (sid, qid) ;;;
           real <- real_pos_of (sid, qid) ;;
           apply_collapse_to_board (Some (sid, qid)) ;;;
           if bool_decide (real = (capture_row, to_col))
           then modify (record_capture captured_piece)
           else ret tt
       | None => ret tt
       end
     else modify (record_capture captured_piece)) ;;;
    write_board capture_row to_col None
  else ret tt.

(** [self.split_manager.create_split_qubit(..)] on the game's manager. *)
Definition register_split (from_pos to_pos : Pos) (piece : Piece) : M unit :=
  g <- get_game ;;
  r <- lift (create_split_qubit (split_manager g) from_pos to_pos piece) ;;
  put_game (set_split_manager g r.2).

(** "Perform the move" *)
Definition perform_move (from_row from_col to_row to_col : Z) (piece : Piece)
  : M unit :=
  g <- get_game ;;
  if negb (split_mode g) then
    write_board from_row from_col None ;;;
    write_board to_row to_col (Some piece)
  else
    write_board from_row from_col (Some piece) ;;;
    write_board to_row to_col (Some piece) ;;;
    register_split (from_row, from_col) (to_row, to_col) piece.

(** "Handle castling" *)
Definition handle_castling (from_row from_col to_col : Z) (piece : Piece)
  : M unit :=
  g <- get_game ;;
  if bool_decide (pkind piece = King) && (Z.abs (to_col - from_col) =? 2) then
    if from_col <? to_col then
      write_board from_row 7 None ;;;
      write_board from_row 5 (Some (mkPiece (turn g) Rook))
    else
      write_board from_row 0 None ;;;
      write_board from_row 3 (Some (mkPiece (turn g) Rook))
  else ret tt.

Definition clear_never_moved (king_side queen_side : bool) (g : Game) : Game :=
  let r := pc_get (castling g) (turn g) in
  set_castling g
    (pc_set (castling g) (turn g)
       (mkCastling (c_king r) (c_queen r)
          (if king_side then false else c_king_nm r)
          (if queen_side then false else c_queen_nm r))).

(** "Update game state", up to the evaluation of the end of the game. *)
Definition update_game_state (from_row from_col to_row to_col : Z)
    (piece : Piece) (target_piece : Cell) (g : Game) : Game :=
  let g := set_en_passant g None in
  let g :=
    if bool_decide (pkind piece = Pawn) && (Z.abs (to_row - from_row) =? 2)
    then set_en_passant g
           (Some (from_row + (to_row - from_row) / 2, from_col))
    else g in
  let g :=
    if bool_decide (pkind piece = King) then clear_never_moved true true g
    else g in
  let g :=
    if bool_decide (pkind piece = Rook) then
      if from_col =? 0 then clear_never_moved false true g
      else if from_col =? 7 then clear_never_moved true false g
      else g
    else g in
  let g := flip_turn g in
  let g := set_split_mode g false in
  let g :=
    set_history g
      (history g ++
         [(from_row, from_col, to_row, to_col, Some piece, target_piece)]) in
  invalidate_check_cache g.

(** What [make_move] does once the target square has been dealt with: the
    en-passant capture, the move itself, castling, promotion, the update of
    the game state. *)
Definition complete_move (from_row from_col to_row to_col : Z)
    (piece : Piece) (target_piece : Cell) (is_en_passant : bool) : M unit :=
  handle_en_passant to_row to_col is_en_passant ;;;
  perform_move from_row from_col to_row to_col piece ;;;
  handle_castling from_row from_col to_col piece ;;;
  if bool_decide (pkind piece = Pawn) && ((to_row =? 0) || (to_row =? 7))
  then modify (fun g => set_promotion g true (Some (to_row, to_col)))
  else
    modify (update_game_state from_row from_col to_row to_col piece
              target_piece) ;;;
    evaluate_end.

(** [make_move] *)
Definition make_move (from_row from_col to_row to_col : Z) : M unit :=
  g <- get_game ;;
  if game_over g || edit_mode g then ret tt
  else
    x <- read_board from_row from_col ;;
    target_piece <- read_board to_row to_col ;;
    let is_split_to := is_split_piece (split_manager g) (to_row, to_col) in
    piece <- lift x ;;
    let is_en_passant :=
      bool_decide (pkind piece = Pawn)
      && bool_decide (Some (to_row, to_col) = en_passant g) in
    s1 <- handle_split_from from_row from_col piece ;;
    match s1 with
    | Return => ret tt
    | Continue piece =>
        s2 <- handle_target to_row to_col target_piece is_split_to ;;
        match s2 with
        | Return => ret tt
        | Continue _ =>
            complete_move from_row from_col to_row to_col piece target_piece
              is_en_passant
        end
    end.

End Engine.

Arguments Return {A}.
Arguments Continue {A} _.

(** ** Definitions used to state the properties *)

(** [n] calls of [collapse] in a row on one subsystem. *)
Fixpoint collapse_times (oracle : nat -> Circuit -> list bool) (n : nat)
    (s : QuantumSubsystem) (calls : nat) : option (QuantumSubsystem * nat) :=
  match n with
  | O => Some (s, calls)
  | S n' =>
      r ← collapse oracle s calls;
      collapse_times oracle n' r.1.2 r.2
  end.

(** The circuit [collapse] hands to the backend. *)
Definition measured_circuit (s : QuantumSubsystem) : Circuit :=
  mkCircuit (length (split_qubits s)) (gates (qc s)).

(** A root qubit: a white knight split between b1 and c3. *)
Definition knight_b1 : SplitBranch := mkBranch (7, 1) (mkPiece White Knight).
Definition knight_c3 : SplitBranch := mkBranch (5, 2) (mkPiece White Knight).
Definition knight_d5 : SplitBranch := mkBranch (3, 3) (mkPiece White Knight).

Definition one_qubit_subsystem : QuantumSubsystem :=
  match add_split_qubit new_subsystem knight_b1 knight_c3 None None with
  | Some r => r.2
  | None => new_subsystem
  end.

(** [is_in_check(color, simple=True)] as a function of the game: the king
    is looked up and its square tested; [is_in_check_simple_eq] shows that
    the method computes this and leaves the game alone. *)
Definition in_check_simple (g : Game) (color : Color) : bool :=
  match find_king (board g) color with
  | None => false
  | Some king_pos => is_square_attacked g king_pos.1 king_pos.2 color true
  end.

(** The board [is_legal_move] tests: the piece put on the destination and
    the origin cleared. *)
Definition board_after_move (b : Board) (from_row from_col to_row to_col : Z)
  : Board :=
  board_set (board_set b to_row to_col (cell b from_row from_col))
            from_row from_col None.

(** "The mover's own king is attacked after the move". *)
Definition king_attacked_after (g : Game) (from_row from_col to_row to_col : Z)
  : Prop :=
  let g' := set_board g (board_after_move (board g) from_row from_col
                                          to_row to_col) in
  exists king_row king_col,
    find_king (board g') (turn g) = Some (king_row, king_col)
    /\ is_square_attacked g' king_row king_col (turn g) true = true.


(** The two branches of every qubit of a subsystem. *)
Definition subsystem_branches (s : QuantumSubsystem) : list SplitBranch :=
  flat_map (fun q => [branch_a q; branch_b q]) (split_qubits s).

(** Every branch of every subsystem lies on a square of the board. *)
Definition branches_on_board (m : QuantumSplitManager) : Prop :=
  Forall (fun s => Forall (fun br => on_board (pos br).1 (pos br).2 = true)
                          (subsystem_branches s))
         (subsystems m).

(** "A classical (non-split) enemy piece attacks the square on the current
    board": an enemy piece on a square that is not in the global position
    map, whose simple moves contain the square. *)
Definition classical_attack (g : Game) (row col : Z) (color : Color) : Prop :=
  exists r c,
    on_board r c = true
    /\ has_color (cell (board g) r c) (opponent_of color) = true
    /\ is_split_piece (split_manager g) (r, c) = false
    /\ In (row, col)
          (get_valid_moves_simple (set_turn g (opponent_of color)) c r).

(** "A board in which that branch's piece is real and all sibling branch
    squares of the same subsystem are emptied", square by square. *)
Definition is_hypothetical (b : Board) (s : QuantumSubsystem)
    (br : SplitBranch) (b' : Board) : Prop :=
  wf_board b'
  /\ forall r c, on_board r c = true ->
       cell b' r c =
       if bool_decide ((r, c) = pos br) then Some (piece_type br)
       else if bool_decide ((r, c) ∈ map pos (subsystem_branches s))
            then None
            else cell b r c.

(** "Some single live branch of some unmeasured enemy subsystem attacks the
    square on the hypothetical board". *)
Definition branch_attack (g : Game) (row col : Z) (color : Color) : Prop :=
  exists s br b',
    In s (subsystems (split_manager g))
    /\ measured s = false
    /\ In br (subsystem_branches s)
    /\ pcolor (piece_type br) = opponent_of color
    /\ is_hypothetical (board g) s br b'
    /\ In (row, col)
          (get_valid_moves_simple
             (set_turn (set_board g b') (opponent_of color))
             (pos br).2 (pos br).1).

(** One group per unmeasured subsystem that has qubits. *)
Definition live_group (s : QuantumSubsystem) : option (list (Pos * Piece)) :=
  if measured s then None
  else match split_qubits s with
       | [] => None
       | _ => Some (map branch_entry (subsystem_branches s))
       end.


(** Two measurement backends for the examples: every bit '0' (every qubit
    collapses to branch 'a'), every bit '1' (branch 'b'). *)
Definition oracle_zero : nat -> Circuit -> list bool :=
  fun _ c => repeat false (num_qubits c).
Definition oracle_one : nat -> Circuit -> list bool :=
  fun _ c => repeat true (num_qubits c).

Definition run {A} (m : M A) (g : Game) : Game :=
  match m g with Some (_, g') => g' | None => g end.

(** The opening position after White has split the knight on b1 between
    b1 and c3. *)
Definition split_knight_game : Game :=
  run (make_move oracle_zero 7 1 5 2) (set_split_mode initial_game true).


(** "No king of that colour is present anywhere on the board". *)
Definition no_king (b : Board) (color : Color) : Prop :=
  forall r c, on_board r c = true -> cell b r c <> Some (mkPiece color King).

Definition with_cells (b : Board) (cells : list (Pos * Cell)) : Board :=
  fold_left (fun b '(p, x) => board_set b p.1 p.2 x) cells b.

(** A position set up in edit mode with Black to move: the black pawn on
    d2 attacks the white king on e1. *)
Definition pawn_takes_king_start : Game :=
  set_turn
    (set_board initial_game
       (with_cells empty_board [((7, 4), wk); ((6, 3), bp); ((0, 4), bk)]))
    Black.

(** The same position after the check query the display makes for the
    white king, and after the pawn has then taken on e1 (the move stops at
    the pending promotion, before the check cache is invalidated). *)
Definition king_taken_game : Game :=
  run (make_move oracle_zero 6 3 7 4)
      (run (is_in_check oracle_zero White false) pawn_takes_king_start).


(** The castling rights of the side to move. *)
Definition rights (g : Game) : Castling := pc_get (castling g) (turn g).

(** The game with the two "currently eligible" flags of the side to move
    replaced. *)
Definition set_castle_flags (k q : bool) (g : Game) : Game :=
  set_castling g
    (pc_set (castling g) (turn g)
       (mkCastling k q (c_king_nm (rights g)) (c_queen_nm (rights g)))).

(** The king side is open: the rook side has never moved, the two squares
    beside the king are empty and neither is attacked. *)
Definition king_side_clear (g : Game) (row col : Z) : Prop :=
  c_king_nm (rights g) = true
  /\ board_at (board g) row (col + 1) = Some None
  /\ board_at (board g) row (col + 2) = Some None
  /\ is_square_attacked g row (col + 1) (turn g) true = false
  /\ is_square_attacked g row (col + 2) (turn g) true = false.

(** The queen side is open: three empty squares, the two the king crosses
    not attacked. *)
Definition queen_side_clear (g : Game) (row col : Z) : Prop :=
  c_queen_nm (rights g) = true
  /\ board_at (board g) row (col - 1) = Some None
  /\ board_at (board g) row (col - 2) = Some None
  /\ board_at (board g) row (col - 3) = Some None
  /\ is_square_attacked g row (col - 1) (turn g) true = false
  /\ is_square_attacked g row (col - 2) (turn g) true = false.

(** The opening position with the white bishop and knight on f1 and g1
    taken away. *)
Definition king_side_open_game : Game :=
  set_board initial_game
    (with_cells INITIAL_BOARD [((7, 5), None); ((7, 6), None)]).


(** A position reached through edit mode: the white king stands on b1, the
    squares a1, g1 and h1 are empty, and the never-moved flags are still
    set because no king or rook move was made. *)
Definition castle_wrap_game : Game :=
  set_board initial_game
    (with_cells INITIAL_BOARD
       [((7, 4), None); ((7, 0), None); ((7, 6), None); ((7, 7), None);
        ((7, 1), wk)]).




(** A manager with one subsystem: the white knight split between b1 and
    c3, and the c3 branch split again between c3 and d5 (a child qubit
    conditioned on branch 'b' of the first). *)
Definition chained_manager : QuantumSplitManager :=
  match create_split_qubit (mkManager [] ∅) (7, 1) (5, 2)
                           (mkPiece White Knight) with
  | Some (_, _, m1) =>
      match create_split_qubit m1 (5, 2) (3, 3) (mkPiece White Knight) with
      | Some (_, _, m2) => m2
      | None => m1
      end
  | None => mkManager [] ∅
  end.

(** The board shows the knight on the three squares of the chain. *)
Definition chained_game : Game :=
  set_split_manager
    (set_board initial_game
       (with_cells empty_board [((7, 1), wn); ((5, 2), wn); ((3, 3), wn)]))
    chained_manager.

(** White king on e1, black king on h8, and a black rook split between a8
    and e8; White is to move and nothing is cached. *)
Definition rook_split_game : Game :=
  run (register_split (0, 0) (0, 4) (mkPiece Black Rook))
      (set_board initial_game
         (with_cells empty_board
            [((7, 4), wk); ((0, 7), bk); ((0, 0), br); ((0, 4), br)])).


(** The bookkeeping of the game that no check, collapse or legality query
    touches. *)
Definition same_record (g g' : Game) : Prop :=
  turn g' = turn g /\ captured g' = captured g
  /\ en_passant g' = en_passant g /\ history g' = history g
  /\ promotion_pending g' = promotion_pending g
  /\ promotion_pos g' = promotion_pos g
  /\ edit_mode g' = edit_mode g /\ split_mode g' = split_mode g.

(** The branch of a qubit a tag names. *)
Definition branch_of (tag : BranchTag) (q : SplitQubit) : SplitBranch :=
  match tag with BrA => branch_a q | BrB => branch_b q end.

(** Both branches of the qubit lie on the board. *)
Definition qubit_on_board (q : SplitQubit) : Prop :=
  on_board (pos (branch_a q)).1 (pos (branch_a q)).2 = true
  /\ on_board (pos (branch_b q)).1 (pos (branch_b q)).2 = true.

(** The three writes of [apply_to_board] for one qubit, on a board where
    they cannot fail. *)
Definition fold_qubit (b : Board) (q : SplitQubit) : Board :=
  board_set
    (board_set
       (board_set b (pos (branch_a q)).1 (pos (branch_a q)).2 None)
       (pos (branch_b q)).1 (pos (branch_b q)).2 None)
    (pos (real_branch q)).1 (pos (real_branch q)).2
    (Some (piece_type (real_branch q))).

(** The global position map without the entries of one qubit. *)
Definition without_qubit (idx : gmap Pos (nat * nat * BranchTag))
    (qubit : nat * nat) : gmap Pos (nat * nat * BranchTag) :=
  filter (fun e => (e.2.1.1, e.2.1.2) <> qubit) idx.


(** Whether the subsystem named [sid] exists and is measured. *)
Definition measured_at (m : QuantumSplitManager) (sid : nat) : bool :=
  match subsystems m !! sid with
  | Some s => measured s
  | None => false
  end.


(** The game [g1] is the game [g] after the subsystem of the qubit
    [(sid, qid)] has been collapsed and that qubit, now [q1], folded into
    the board and taken out of the global position map: the subsystem is
    measured, the oracle ran at most once, the board is the old one with
    the qubit folded, the index lost exactly the entries of the qubit, and
    the bookkeeping is as before. *)
Definition collapsed_and_folded (g : Game) (sid qid : nat) (q q1 : SplitQubit)
    (g1 : Game) : Prop :=
  (exists s1, subsystems (split_manager g1) !! sid = Some s1
              /\ measured s1 = true)
  /\ lookup_qubit (split_manager g1) (sid, qid) = Some q1
  /\ branch_a q1 = branch_a q /\ branch_b q1 = branch_b q
  /\ (oracle_calls g <= oracle_calls g1 <= S (oracle_calls g))%nat
  /\ board g1 = fold_qubit (board g) q1
  /\ global_position_map (split_manager g1)
     = without_qubit (global_position_map (split_manager g)) (sid, qid)
  /\ same_record g g1
  /\ castling g1 = castling g /\ check_cache g1 = check_cache g
  /\ game_over g1 = game_over g.


(** The qubit of [split_knight_game]. *)
Definition knight_qubit : SplitQubit :=
  mkQubit knight_b1 knight_c3 None None [] 0 None.


(** The non-simple check test for the side to move, evaluated on the game
    as it is (no cache, no collapse). *)
Definition in_check_now (g : Game) : bool :=
  match find_king (board g) (turn g) with
  | None => false
  | Some king_pos => is_square_attacked g king_pos.1 king_pos.2 (turn g) false
  end.

(** Two games that differ at most in the castling rights. *)
Definition only_castling (g g' : Game) : Prop :=
  exists cs, g' = set_castling g cs.

(** A method that, on an 8x8 board, changes nothing but castling rights. *)
Definition quiet {A} (m : M A) : Prop :=
  forall g x g', wf_board (board g) -> m g = Some (x, g') -> only_castling g g'.


(** Whether [make_move] stops at the pending promotion. *)
Definition stops_for_promotion (piece : Piece) (to_row : Z) : bool :=
  bool_decide (pkind piece = Pawn) && ((to_row =? 0) || (to_row =? 7)).




(** ** Definitions used in the proofs *)

(** A square of the board, as a pair. *)
Definition on_board_pos (p : Pos) : Prop := on_board p.1 p.2 = true.

(** The number of squares left on the board ahead of [(x, y)]. *)
Definition room (dr dc x y : Z) : Z :=
  if dr =? 1 then 7 - x
  else if dr =? -1 then x
  else if dc =? 1 then 7 - y
  else y.

(** A direction of the sliding loop: one step along a rank, a file or a
    diagonal. *)
Definition unit_step (dr dc : Z) : Prop :=
  -1 <= dr <= 1 /\ -1 <= dc <= 1 /\ (dr, dc) <> (0, 0).

(** The indices Python accepts for a list of eight items, and the item
    each of them names. *)
Definition py_valid (i : Z) : Prop := -8 <= i < 8.
Definition py_norm (i : Z) : Z := if i <? 0 then i + 8 else i.

(** Two games the move generator cannot tell apart. *)
Definition same_position (g1 g2 : Game) : Prop :=
  board g1 = board g2 /\ turn g1 = turn g2 /\ en_passant g1 = en_passant g2
  /\ game_over g1 = game_over g2 /\ edit_mode g1 = edit_mode g2.

(** Every run of [m] that returns relates the game before to the game
    after by [R]. *)
Definition keeps {A} (R : Game -> Game -> Prop) (m : M A) : Prop :=
  forall g x g', m g = Some (x, g') -> R g g'.

(** Two qubit lists that differ at most in the collapsed outcomes. *)
Definition same_branches (qs qs' : list SplitQubit) : Prop :=
  Forall2 (fun q q' => exists r, q' = set_collapsed q r) qs qs'.

(** An 8x8 board is still one afterwards. *)
Definition keeps_board_shape (g g' : Game) : Prop :=
  wf_board (board g) -> wf_board (board g').





(** The game after White has split the knight on b1 between b1 and c3 and
    Black has answered a7-a6; White is to move again and split mode is on
    again. *)
Definition knight_resplit_game : Game :=
  set_split_mode (run (make_move oracle_zero 1 0 2 0) split_knight_game) true.


(** ** Invariants of a move *)

(** The never-moved flags of the second game are set only where those of
    the first are. *)
Definition never_moved_shrinks (g g' : Game) : Prop :=
  forall color,
    (c_king_nm (pc_get (castling g') color) = true ->
     c_king_nm (pc_get (castling g) color) = true)
    /\ (c_queen_nm (pc_get (castling g') color) = true ->
        c_queen_nm (pc_get (castling g) color) = true).

(** The capture lists and the history of the second game extend those of
    the first. *)
Definition record_grows (g g' : Game) : Prop :=
  (forall color,
     pc_get (captured g) color `prefix_of` pc_get (captured g') color)
  /\ history g `prefix_of` history g'.

(** The number of measured subsystems. *)
Definition measured_count (m : QuantumSplitManager) : nat :=
  sum_list_with (fun s => if measured s then 1%nat else 0%nat) (subsystems m).

(** Between the two games the oracle ran once for every subsystem that
    became measured. *)
Definition runs_match_measured (g g' : Game) : Prop :=
  (oracle_calls g' + measured_count (split_manager g)
   = oracle_calls g + measured_count (split_manager g'))%nat.

(** Every entry of the index names a qubit of the manager, and the branch
    it names stands on the indexed square. *)
Definition index_ok (m : QuantumSplitManager) : Prop :=
  forall p sid qid tag,
    global_position_map m !! p = Some (sid, qid, tag) ->
    exists q, lookup_qubit m (sid, qid) = Some q
              /\ pos (branch_of tag q) = p.

(** Every qubit of the manager has both branches on the board. *)
Definition qubits_on_board (m : QuantumSplitManager) : Prop :=
  forall qubit q, lookup_qubit m qubit = Some q -> qubit_on_board q.


(** The manager is consistent: its index is, and its qubits stand on the
    board. *)
Definition manager_ok (m : QuantumSplitManager) : Prop :=
  index_ok m /\ qubits_on_board m.

(** A consistent manager is still one afterwards. *)
Definition keeps_manager_ok (g g' : Game) : Prop :=
  manager_ok (split_manager g) -> manager_ok (split_manager g').


(** The square does not hold a piece of the side to move, or it is the
    en-passant square. *)
Definition spares_own (g : Game) (p : Pos) : Prop :=
  has_color (cell (board g) p.1 p.2) (turn g) = false
  \/ Some p = en_passant g.


(** The qubits of a subsystem are numbered by their position: the circuit
    has one qubit per entry of [split_qubits], and the [qubit_index] of an
    entry is its place in the list. *)
Definition subsystem_wf (s : QuantumSubsystem) : Prop :=
  num_qubits (qc s) = length (split_qubits s)
  /\ forall i q, split_qubits s !! i = Some q -> qubit_index q = i.

(** The backend answers with one bit per qubit of the circuit it is given. *)
Definition oracle_sized (oracle : nat -> Circuit -> list bool) : Prop :=
  forall calls c, length (oracle calls c) = num_qubits c.

(** The outcome a measured bit stands for: '0' is branch 'a', '1' is
    branch 'b'. *)
Definition outcome_of (bit : bool) : BranchTag := if bit then BrB else BrA.


(** The opening position after 1. e4 a6 2. e5 d5: White is to move and the
    en-passant square is d6. *)
Definition en_passant_game : Game :=
  run (make_move oracle_zero 1 3 3 3)
    (run (make_move oracle_zero 4 4 3 4)
       (run (make_move oracle_zero 1 0 2 0)
          (run (make_move oracle_zero 6 4 4 4) initial_game))).

(** White to move, the white king on e1 attacked by the black queen on e2,
    which the black king on e3 guards. *)
Definition mate_game : Game :=
  set_board initial_game
    (with_cells empty_board [((7, 4), wk); ((6, 4), bq); ((5, 4), bk)]).

(** White to move with the king alone on e1: the black rooks on d8 and f8
    and the black knight on g3 hold every square beside it. *)
Definition stalemate_game : Game :=
  set_board initial_game
    (with_cells empty_board
       [((7, 4), wk); ((0, 3), br); ((0, 5), br); ((5, 6), bn); ((0, 0), bk)]).

(** ** The user interface

    [SQUARE_SIZE] is computed from the display when the module is loaded,
    as [max(50, int(..))]: an integer, at least 50.  The functions below
    take it as a parameter.  A position of the mouse is a pair of
    integers. *)

Definition set_edit_mode (g : Game) (x : bool) : Game :=
  mkGame (board g) (turn g) (captured g) (en_passant g) (castling g)
    (history g) (promotion_pending g) (promotion_pos g) (check_cache g)
    (game_over g) x (draw_by_stalemate g) (split_mode g) (split_manager g)
    (oracle_calls g).

(** An entry of [piece_options]: the code of a piece or ['delete']. *)
Inductive PieceOption := PlacePiece (p : Piece) | DeletePiece.

(** What [get_edit_choice] returns: ['toggle_edit'] or an entry of
    [piece_options]. *)
Inductive EditChoice := ToggleEdit | Choose (o : PieceOption).

Definition piece_options : list PieceOption :=
  [PlacePiece (mkPiece White Pawn); PlacePiece (mkPiece White Knight);
   PlacePiece (mkPiece White Bishop); PlacePiece (mkPiece White Rook);
   PlacePiece (mkPiece White Queen); PlacePiece (mkPiece White King);
   PlacePiece (mkPiece Black Pawn); PlacePiece (mkPiece Black Knight);
   PlacePiece (mkPiece Black Bishop); PlacePiece (mkPiece Black Rook);
   PlacePiece (mkPiece Black Queen); PlacePiece (mkPiece Black King);
   DeletePiece].

Definition promotion_options : list Kind := [Queen; Rook; Bishop; Knight].

(** The cell an entry of [piece_options] stands for. *)
Definition cell_of_option (o : PieceOption) : Cell :=
  match o with PlacePiece p => Some p | DeletePiece => None end.

(** [qubit.branch_a.piece_type = new_piece] (or [branch_b]) for the qubit an
    entry of the index names. *)
Definition set_branch_piece (m : QuantumSplitManager) (sid qid : nat)
    (tag : BranchTag) (p : Piece) : option QuantumSplitManager :=
  s ← subsystems m !! sid;
  q ← split_qubits s !! qid;
  let q' :=
    match tag with
    | BrA => mkQubit (mkBranch (pos (branch_a q)) p) (branch_b q) (parent q)
               (parent_branch q) (children q) (qubit_index q)
               (collapsed_result q)
    | BrB => mkQubit (branch_a q) (mkBranch (pos (branch_b q)) p) (parent q)
               (parent_branch q) (children q) (qubit_index q)
               (collapsed_result q)
    end in
  Some (set_subsystem m sid
          (mkSubsystem (<[qid := q']> (split_qubits s)) (position_to_qubit s)
             (qc s) (result_map s) (measured s))).

(** The attributes of [ChessGame] that only [handle_click] and the drawing
    methods use, beside the game. *)
Record Ui := mkUi {
  game : Game;
  selected : option (Z * Z);
  valid_moves : list Pos;
  selected_piece_to_place : option PieceOption
}.

Definition set_game (u : Ui) (g : Game) : Ui :=
  mkUi g (selected u) (valid_moves u) (selected_piece_to_place u).

(** The pixels a rectangle (left, top, width, height) covers when it is
    drawn. *)
Definition in_rect (r : Z * Z * Z * Z) (x y : Z) : bool :=
  let '(rx, ry, width, height) := r in
  (rx <=? x) && (x <? rx + width) && (ry <=? y) && (y <? ry + height).

Section Interface.

Variable SQUARE_SIZE : Z.
Variable oracle : nat -> Circuit -> list bool.

Definition BOARD_SIZE : Z := 8 * SQUARE_SIZE.

(** The rectangle [draw_board] fills for the square [(row, col)]. *)
Definition square_rect (g : Game) (row col : Z) : Z * Z * Z * Z :=
  let flip := bool_decide (turn g = Black) in
  let display_row := if flip then 7 - row else row in
  let display_col := if flip then 7 - col else col in
  (display_col * SQUARE_SIZE, display_row * SQUARE_SIZE,
   SQUARE_SIZE, SQUARE_SIZE).

(** [get_square]; the result is [(col, row)]. *)
Definition get_square (g : Game) (p : Z * Z) : option (Z * Z) :=
  let '(x, y) := p in
  if (x <? BOARD_SIZE) && (y <? BOARD_SIZE) && negb (game_over g) then
    let col := x / SQUARE_SIZE in
    let row := y / SQUARE_SIZE in
    let flip := bool_decide (turn g = Black) in
    let col := if flip then 7 - col else col in
    let row := if flip then 7 - row else row in
    Some (col, row)
  else None.

(** [BOARD_SIZE + SQUARE_SIZE // 4 <= x <= BOARD_SIZE + SQUARE_SIZE * 1.75];
    the bound on the right is a float, [x <= B + 7 S / 4] compared
    exactly. *)
Definition in_button_column (x : Z) : bool :=
  (BOARD_SIZE + SQUARE_SIZE / 4 <=? x)
  && (4 * x <=? 4 * BOARD_SIZE + 7 * SQUARE_SIZE).

(** The top of the button number [i] of a column of buttons that begins at
    [first_top]: [first_top + i * SQUARE_SIZE // 2]. *)
Definition button_top (first_top i : Z) : Z := first_top + i * SQUARE_SIZE / 2.

(** [for i, o in enumerate(options): ... if top <= y <= bottom: return o],
    from the index [i] on. *)
Fixpoint pick_button {A} (first_top i : Z) (options : list A) (y : Z)
  : option A :=
  match options with
  | [] => None
  | o :: rest =>
      let top := button_top first_top i in
      let bottom := top + SQUARE_SIZE / 2 in
      if (top <=? y) && (y <=? bottom) then Some o
      else pick_button first_top (i + 1) rest y
  end.

(** [get_edit_choice] *)
Definition get_edit_choice (g : Game) (p : Z * Z) : option EditChoice :=
  let '(x, y) := p in
  if in_button_column x then
    let edit_button_top := SQUARE_SIZE / 4 in
    let edit_button_bottom := edit_button_top + SQUARE_SIZE / 2 in
    if (edit_button_top <=? y) && (y <=? edit_button_bottom)
    then Some ToggleEdit
    else if edit_mode g
    then option_map Choose (pick_button (SQUARE_SIZE * 2) 0 piece_options y)
    else None
  else None.

(** [get_promotion_choice] *)
Definition get_promotion_choice (g : Game) (p : Z * Z) : option Kind :=
  if negb (promotion_pending g) || game_over g then None
  else
    let '(x, y) := p in
    if in_button_column x then
      let promo_y := BOARD_SIZE - 4 * SQUARE_SIZE / 2 in
      pick_button promo_y 0 promotion_options y
    else None.

(** The branch of [handle_click] that promotes the pawn. *)
Definition promote (choice : Kind) (u : Ui) : option Ui :=
  let g := game u in
  '(row, col) ← promotion_pos g;
  let new_piece := mkPiece (turn g) choice in
  '(_, g) ← write_board row col (Some new_piece) g;
  g ← match get_qubit_for_position (split_manager g) (row, col) with
       | Some (sid, qid, tag) =>
           m ← set_branch_piece (split_manager g) sid qid tag new_piece;
           Some (set_split_manager g m)
       | None => Some g
       end;
  let g := set_promotion g false None in
  let g := set_en_passant g None in
  let g := flip_turn g in
  let g := invalidate_check_cache g in
  '(_, g) ← evaluate_end oracle g;
  Some (mkUi g None [] (selected_piece_to_place u)).

(** The last part of [handle_click]: a click on the square [(row, col)]
    during play. *)
Definition click_square (col row : Z) (u : Ui) : option Ui :=
  let g := game u in
  x ← board_at (board g) row col;
  match selected u with
  | Some (scol, srow) =>
      if pos_in (row, col) (valid_moves u) then
        '(_, g) ← make_move oracle srow scol row col g;
        if negb (promotion_pending g)
        then Some (mkUi g None [] (selected_piece_to_place u))
        else Some (set_game u g)
      else Some (mkUi g None [] (selected_piece_to_place u))
  | None =>
      if has_color x (turn g) then
        '(moves, g) ← get_valid_moves oracle col row false g;
        Some (mkUi g (Some (col, row)) moves (selected_piece_to_place u))
      else Some u
  end.

(** [handle_click] *)
Definition handle_click (p : Z * Z) (u : Ui) : option Ui :=
  let g := game u in
  if game_over g then Some u
  else
    match get_edit_choice g p with
    | Some ToggleEdit =>
        let g := set_edit_mode g (negb (edit_mode g)) in
        if negb (edit_mode g) then
          '(stale, g) ← is_stalemate oracle (turn g) g;
          Some (mkUi (if (stale : bool) then set_game_over g true true else g)
                  None [] None)
        else Some (mkUi g None [] None)
    | Some (Choose o) => Some (mkUi g (selected u) (valid_moves u) (Some o))
    | None =>
        if edit_mode g then
          match get_square g p with
          | Some (col, row) =>
              match selected_piece_to_place u with
              | Some o =>
                  '(_, g) ← write_board row col (cell_of_option o) g;
                  Some (set_game u (invalidate_check_cache g))
              | None => Some u
              end
          | None => Some u
          end
        else if promotion_pending g then
          match get_promotion_choice g p with
          | Some choice => promote choice u
          | None => Some u
          end
        else
          match get_square g p with
          | Some (col, row) => click_square col row u
          | None => Some u
          end
    end.

End Interface.

(** * Properties *)

(** ** The quantum subsystem *)

Lemma read_outcomes_length oracle_bits qid qs rm qs' rm' :
  read_outcomes oracle_bits qid qs rm = Some (qs', rm') ->
  length qs' = length qs.
Proof.
  revert qid rm qs' rm'.
  induction qs as [|q rest IH]; intros qid rm qs' rm' H; simpl in H.
  - by inversion H.
  - destruct (oracle_bits !! qubit_index q) as [bit|]; simpl in H; [|done].
    destruct (read_outcomes _ _ rest _) as [[rest' rm'']|] eqn:E; simpl in H;
      [|done].
    inversion H; subst. simpl. f_equal. eauto.
Qed.

Lemma read_outcomes_total oracle_bits qid qs rm :
  Forall (fun q => (qubit_index q < length oracle_bits)%nat) qs ->
  is_Some (read_outcomes oracle_bits qid qs rm).
Proof.
  revert qid rm.
  induction qs as [|q rest IH]; intros qid rm H; simpl; [by eexists|].
  inversion H as [|? ? Hq Hrest]; subst.
  destruct (lookup_lt_is_Some_2 oracle_bits (qubit_index q) Hq) as [bit ->].
  simpl.
  destruct (IH (S qid) (<[qid := if bit then BrB else BrA]> rm) Hrest)
    as [[rest' rm'] ->].
  simpl. by eexists.
Qed.

Lemma collapse_measured oracle s calls :
  measured s = true -> collapse oracle s calls = Some (result_map s, s, calls).
Proof. intros H. unfold collapse. by rewrite H. Qed.

Lemma collapse_sets_measured oracle s calls rm s1 calls1 :
  collapse oracle s calls = Some (rm, s1, calls1) ->
  measured s1 = true /\ result_map s1 = rm.
Proof.
  unfold collapse. destruct (measured s) eqn:Hm.
  - intros H; inversion H; subst. done.
  - destruct (read_outcomes _ _ _ _) as [[qs rm']|]; simpl; [|done].
    intros H; inversion H; subst. done.
Qed.

Lemma collapse_times_measured oracle n s calls :
  measured s = true -> collapse_times oracle n s calls = Some (s, calls).
Proof.
  intros Hm. induction n as [|n IH]; simpl; [done|].
  rewrite collapse_measured by done. simpl. exact IH.
Qed.

(** C3.  The first [collapse] of an unmeasured subsystem runs the oracle
    exactly once (given that the oracle's bit string covers the qubits),
    stores the outcome map and sets [measured]; every later call, however
    many, returns the identical map and leaves both the subsystem and the
    count of oracle runs as they were. *)
Theorem collapse_idempotent oracle (s : QuantumSubsystem) (calls : nat) :
  measured s = false ->
  Forall (fun q => (qubit_index q
                    < length (oracle calls (measured_circuit s)))%nat)
         (split_qubits s) ->
  exists rm s1,
    collapse oracle s calls = Some (rm, s1, S calls)
    /\ measured s1 = true
    /\ result_map s1 = rm
    /\ (forall calls', collapse oracle s1 calls' = Some (rm, s1, calls'))
    /\ (forall n, collapse_times oracle n s1 (S calls) = Some (s1, S calls))
    /\ (forall n, exists s',
          collapse_times oracle n s calls = Some (s', (calls + Nat.min n 1)%nat)).
Proof.
  intros Hm Hbits.
  assert (Hrev : Forall (fun q => (qubit_index q
             < length (rev (oracle calls (measured_circuit s))))%nat)
             (split_qubits s)).
  { rewrite length_rev. exact Hbits. }
  destruct (read_outcomes_total _ 0%nat _ (result_map s) Hrev)
    as [[qs rm] Hro].
  set (s1 := mkSubsystem qs (position_to_qubit s) (qc s) rm true).
  assert (Hc : collapse oracle s calls = Some (rm, s1, S calls)).
  { unfold collapse. rewrite Hm. unfold measured_circuit in Hro.
    rewrite Hro. done. }
  exists rm, s1. split; [exact Hc|]. split; [done|]. split; [done|].
  split; [|split].
  - intros calls'. by rewrite collapse_measured.
  - intros n. by apply collapse_times_measured.
  - intros [|n]; simpl.
    + exists s. f_equal. f_equal. lia.
    + rewrite Hc. simpl. exists s1.
      rewrite collapse_times_measured by done. f_equal. f_equal. lia.
Qed.

Lemma collapse_idempotent_witness :
  exists rm s1,
    collapse (fun _ _ => [true]) one_qubit_subsystem 0 = Some (rm, s1, 1%nat)
    /\ measured s1 = true
    /\ result_map s1 = rm
    /\ (forall calls', collapse (fun _ _ => [true]) s1 calls'
                       = Some (rm, s1, calls'))
    /\ (forall n, collapse_times (fun _ _ => [true]) n s1 1 = Some (s1, 1%nat))
    /\ (forall n, exists s',
          collapse_times (fun _ _ => [true]) n one_qubit_subsystem 0
          = Some (s', (0 + Nat.min n 1)%nat)).
Proof.
  apply (collapse_idempotent (fun _ _ => [true]) one_qubit_subsystem 0%nat).
  - reflexivity.
  - repeat constructor.
Defined.

(** ** The board *)

Lemma py_slot_in (len : nat) (i : Z) :
  0 <= i < Z.of_nat len -> py_slot len i = Some (Z.to_nat i).
Proof.
  intros H. unfold py_slot.
  destruct (0 <=? i) eqn:E1; [|lia].
  destruct (i <? Z.of_nat len) eqn:E2; [done|lia].
Qed.

Lemma on_board_range r c :
  on_board r c = true <-> (0 <= r < 8 /\ 0 <= c < 8).
Proof. unfold on_board. rewrite !andb_true_iff. lia. Qed.

Lemma in_rank_range r : in_rank r = true <-> 0 <= r < 8.
Proof. unfold in_rank. rewrite andb_true_iff. lia. Qed.

Lemma on_board_in_rank r c : on_board r c = in_rank r && in_rank c.
Proof. reflexivity. Qed.

Lemma wf_board_row b i :
  wf_board b -> (i < 8)%nat ->
  exists row, b !! i = Some row /\ length row = 8%nat.
Proof.
  intros [Hlen Hrows] Hi.
  destruct (lookup_lt_is_Some_2 b i) as [row Hrow]; [lia|].
  exists row. split; [done|].
  rewrite Forall_forall in Hrows. apply Hrows.
  eapply list_elem_of_lookup_2. exact Hrow.
Qed.

Lemma board_at_on_board b r c :
  wf_board b -> on_board r c = true ->
  exists row x,
    b !! Z.to_nat r = Some row /\ length row = 8%nat
    /\ row !! Z.to_nat c = Some x /\ board_at b r c = Some x.
Proof.
  intros Hwf Hrc. apply on_board_range in Hrc as [Hr Hc].
  destruct (wf_board_row b (Z.to_nat r) Hwf) as [row [Hrow Hlen]]; [lia|].
  destruct (lookup_lt_is_Some_2 row (Z.to_nat c)) as [x Hx]; [lia|].
  exists row, x. repeat split; try done.
  unfold board_at. destruct Hwf as [Hb _].
  rewrite py_slot_in by lia. simpl. rewrite Hrow. simpl.
  rewrite py_slot_in by lia. simpl. exact Hx.
Qed.

Lemma board_at_cell b r c :
  wf_board b -> on_board r c = true -> board_at b r c = Some (cell b r c).
Proof.
  intros Hwf Hrc.
  destruct (board_at_on_board b r c Hwf Hrc) as (row & x & _ & _ & _ & H).
  unfold cell. by rewrite H.
Qed.

Lemma board_put_set b r c x :
  wf_board b -> on_board r c = true ->
  board_put b r c x = Some (board_set b r c x).
Proof.
  intros Hwf Hrc.
  destruct (board_at_on_board b r c Hwf Hrc) as (row & y & Hrow & Hlen & _ & _).
  apply on_board_range in Hrc as [Hr Hc]. destruct Hwf as [Hb _].
  unfold board_set, board_put.
  rewrite py_slot_in by lia. simpl. rewrite Hrow. simpl.
  rewrite py_slot_in by lia. done.
Qed.

Lemma board_set_unfold b r c x row :
  wf_board b -> on_board r c = true -> b !! Z.to_nat r = Some row ->
  board_set b r c x = <[Z.to_nat r := <[Z.to_nat c := x]> row]> b.
Proof.
  intros Hwf Hrc Hrow.
  destruct (board_at_on_board b r c Hwf Hrc) as (row' & y & Hrow' & Hlen & _ & _).
  assert (row' = row) by congruence. subst row'.
  apply on_board_range in Hrc as [Hr Hc]. destruct Hwf as [Hb _].
  unfold board_set, board_put.
  rewrite py_slot_in by lia. simpl. rewrite Hrow. simpl.
  rewrite py_slot_in by lia. done.
Qed.

Lemma wf_board_set b r c x : wf_board b -> wf_board (board_set b r c x).
Proof.
  intros Hwf. unfold board_set, board_put.
  destruct (py_slot (length b) r) as [i|]; simpl; [|done].
  destruct (b !! i) as [row|] eqn:Hrow; simpl; [|done].
  destruct (py_slot (length row) c) as [j|]; simpl; [|done].
  destruct Hwf as [Hb Hrows]. split.
  - by rewrite length_insert.
  - apply Forall_insert; [done|]. cbv beta. rewrite length_insert.
    rewrite Forall_forall in Hrows. apply Hrows.
    eapply list_elem_of_lookup_2. exact Hrow.
Qed.

Lemma cell_board_set_eq b r c x :
  wf_board b -> on_board r c = true -> cell (board_set b r c x) r c = x.
Proof.
  intros Hwf Hrc.
  destruct (board_at_on_board b r c Hwf Hrc) as (row & y & Hrow & Hlen & Hy & _).
  rewrite (board_set_unfold b r c x row) by done.
  pose proof Hrc as Hrc'. apply on_board_range in Hrc' as [Hr Hc].
  destruct Hwf as [Hb _].
  unfold cell, board_at. rewrite length_insert.
  rewrite py_slot_in by lia. simpl.
  rewrite list_lookup_insert_eq by lia. simpl.
  rewrite length_insert. rewrite py_slot_in by lia. simpl.
  rewrite list_lookup_insert_eq by lia. done.
Qed.

Lemma cell_board_set_ne b r c x r' c' :
  wf_board b -> on_board r c = true -> on_board r' c' = true ->
  (r, c) <> (r', c') ->
  cell (board_set b r c x) r' c' = cell b r' c'.
Proof.
  intros Hwf Hrc Hrc' Hne.
  destruct (board_at_on_board b r c Hwf Hrc) as (row & y & Hrow & Hlen & Hy & _).
  destruct (board_at_on_board b r' c' Hwf Hrc')
    as (row' & y' & Hrow' & Hlen' & Hy' & Hat').
  rewrite (board_set_unfold b r c x row) by done.
  apply on_board_range in Hrc as [Hr Hc].
  apply on_board_range in Hrc' as [Hr' Hc'].
  destruct Hwf as [Hb _].
  unfold cell at 2. rewrite Hat'. simpl.
  unfold cell, board_at. rewrite length_insert.
  rewrite py_slot_in by lia. simpl.
  destruct (decide (Z.to_nat r = Z.to_nat r')) as [Er|Er].
  - rewrite <- Er. rewrite list_lookup_insert_eq by lia. simpl.
    rewrite length_insert. rewrite py_slot_in by lia. simpl.
    assert (row' = row) by (rewrite <- Er in Hrow'; congruence). subst row'.
    rewrite list_lookup_insert_ne.
    + by rewrite Hy'.
    + intros Ec. apply Hne. f_equal; lia.
  - rewrite list_lookup_insert_ne by done. rewrite Hrow'. simpl.
    rewrite py_slot_in by lia. simpl. by rewrite Hy'.
Qed.

Lemma board_ext b1 b2 :
  wf_board b1 -> wf_board b2 ->
  (forall r c, on_board r c = true -> cell b1 r c = cell b2 r c) ->
  b1 = b2.
Proof.
  intros Hwf1 Hwf2 Hcells.
  apply list_eq. intros i.
  destruct (decide (i < 8)%nat) as [Hi|Hi].
  - destruct (wf_board_row b1 i Hwf1 Hi) as [row1 [Hrow1 Hlen1]].
    destruct (wf_board_row b2 i Hwf2 Hi) as [row2 [Hrow2 Hlen2]].
    rewrite Hrow1, Hrow2. f_equal.
    apply list_eq. intros j.
    destruct (decide (j < 8)%nat) as [Hj|Hj].
    + assert (Hon : on_board (Z.of_nat i) (Z.of_nat j) = true).
      { apply on_board_range. lia. }
      specialize (Hcells _ _ Hon).
      destruct (board_at_on_board b1 _ _ Hwf1 Hon) as (r1 & x1 & A1 & _ & B1 & C1).
      destruct (board_at_on_board b2 _ _ Hwf2 Hon) as (r2 & x2 & A2 & _ & B2 & C2).
      rewrite Nat2Z.id in A1, A2, B1, B2.
      assert (r1 = row1) by congruence. assert (r2 = row2) by congruence.
      subst r1 r2. unfold cell in Hcells. rewrite C1, C2 in Hcells.
      simpl in Hcells. congruence.
    + rewrite !lookup_ge_None_2 by lia. done.
  - destruct Hwf1 as [H1 _]. destruct Hwf2 as [H2 _].
    rewrite !lookup_ge_None_2 by lia. done.
Qed.

Lemma cell_board_set b r c x r' c' :
  wf_board b -> on_board r c = true -> on_board r' c' = true ->
  cell (board_set b r c x) r' c'
  = if bool_decide ((r, c) = (r', c')) then x else cell b r' c'.
Proof.
  intros Hwf Hrc Hrc'. case_bool_decide as E.
  - inversion E; subst. by apply cell_board_set_eq.
  - by apply cell_board_set_ne.
Qed.

(** ** The move generator stays on the board *)

Lemma fold_left_Forall {A B} (P : A -> Prop) (f : list A -> B -> list A)
    (l : list B) (init : list A) :
  Forall P init ->
  (forall acc x, Forall P acc -> Forall P (f acc x)) ->
  Forall P (fold_left f l init).
Proof.
  intros Hinit Hstep. revert init Hinit.
  induction l as [|x l IH]; intros init Hinit; simpl; [done|].
  apply IH. by apply Hstep.
Qed.

Lemma Forall_snoc_on_board (moves : list Pos) r c :
  Forall on_board_pos moves -> in_rank r = true -> in_rank c = true ->
  Forall on_board_pos (moves ++ [(r, c)]).
Proof.
  intros Hm Hr Hc. apply Forall_app. split; [done|].
  constructor; [|constructor].
  unfold on_board_pos. simpl. rewrite on_board_in_rank, Hr, Hc. done.
Qed.

Lemma ray_on_board fuel g r c dr dc moves :
  Forall on_board_pos moves ->
  Forall on_board_pos (ray fuel g r c dr dc moves).
Proof.
  revert r c moves.
  induction fuel as [|fuel IH]; intros r c moves Hm; simpl; [done|].
  destruct (in_rank (r + dr)) eqn:Hr; simpl; [|done].
  destruct (in_rank (c + dc)) eqn:Hc; simpl; [|done].
  destruct (cell (board g) (r + dr) (c + dc)) as [p|].
  - destruct (negb _); [|done]. by apply Forall_snoc_on_board.
  - apply IH. by apply Forall_snoc_on_board.
Qed.

Lemma get_knight_moves_on_board g row col :
  Forall on_board_pos (get_knight_moves g row col).
Proof.
  unfold get_knight_moves. apply fold_left_Forall; [constructor|].
  intros acc [dr dc] Hacc.
  destruct (in_rank (row + dr)) eqn:Hr; simpl; [|done].
  destruct (in_rank (col + dc)) eqn:Hc; simpl; [|done].
  destruct (free_or_enemy _ _); [|done]. by apply Forall_snoc_on_board.
Qed.

Lemma get_bishop_moves_on_board g row col :
  Forall on_board_pos (get_bishop_moves g row col).
Proof.
  unfold get_bishop_moves. apply fold_left_Forall; [constructor|].
  intros acc [dr dc] Hacc. by apply ray_on_board.
Qed.

Lemma get_rook_moves_on_board g row col :
  Forall on_board_pos (get_rook_moves g row col).
Proof.
  unfold get_rook_moves. apply fold_left_Forall; [constructor|].
  intros acc [dr dc] Hacc. by apply ray_on_board.
Qed.

Lemma get_queen_moves_on_board g row col :
  Forall on_board_pos (get_queen_moves g row col).
Proof.
  unfold get_queen_moves. apply Forall_app. split.
  - apply get_rook_moves_on_board.
  - apply get_bishop_moves_on_board.
Qed.

Lemma king_step_moves_on_board g row col :
  Forall on_board_pos (king_step_moves g row col).
Proof.
  unfold king_step_moves. apply fold_left_Forall; [constructor|].
  intros acc dr Hacc. apply fold_left_Forall; [done|].
  intros acc' dc Hacc'.
  destruct ((dr =? 0) && (dc =? 0)); [done|].
  destruct (in_rank (row + dr)) eqn:Hr; simpl; [|done].
  destruct (in_rank (col + dc)) eqn:Hc; simpl; [|done].
  destruct (free_or_enemy _ _); [|done]. by apply Forall_snoc_on_board.
Qed.

(** The pawn generator keeps the column of the origin for its pushes, so it
    stays on the board when the origin is on it. *)
Lemma get_pawn_moves_on_board g row col :
  in_rank col = true -> Forall on_board_pos (get_pawn_moves g row col).
Proof.
  intros Hcol. unfold get_pawn_moves.
  set (d := match turn g with White => -1 | Black => 1 end).
  apply fold_left_Forall.
  - destruct (in_rank (row + d)) eqn:Hr; [|constructor].
    destruct (is_empty (cell (board g) (row + d) col)); [|constructor].
    assert (H1 : Forall on_board_pos ([] ++ [(row + d, col)])).
    { by apply Forall_snoc_on_board. }
    destruct (row =? _); cbn [andb]; [|done].
    destruct (in_rank (row + 2 * d)) eqn:Hr2; [|done].
    destruct (is_empty _); [|done]. by apply Forall_snoc_on_board.
  - intros acc dc Hacc.
    destruct (in_rank (row + d)) eqn:Hr; simpl; [|done].
    destruct (in_rank (col + dc)) eqn:Hc; simpl; [|done].
    assert (H1 : Forall on_board_pos
              (if enemy_of (cell (board g) (row + d) (col + dc)) (turn g)
               then acc ++ [(row + d, col + dc)] else acc)).
    { destruct (enemy_of _ _); [|done]. by apply Forall_snoc_on_board. }
    destruct (bool_decide _); [|done]. by apply Forall_snoc_on_board.
Qed.

(** Every move of simple generation (no castling) is a square of the
    board. *)
Lemma get_valid_moves_simple_on_board g col row :
  on_board row col = true ->
  Forall on_board_pos (get_valid_moves_simple g col row).
Proof.
  intros Hrc. rewrite on_board_in_rank in Hrc.
  apply andb_true_iff in Hrc as [Hr Hc].
  unfold get_valid_moves_simple.
  destruct (game_over g || edit_mode g); [constructor|].
  destruct (cell (board g) row col) as [piece|]; [|constructor].
  destruct (pkind piece).
  - by apply get_pawn_moves_on_board.
  - apply get_knight_moves_on_board.
  - apply get_bishop_moves_on_board.
  - apply get_rook_moves_on_board.
  - apply get_queen_moves_on_board.
  - apply king_step_moves_on_board.
Qed.

(** *** The sliding loop ends within its fuel *)

Lemma room_nonneg dr dc x y :
  unit_step dr dc -> in_rank x = true -> in_rank y = true ->
  0 <= room dr dc x y <= 7.
Proof.
  intros (Hdr & Hdc & Hne) Hx%in_rank_range Hy%in_rank_range. unfold room.
  destruct (dr =? 1) eqn:E1; [lia|].
  destruct (dr =? -1) eqn:E2; [lia|].
  destruct (dc =? 1) eqn:E3; lia.
Qed.

Lemma room_decreases dr dc x y :
  unit_step dr dc ->
  room dr dc (x + dr) (y + dc) <= room dr dc x y - 1.
Proof.
  intros (Hdr & Hdc & Hne). unfold room.
  destruct (dr =? 1) eqn:E1; [lia|].
  destruct (dr =? -1) eqn:E2; [lia|].
  assert (dr = 0) by lia. subst dr.
  destruct (dc =? 1) eqn:E3; [lia|].
  assert (dc = -1) by (destruct (decide (dc = 0)); [congruence|lia]). lia.
Qed.

Lemma ray_stable g dr dc :
  unit_step dr dc ->
  forall n m r c moves,
    (n <= m)%nat -> (1 <= n)%nat ->
    (in_rank (r + dr) && in_rank (c + dc) = true ->
     room dr dc (r + dr) (c + dc) + 2 <= Z.of_nat n) ->
    ray m g r c dr dc moves = ray n g r c dr dc moves.
Proof.
  intros Hstep. induction n as [|n IH]; intros m r c moves Hnm H1 Hroom; [lia|].
  destruct m as [|m]; [lia|]. simpl.
  destruct (in_rank (r + dr) && in_rank (c + dc)) eqn:Hin; [|done].
  specialize (Hroom eq_refl).
  apply andb_true_iff in Hin as [Hr Hc].
  pose proof (room_nonneg dr dc _ _ Hstep Hr Hc) as Hrange.
  destruct (cell (board g) (r + dr) (c + dc)); [done|].
  apply IH; [lia|lia|]. intros _.
  pose proof (room_decreases dr dc (r + dr) (c + dc) Hstep). lia.
Qed.

(** More fuel than [ray_fuel] never changes the result: the loop has ended
    by then, from whatever square it starts. *)
Lemma ray_fuel_enough g dr dc r c moves n :
  unit_step dr dc -> (ray_fuel <= n)%nat ->
  ray n g r c dr dc moves = ray ray_fuel g r c dr dc moves.
Proof.
  intros Hstep Hn. apply ray_stable; try done; [unfold ray_fuel; lia|].
  intros Hin. apply andb_true_iff in Hin as [Hr Hc].
  pose proof (room_nonneg dr dc _ _ Hstep Hr Hc). unfold ray_fuel. lia.
Qed.

Lemma bishop_dirs_unit : Forall (fun d => unit_step d.1 d.2) bishop_dirs.
Proof. repeat constructor; simpl; try lia; congruence. Qed.

Lemma rook_dirs_unit : Forall (fun d => unit_step d.1 d.2) rook_dirs.
Proof. repeat constructor; simpl; try lia; congruence. Qed.

(** ** Running the effectful methods *)

Lemma bind_Some {A B} (m : M A) (k : A -> M B) g x g' :
  m g = Some (x, g') -> (x <- m ;; k x) g = k x g'.
Proof. intros H. unfold bind. by rewrite H. Qed.

Lemma bind_None {A B} (m : M A) (k : A -> M B) g :
  m g = None -> (x <- m ;; k x) g = None.
Proof. intros H. unfold bind. by rewrite H. Qed.

Lemma bind_inv {A B} (m : M A) (k : A -> M B) g y g2 :
  (x <- m ;; k x) g = Some (y, g2) ->
  exists x g1, m g = Some (x, g1) /\ k x g1 = Some (y, g2).
Proof.
  unfold bind. destruct (m g) as [[x g1]|]; [|done]. intros H. eauto.
Qed.

Lemma set_board_same g : set_board g (board g) = g.
Proof. by destruct g. Qed.

Lemma set_board_twice g b1 b2 : set_board (set_board g b1) b2 = set_board g b2.
Proof. done. Qed.

Lemma read_board_ok r c g :
  wf_board (board g) -> on_board r c = true ->
  read_board r c g = Some (cell (board g) r c, g).
Proof.
  intros Hwf Hrc. unfold read_board, bind, get_game, lift.
  by rewrite board_at_cell.
Qed.

Lemma write_board_ok r c x g :
  wf_board (board g) -> on_board r c = true ->
  write_board r c x g = Some (tt, set_board g (board_set (board g) r c x)).
Proof.
  intros Hwf Hrc. unfold write_board, bind, get_game, lift, put_game.
  by rewrite board_put_set.
Qed.

Lemma read_board_inv r c g x g' :
  read_board r c g = Some (x, g') ->
  g' = g /\ board_at (board g) r c = Some x.
Proof.
  unfold read_board, bind, get_game, lift.
  destruct (board_at (board g) r c); [|done].
  intros H; inversion H; subst. done.
Qed.

(** *** Squares given by Python indices

    An index in [-8, 8) names the square [py_norm] maps it to. *)

Lemma py_norm_range i : py_valid i -> 0 <= py_norm i < 8.
Proof. unfold py_valid, py_norm. destruct (i <? 0) eqn:E; lia. Qed.

Lemma py_norm_on_board r c : on_board r c = true -> py_norm r = r /\ py_norm c = c.
Proof.
  intros [Hr Hc]%on_board_range. unfold py_norm.
  destruct (r <? 0) eqn:E1; [lia|]. destruct (c <? 0) eqn:E2; [lia|]. done.
Qed.

Lemma py_valid_on_board r c : on_board r c = true -> py_valid r /\ py_valid c.
Proof. intros [Hr Hc]%on_board_range. unfold py_valid. lia. Qed.

Lemma py_slot_8 i :
  py_slot 8 i = if bool_decide (py_valid i) then Some (Z.to_nat (py_norm i))
                else None.
Proof.
  unfold py_slot, py_norm. change (Z.of_nat 8) with 8.
  change (Z.opp 8) with (-8).
  destruct (decide (py_valid i)) as [Hv|Hv].
  - rewrite (bool_decide_eq_true_2 _ Hv). unfold py_valid in Hv.
    destruct (Z.leb_spec 0 i), (Z.ltb_spec i 8), (Z.ltb_spec i 0),
      (Z.leb_spec (- 8) i); simpl; try lia; reflexivity.
  - rewrite (bool_decide_eq_false_2 _ Hv). unfold py_valid in Hv.
    destruct (Z.leb_spec 0 i), (Z.ltb_spec i 8), (Z.ltb_spec i 0),
      (Z.leb_spec (- 8) i); simpl; try lia; reflexivity.
Qed.

Lemma board_at_py b r c :
  wf_board b ->
  board_at b r c = if bool_decide (py_valid r /\ py_valid c)
                   then Some (cell b (py_norm r) (py_norm c)) else None.
Proof.
  intros Hwf. pose proof Hwf as [Hlen Hrows].
  unfold board_at at 1. rewrite Hlen, py_slot_8.
  destruct (decide (py_valid r)) as [Hr|Hr].
  2:{ rewrite (bool_decide_eq_false_2 _ Hr). simpl.
      rewrite bool_decide_eq_false_2; [done|tauto]. }
  rewrite (bool_decide_eq_true_2 _ Hr). simpl.
  pose proof (py_norm_range r Hr) as Hrr.
  destruct (wf_board_row b (Z.to_nat (py_norm r)) Hwf) as [row [Hrow Hl]];
    [lia|].
  rewrite Hrow. simpl. rewrite Hl, py_slot_8.
  destruct (decide (py_valid c)) as [Hc|Hc].
  2:{ rewrite (bool_decide_eq_false_2 _ Hc). simpl.
      rewrite bool_decide_eq_false_2; [done|tauto]. }
  rewrite (bool_decide_eq_true_2 _ Hc). simpl.
  rewrite bool_decide_eq_true_2 by done.
  pose proof (py_norm_range c Hc) as Hcc.
  assert (Hon : on_board (py_norm r) (py_norm c) = true)
    by (apply on_board_range; lia).
  destruct (board_at_on_board b _ _ Hwf Hon) as (row' & x & Hrow' & _ & Hx & Hat).
  assert (row' = row) by congruence. subst row'.
  rewrite Hx. unfold cell. by rewrite Hat.
Qed.

Lemma board_put_py b r c x :
  wf_board b ->
  board_put b r c x = if bool_decide (py_valid r /\ py_valid c)
                      then Some (board_set b (py_norm r) (py_norm c) x)
                      else None.
Proof.
  intros Hwf. pose proof Hwf as [Hlen Hrows].
  unfold board_put at 1. rewrite Hlen, py_slot_8.
  destruct (decide (py_valid r)) as [Hr|Hr].
  2:{ rewrite (bool_decide_eq_false_2 _ Hr). simpl.
      rewrite bool_decide_eq_false_2; [done|tauto]. }
  rewrite (bool_decide_eq_true_2 _ Hr). simpl.
  pose proof (py_norm_range r Hr) as Hrr.
  destruct (wf_board_row b (Z.to_nat (py_norm r)) Hwf) as [row [Hrow Hl]];
    [lia|].
  rewrite Hrow. simpl. rewrite Hl, py_slot_8.
  destruct (decide (py_valid c)) as [Hc|Hc].
  2:{ rewrite (bool_decide_eq_false_2 _ Hc). simpl.
      rewrite bool_decide_eq_false_2; [done|tauto]. }
  rewrite (bool_decide_eq_true_2 _ Hc). simpl.
  rewrite bool_decide_eq_true_2 by done.
  pose proof (py_norm_range c Hc) as Hcc.
  assert (Hon : on_board (py_norm r) (py_norm c) = true)
    by (apply on_board_range; lia).
  by rewrite (board_set_unfold b _ _ x row Hwf Hon Hrow).
Qed.

Lemma read_board_py r c g :
  wf_board (board g) -> py_valid r -> py_valid c ->
  read_board r c g = Some (cell (board g) (py_norm r) (py_norm c), g).
Proof.
  intros Hwf Hr Hc. unfold read_board, bind, get_game, lift.
  rewrite board_at_py by done. by rewrite bool_decide_eq_true_2.
Qed.

Lemma write_board_py r c x g :
  wf_board (board g) -> py_valid r -> py_valid c ->
  write_board r c x g
  = Some (tt, set_board g (board_set (board g) (py_norm r) (py_norm c) x)).
Proof.
  intros Hwf Hr Hc. unfold write_board, bind, get_game, lift, put_game.
  rewrite board_put_py by done. by rewrite bool_decide_eq_true_2.
Qed.

Lemma read_board_valid r c g x g' :
  wf_board (board g) -> read_board r c g = Some (x, g') ->
  py_valid r /\ py_valid c.
Proof.
  intros Hwf H. apply read_board_inv in H as [_ H].
  rewrite board_at_py in H by done. by case_bool_decide.
Qed.

Section EngineFacts.

Variable oracle : nat -> Circuit -> list bool.

(** A simple check query finds the king, tests its square and changes
    nothing. *)
Lemma is_in_check_simple_eq color g :
  is_in_check oracle color true g = Some (in_check_simple g color, g).
Proof.
  unfold is_in_check, in_check_simple, bind, get_game. simpl.
  destruct (find_king (board g) color) as [king_pos|]; done.
Qed.

(** Making the move and unmaking it gives the board back. *)
Lemma board_restore b fr fc tr tc :
  wf_board b -> on_board fr fc = true -> on_board tr tc = true ->
  board_set (board_set (board_after_move b fr fc tr tc) fr fc (cell b fr fc))
            tr tc (cell b tr tc) = b.
Proof.
  intros Hwf Hf Ht. unfold board_after_move.
  apply board_ext; [by repeat apply wf_board_set|done|].
  intros r c Hrc.
  rewrite !cell_board_set by (try done; by repeat apply wf_board_set).
  repeat case_bool_decide; congruence.
Qed.

Lemma is_legal_move_eq_py g fr fc tr tc :
  game_over g = false -> edit_mode g = false ->
  wf_board (board g) ->
  py_valid fr -> py_valid fc -> py_valid tr -> py_valid tc ->
  is_legal_move oracle fr fc tr tc g
  = Some (negb (in_check_simple
                  (set_board g (board_after_move (board g)
                                  (py_norm fr) (py_norm fc)
                                  (py_norm tr) (py_norm tc)))
                  (turn g)), g).
Proof.
  intros Hover Hedit Hwf Vfr Vfc Vtr Vtc.
  assert (Hf : on_board (py_norm fr) (py_norm fc) = true).
  { apply on_board_range. split; by apply py_norm_range. }
  assert (Ht : on_board (py_norm tr) (py_norm tc) = true).
  { apply on_board_range. split; by apply py_norm_range. }
  set (fr' := py_norm fr) in *. set (fc' := py_norm fc) in *.
  set (tr' := py_norm tr) in *. set (tc' := py_norm tc) in *.
  set (b := board g). set (piece := cell b fr' fc'). set (cap := cell b tr' tc').
  set (b1 := board_set b tr' tc' piece).
  set (b2 := board_set b1 fr' fc' None).
  assert (Hb2 : b2 = board_after_move b fr' fc' tr' tc') by done.
  assert (Hwf1 : wf_board b1) by by apply wf_board_set.
  assert (Hwf2 : wf_board b2) by by apply wf_board_set.
  set (b3 := board_set b2 fr' fc' piece).
  assert (Hwf3 : wf_board b3) by by apply wf_board_set.
  assert (Hback : board_set b3 tr' tc' cap = b).
  { unfold b3, cap, piece. rewrite Hb2. by apply board_restore. }
  assert (Hturn : forall x, turn (set_board g x) = turn g) by done.
  (* one make/unmake round *)
  assert (Hround : forall (k : bool -> M bool) g0,
    g0 = g ->
    (write_board tr tc piece ;;;
     write_board fr fc None ;;;
     v <- is_in_check oracle (turn g) true ;;
     write_board fr fc piece ;;;
     write_board tr tc cap ;;;
     k v) g0
    = k (in_check_simple (set_board g b2) (turn g)) g).
  { intros k g0 ->.
    rewrite (bind_Some _ _ _ _ _ (write_board_py tr tc piece g Hwf Vtr Vtc)).
    fold b tr' tc' b1.
    rewrite (bind_Some _ _ _ _ _
               (write_board_py fr fc None (set_board g b1) Hwf1 Vfr Vfc)).
    simpl board. fold fr' fc' b2. rewrite set_board_twice.
    rewrite (bind_Some _ _ _ _ _ (is_in_check_simple_eq _ _)).
    rewrite (bind_Some _ _ _ _ _
               (write_board_py fr fc piece (set_board g b2) Hwf2 Vfr Vfc)).
    simpl board. fold fr' fc' b3. rewrite set_board_twice.
    rewrite (bind_Some _ _ _ _ _
               (write_board_py tr tc cap (set_board g b3) Hwf3 Vtr Vtc)).
    simpl board. fold tr' tc'. rewrite set_board_twice, Hback.
    unfold b. by rewrite set_board_same. }
  unfold is_legal_move.
  rewrite (bind_Some _ _ g g g eq_refl).
  rewrite Hover, Hedit. cbn [orb].
  rewrite (bind_Some _ _ _ _ _ (read_board_py fr fc g Hwf Vfr Vfc)).
  rewrite (bind_Some _ _ _ _ _ (read_board_py tr tc g Hwf Vtr Vtc)).
  fold b fr' fc' tr' tc' piece cap.
  rewrite Hround by done.
  rewrite (bind_Some _ _ _ _ _ (is_in_check_simple_eq _ _)).
  change (board_after_move b fr' fc' tr' tc') with b2.
  destruct (in_check_simple g (turn g)).
  - rewrite Hround by done.
    destruct (in_check_simple (set_board g b2) (turn g)); done.
  - destruct (in_check_simple (set_board g b2) (turn g)); done.
Qed.

Lemma is_legal_move_eq g fr fc tr tc :
  game_over g = false -> edit_mode g = false ->
  wf_board (board g) -> on_board fr fc = true -> on_board tr tc = true ->
  is_legal_move oracle fr fc tr tc g
  = Some (negb (in_check_simple
                  (set_board g (board_after_move (board g) fr fc tr tc))
                  (turn g)), g).
Proof.
  intros Hover Hedit Hwf Hf Ht.
  destruct (py_valid_on_board _ _ Hf) as [Vfr Vfc].
  destruct (py_valid_on_board _ _ Ht) as [Vtr Vtc].
  rewrite is_legal_move_eq_py by done.
  destruct (py_norm_on_board _ _ Hf) as [-> ->].
  destruct (py_norm_on_board _ _ Ht) as [-> ->]. done.
Qed.

(** A legality test that returns has made and unmade its move: the game is
    as before, whatever indices it was given. *)
Lemma is_legal_move_frame g fr fc tr tc legal g' :
  wf_board (board g) ->
  is_legal_move oracle fr fc tr tc g = Some (legal, g') -> g' = g.
Proof.
  intros Hwf H.
  destruct (game_over g || edit_mode g) eqn:Hrun.
  { unfold is_legal_move in H. rewrite (bind_Some _ _ g g g eq_refl) in H.
    rewrite Hrun in H. by inversion H. }
  apply orb_false_iff in Hrun as [Hover Hedit].
  pose proof H as H0. unfold is_legal_move in H0.
  rewrite (bind_Some _ _ g g g eq_refl) in H0.
  rewrite Hover, Hedit in H0. cbn [orb] in H0.
  apply bind_inv in H0 as (piece & ga & Hr1 & H0).
  pose proof (read_board_valid _ _ _ _ _ Hwf Hr1) as [Vfr Vfc].
  apply read_board_inv in Hr1 as [-> _].
  apply bind_inv in H0 as (cap & gb & Hr2 & _).
  pose proof (read_board_valid _ _ _ _ _ Hwf Hr2) as [Vtr Vtc].
  rewrite is_legal_move_eq_py in H by done. by inversion H.
Qed.

Lemma in_check_simple_attacked g g' color :
  board g' = board g ->
  (in_check_simple g' color = true <->
   exists king_row king_col,
     find_king (board g) color = Some (king_row, king_col)
     /\ is_square_attacked g' king_row king_col color true = true).
Proof.
  intros Hb. unfold in_check_simple. rewrite Hb.
  destruct (find_king (board g) color) as [[kr kc]|]; simpl.
  - split.
    + intros H. by exists kr, kc.
    + intros (kr' & kc' & E & H). by inversion E; subst.
  - split; [done|]. by intros (kr' & kc' & E & H).
Qed.

(** C5.  With the game running and edit mode off, [is_legal_move] returns
    and leaves the game as it found it (the move is made and unmade on the
    board); it answers [false] exactly when, on the board with the move
    made, the mover's king is found and its square is attacked in simple
    mode.  In terms of the check status before and after: illegal when the
    move leaves the mover in check or the mover started in check and is
    still in check; legal when it starts in check and resolves it, or
    starts clear and stays clear. *)
Theorem is_legal_move_sound g from_row from_col to_row to_col :
  game_over g = false -> edit_mode g = false ->
  wf_board (board g) ->
  on_board from_row from_col = true -> on_board to_row to_col = true ->
  let before := in_check_simple g (turn g) in
  let after :=
    in_check_simple
      (set_board g (board_after_move (board g) from_row from_col
                                     to_row to_col))
      (turn g) in
  exists legal,
    is_legal_move oracle from_row from_col to_row to_col g = Some (legal, g)
    /\ (legal = false <-> king_attacked_after g from_row from_col to_row to_col)
    /\ (legal = false <-> after = true \/ (before = true /\ after = true))
    /\ (legal = true <->
        (before = true /\ after = false) \/ (before = false /\ after = false)).
Proof.
  intros Hover Hedit Hwf Hf Ht before after.
  exists (negb after). split; [by apply is_legal_move_eq|].
  split; [|split].
  - unfold king_attacked_after. cbv zeta.
    rewrite <- (in_check_simple_attacked
                  (set_board g (board_after_move (board g) from_row from_col
                                                 to_row to_col))
                  (set_board g (board_after_move (board g) from_row from_col
                                                 to_row to_col))
                  (turn g) eq_refl).
    fold after. destruct after; simpl; split; congruence.
  - destruct after, before; simpl; split; intros H; try done; try tauto.
    + destruct H as [H|[_ H]]; done.
    + destruct H as [H|[_ H]]; done.
  - destruct after, before; simpl; split; intros H; try done; try tauto.
    + destruct H as [[_ H]|[_ H]]; done.
    + destruct H as [[_ H]|[_ H]]; done.
Qed.

End EngineFacts.

Lemma wf_initial_board : wf_board INITIAL_BOARD.
Proof. split; [reflexivity|]. repeat constructor. Qed.

Lemma is_legal_move_sound_witness :
  exists legal,
    is_legal_move (fun _ _ => []) 6 4 4 4 initial_game
    = Some (legal, initial_game)
    /\ (legal = false <-> king_attacked_after initial_game 6 4 4 4)
    /\ (legal = false <->
        in_check_simple
          (set_board initial_game (board_after_move INITIAL_BOARD 6 4 4 4))
          White = true
        \/ (in_check_simple initial_game White = true
            /\ in_check_simple
                 (set_board initial_game
                    (board_after_move INITIAL_BOARD 6 4 4 4))
                 White = true))
    /\ (legal = true <->
        (in_check_simple initial_game White = true
         /\ in_check_simple
              (set_board initial_game (board_after_move INITIAL_BOARD 6 4 4 4))
              White = false)
        \/ (in_check_simple initial_game White = false
            /\ in_check_simple
                 (set_board initial_game
                    (board_after_move INITIAL_BOARD 6 4 4 4))
                 White = false)).
Proof.
  apply (is_legal_move_sound (fun _ _ => []) initial_game 6 4 4 4).
  - reflexivity.
  - reflexivity.
  - split; [reflexivity|]. repeat constructor.
  - reflexivity.
  - reflexivity.
Defined.

(** ** The live groups of the split manager *)

Lemma inner_group_fold sid (qs : list SplitQubit) :
  forall (k : nat) (group : list (Pos * Piece)) (processed : gset (nat * nat)),
    (forall qid, (k <= qid)%nat -> (sid, qid) ∉ processed) ->
    exists processed',
      fold_left
        (fun '(group, processed_qubits) '(qid, qubit) =>
           if bool_decide ((sid, qid) ∉ (processed_qubits : gset (nat * nat)))
           then (group ++ [branch_entry (branch_a qubit);
                           branch_entry (branch_b qubit)],
                 {[ (sid, qid) ]} ∪ processed_qubits)
           else (group, processed_qubits))
        (imap (fun i q => ((k + i)%nat, q)) qs)
        (group, processed)
      = (group ++ map branch_entry
                    (flat_map (fun q => [branch_a q; branch_b q]) qs),
         processed')
      /\ (forall sid' qid, sid' <> sid ->
            ((sid', qid) ∈ processed' <-> (sid', qid) ∈ processed)).
Proof.
  induction qs as [|q qs IH]; intros k group processed Hfresh.
  - exists processed. simpl. rewrite app_nil_r. done.
  - rewrite imap_cons. simpl fold_left.
    rewrite Nat.add_0_r.
    rewrite bool_decide_eq_true_2 by (apply Hfresh; lia).
    destruct (IH (S k)
                (group ++ [branch_entry (branch_a q); branch_entry (branch_b q)])
                ({[ (sid, k) ]} ∪ processed)) as (processed' & Hfold & Hother).
    { intros qid Hq. rewrite elem_of_union, elem_of_singleton.
      intros [E|E]; [inversion E; lia|]. revert E. apply Hfresh. lia. }
    exists processed'. split.
    + erewrite imap_ext; [rewrite Hfold|].
      * simpl. by rewrite <- app_assoc.
      * intros i x _. simpl. f_equal. lia.
    + intros sid' qid Hne. rewrite Hother by done.
      rewrite elem_of_union, elem_of_singleton. split; [|tauto].
      intros [E|E]; [inversion E; congruence|done].
Qed.

Lemma outer_group_fold (subs : list QuantumSubsystem) :
  forall (k : nat) (groups : list (list (Pos * Piece)))
         (processed : gset (nat * nat)),
    (forall sid qid, (k <= sid)%nat -> (sid, qid) ∉ processed) ->
    fst (fold_left
      (fun '(split_groups, processed_qubits) '(sid, subsystem) =>
         if negb (measured subsystem) then
           let '(group, processed_qubits) :=
             fold_left
               (fun '(group, processed_qubits) '(qid, qubit) =>
                  if bool_decide ((sid, qid) ∉ (processed_qubits : gset (nat * nat)))
                  then (group ++ [branch_entry (branch_a qubit);
                                  branch_entry (branch_b qubit)],
                        {[ (sid, qid) ]} ∪ processed_qubits)
                  else (group, processed_qubits))
               (imap pair (split_qubits subsystem))
               (([] : list (Pos * Piece)), processed_qubits) in
           (match group with
            | [] => split_groups
            | _ => split_groups ++ [group]
            end, processed_qubits)
         else (split_groups, processed_qubits))
      (imap (fun i s => ((k + i)%nat, s)) subs)
      (groups, processed))
    = groups ++ omap live_group subs.
Proof.
  induction subs as [|s subs IH]; intros k groups processed Hfresh.
  - simpl. by rewrite app_nil_r.
  - rewrite imap_cons. simpl fold_left. rewrite Nat.add_0_r.
    change (omap live_group (s :: subs))
      with (match live_group s with
            | Some y => y :: omap live_group subs
            | None => omap live_group subs
            end).
    assert (Hshift : forall (i : nat) (x : QuantumSubsystem), True ->
              ((fun (i : nat) (s0 : QuantumSubsystem) => ((k + i)%nat, s0)) ∘ S)
                i x
              = (fun (i : nat) (s0 : QuantumSubsystem) => ((S k + i)%nat, s0))
                  i x).
    { intros i x _. simpl. f_equal. lia. }
    rewrite (imap_ext _ _ subs (fun i x _ => Hshift i x I)).
    unfold live_group at 1.
    destruct (measured s) eqn:Hm; simpl negb; cbv iota.
    + rewrite (IH (S k)); [done|].
      intros sid qid Hs. apply Hfresh. lia.
    + destruct (inner_group_fold k (split_qubits s) 0%nat [] processed)
        as (processed' & Hfold & Hother).
      { intros qid _. apply Hfresh. lia. }
      change (imap (fun (i : nat) (q : SplitQubit) => ((0 + i)%nat, q))
                   (split_qubits s))
        with (imap pair (split_qubits s)) in Hfold.
      rewrite Hfold. simpl app.
      assert (Hfresh' : forall sid qid, (S k <= sid)%nat ->
                                        (sid, qid) ∉ processed').
      { intros sid qid Hs. rewrite Hother by lia. apply Hfresh. lia. }
      unfold subsystem_branches.
      destruct (split_qubits s) as [|q qs] eqn:Hqs.
      * simpl. by rewrite (IH (S k)).
      * simpl flat_map. simpl map. rewrite (IH (S k)) by done.
        by rewrite <- app_assoc.
Qed.

(** [get_split_positions] lists, in order, the branches of every unmeasured
    subsystem that has qubits; [processed_qubits] never filters. *)
Lemma get_split_positions_eq m :
  get_split_positions m = omap live_group (subsystems m).
Proof.
  unfold get_split_positions.
  pose proof (outer_group_fold (subsystems m) 0%nat [] ∅) as H.
  erewrite (imap_ext _ pair) in H by (intros; reflexivity).
  rewrite H; [done|]. intros sid qid _. set_solver.
Qed.

(** ** Attack detection *)

Lemma clear_others_cell (group : list (Pos * Piece)) (p : Pos) :
  forall (acc : Board) r c,
    wf_board acc ->
    Forall (fun e => on_board e.1.1 e.1.2 = true) group ->
    on_board r c = true ->
    let b' :=
      fold_left
        (fun temp_board '(other_pos, _) =>
           if bool_decide (other_pos ≠ p)
           then board_set temp_board other_pos.1 other_pos.2 None
           else temp_board)
        group acc in
    wf_board b'
    /\ cell b' r c =
       if bool_decide ((r, c) ≠ p) && bool_decide ((r, c) ∈ map fst group)
       then None else cell acc r c.
Proof.
  induction group as [|[q piece] group IH]; intros acc r c Hwf Hon Hrc.
  - simpl. split; [done|].
    by rewrite andb_false_r.
  - inversion Hon as [|? ? Hq Hrest]; subst. simpl in Hq.
    simpl fold_left. cbv zeta.
    set (acc' := if bool_decide (q ≠ p) then board_set acc q.1 q.2 None
                 else acc).
    assert (Hwf' : wf_board acc').
    { unfold acc'. case_bool_decide; [by apply wf_board_set|done]. }
    destruct (IH acc' r c Hwf' Hrest Hrc) as [Hwfb Hcell].
    split; [exact Hwfb|]. rewrite Hcell. clear Hcell.
    change (map fst ((q, piece) :: group)) with (q :: map fst group).
    destruct (decide ((r, c) = p)) as [E|E].
    + rewrite !(bool_decide_eq_false_2 ((r, c) ≠ p)) by tauto. simpl.
      unfold acc'. case_bool_decide as Hqp; [|done].
      destruct q as [qr qc]. simpl.
      rewrite cell_board_set_ne; first [done|congruence].
    + rewrite !(bool_decide_eq_true_2 ((r, c) ≠ p)) by done. simpl.
      destruct (decide ((r, c) ∈ map fst group)) as [Hin|Hin].
      * rewrite (bool_decide_eq_true_2 _ Hin).
        rewrite bool_decide_eq_true_2; [done|].
        apply elem_of_cons. by right.
      * rewrite (bool_decide_eq_false_2 _ Hin).
        destruct (decide ((r, c) = q)) as [Eq|Eq].
        -- rewrite bool_decide_eq_true_2 by (apply elem_of_cons; by left).
           unfold acc'. rewrite bool_decide_eq_true_2 by congruence.
           subst q. simpl. by apply cell_board_set_eq.
        -- rewrite bool_decide_eq_false_2
             by (rewrite elem_of_cons; tauto).
           unfold acc'. case_bool_decide; [|done].
           destruct q as [qr qc]. simpl.
           rewrite cell_board_set_ne; first [done|congruence].
Qed.

(** The board the code builds for a branch is the hypothetical board of the
    specification. *)
Lemma hypothetical_board_is_hypothetical b s br :
  wf_board b ->
  Forall (fun br => on_board (pos br).1 (pos br).2 = true)
         (subsystem_branches s) ->
  In br (subsystem_branches s) ->
  is_hypothetical b s br
    (hypothetical_board b (map branch_entry (subsystem_branches s))
                        (pos br) (piece_type br)).
Proof.
  intros Hwf Hon Hbr.
  assert (Hp : on_board (pos br).1 (pos br).2 = true).
  { rewrite Forall_forall in Hon. apply Hon. by apply list_elem_of_In. }
  assert (Hgroup : Forall (fun e : Pos * Piece => on_board e.1.1 e.1.2 = true)
                          (map branch_entry (subsystem_branches s))).
  { apply Forall_fmap. eapply Forall_impl; [exact Hon|]. by intros x Hx. }
  assert (Hfst : map fst (map branch_entry (subsystem_branches s))
                 = map pos (subsystem_branches s)).
  { rewrite map_map. by apply map_ext. }
  unfold is_hypothetical, hypothetical_board.
  split.
  - apply (clear_others_cell _ (pos br) _ 0 0); try done.
    by apply wf_board_set.
  - intros r c Hrc.
    destruct (clear_others_cell (map branch_entry (subsystem_branches s))
                (pos br)
                (board_set b (pos br).1 (pos br).2 (Some (piece_type br)))
                r c) as [_ Hcell]; try done.
    { by apply wf_board_set. }
    cbv zeta in Hcell. rewrite Hcell, Hfst.
    destruct (decide ((r, c) = pos br)) as [E|E].
    + rewrite (bool_decide_eq_false_2 ((r, c) ≠ pos br)) by tauto.
      rewrite (bool_decide_eq_true_2 ((r, c) = pos br)) by done. simpl.
      rewrite <- E. simpl. by apply cell_board_set_eq.
    + rewrite (bool_decide_eq_true_2 ((r, c) ≠ pos br)) by done.
      rewrite (bool_decide_eq_false_2 ((r, c) = pos br)) by done. simpl.
      destruct (bool_decide ((r, c) ∈ map pos (subsystem_branches s))); [done|].
      destruct (pos br) as [pr pc] eqn:Ep. simpl.
      rewrite cell_board_set_ne; first [done|congruence].
Qed.

Lemma is_hypothetical_unique b s br b1 b2 :
  is_hypothetical b s br b1 -> is_hypothetical b s br b2 -> b1 = b2.
Proof.
  intros [Hwf1 H1] [Hwf2 H2]. apply board_ext; try done.
  intros r c Hrc. by rewrite H1, H2.
Qed.

Lemma pos_in_In p moves : pos_in p moves = true <-> In p moves.
Proof.
  unfold pos_in. rewrite existsb_exists. split.
  - intros (q & Hq & E). apply bool_decide_eq_true in E. by subst.
  - intros H. exists p. split; [done|]. by apply bool_decide_eq_true.
Qed.

Lemma In_range8 r : In r range8 <-> 0 <= r < 8.
Proof. unfold range8. simpl. lia. Qed.

Lemma exists_square (f : Z -> Z -> bool) :
  existsb (fun r => existsb (fun c => f r c) range8) range8 = true
  <-> exists r c, on_board r c = true /\ f r c = true.
Proof.
  rewrite existsb_exists. split.
  - intros (r & Hr & H). apply existsb_exists in H as (c & Hc & H).
    exists r, c. split; [|done].
    apply on_board_range. by rewrite <- !In_range8.
  - intros (r & c & Hon & H). apply on_board_range in Hon as [Hr Hc].
    exists r. split; [by apply In_range8|].
    apply existsb_exists. exists c. split; [by apply In_range8|done].
Qed.

Lemma live_group_Some s group :
  live_group s = Some group <->
  measured s = false /\ split_qubits s <> []
  /\ group = map branch_entry (subsystem_branches s).
Proof.
  unfold live_group. destruct (measured s).
  - split; [done|]. by intros (? & _).
  - destruct (split_qubits s) eqn:E.
    + split; [done|]. by intros (_ & ? & _).
    + split.
      * intros H. inversion H. done.
      * intros (_ & _ & ->). done.
Qed.

Lemma branches_nonempty s br :
  In br (subsystem_branches s) -> split_qubits s <> [].
Proof.
  unfold subsystem_branches. destruct (split_qubits s); [done|done].
Qed.

(** C1.  The quantum-aware attack test answers [true] exactly when a
    classical enemy piece attacks the square on the current board, or one
    branch of an unmeasured subsystem, carrying an enemy piece, attacks it
    on the board where that branch is real and every other branch square
    of its subsystem is empty.  "Attacks" is what the test itself uses:
    the square is among the simple moves generated for the piece with the
    enemy to move (which are none once the game is over or in edit
    mode). *)
Theorem is_square_attacked_iff (g : Game) (row col : Z) (color : Color) :
  wf_board (board g) ->
  branches_on_board (split_manager g) ->
  is_square_attacked g row col color false = true
  <-> classical_attack g row col color \/ branch_attack g row col color.
Proof.
  intros Hwf Hon. unfold is_square_attacked.
  rewrite orb_true_iff.
  match goal with
  | |- ?A \/ ?B <-> ?C \/ ?D =>
      cut ((A <-> C) /\ (B <-> D)); [tauto|split]
  end.
  - rewrite exists_square. unfold classical_attack.
    split.
    + intros (r & c & Hrc & H).
      apply andb_true_iff in H as [H Hmoves].
      apply andb_true_iff in H as [Hcol Hsplit].
      apply negb_true_iff in Hsplit. apply pos_in_In in Hmoves.
      by exists r, c.
    + intros (r & c & Hrc & Hcol & Hsplit & Hmoves).
      exists r, c. split; [done|].
      rewrite Hcol, Hsplit. simpl. by apply pos_in_In.
  - rewrite get_split_positions_eq. rewrite existsb_exists.
    unfold branch_attack. unfold branches_on_board in Hon.
    rewrite Forall_forall in Hon.
    split.
    + intros (group & Hgroup & H).
      apply list_elem_of_In in Hgroup.
      apply list_elem_of_omap in Hgroup as (s & Hs & Hlive).
      apply live_group_Some in Hlive as (Hm & Hne & ->).
      apply existsb_exists in H as ([p piece] & Hentry & H).
      apply in_map_iff in Hentry as (br & Ebr & Hbr).
      inversion Ebr; subst p piece.
      apply andb_true_iff in H as [Hcol Hmoves].
      apply bool_decide_eq_true in Hcol. apply pos_in_In in Hmoves.
      exists s, br, (hypothetical_board (board g)
                       (map branch_entry (subsystem_branches s))
                       (pos br) (piece_type br)).
      split; [by apply list_elem_of_In|]. split; [done|]. split; [done|].
      split; [done|]. split; [|done].
      apply hypothetical_board_is_hypothetical; try done. by apply Hon.
    + intros (s & br & b' & Hs & Hm & Hbr & Hcol & Hhyp & Hmoves).
      exists (map branch_entry (subsystem_branches s)). split.
      * apply list_elem_of_In. apply list_elem_of_omap. exists s.
        split; [by apply list_elem_of_In|].
        apply live_group_Some. split; [done|]. split; [|done].
        by eapply branches_nonempty.
      * apply existsb_exists. exists (branch_entry br). split.
        -- by apply in_map.
        -- unfold branch_entry.
           rewrite (bool_decide_eq_true_2 _ Hcol). simpl.
           apply pos_in_In.
           assert (Hb : hypothetical_board (board g)
                          (map branch_entry (subsystem_branches s))
                          (pos br) (piece_type br) = b').
           { eapply is_hypothetical_unique; [|exact Hhyp].
             apply hypothetical_board_is_hypothetical; try done.
             apply Hon. by apply list_elem_of_In. }
           unfold branch_entry in Hb. by rewrite Hb.
Qed.

Lemma is_square_attacked_iff_witness :
  is_square_attacked split_knight_game 3 3 Black false = true
  <-> classical_attack split_knight_game 3 3 Black
      \/ branch_attack split_knight_game 3 3 Black.
Proof.
  apply (is_square_attacked_iff split_knight_game 3 3 Black).
  - vm_compute. split; [reflexivity|]. repeat constructor.
  - unfold branches_on_board. vm_compute. repeat constructor.
Defined.

(** ** Check detection without a king *)

Lemma find_None_iff {A} (f : A -> bool) (l : list A) :
  find f l = None <-> forall x, In x l -> f x = false.
Proof.
  induction l as [|a l IH]; simpl.
  - split; [by intros _ x []|done].
  - destruct (f a) eqn:E.
    + split; [done|]. intros H. specialize (H a (or_introl eq_refl)).
      congruence.
    + rewrite IH. split.
      * intros H x [<-|Hx]; [done|by apply H].
      * intros H x Hx. apply H. by right.
Qed.

Lemma find_king_rows (f : Z -> option Z) (rows : list Z) (acc : option Pos) :
  fold_left
    (fun king_pos r =>
       match f r with
       | Some c => Some (r, c)
       | None => king_pos
       end)
    rows acc = None
  <-> acc = None /\ forall r, In r rows -> f r = None.
Proof.
  revert acc. induction rows as [|r rows IH]; intros acc; simpl.
  - split; [by intros ->|by intros [-> _]].
  - rewrite IH. destruct (f r) as [c|] eqn:E.
    + split; [by intros [? _]|]. intros [_ H].
      specialize (H r (or_introl eq_refl)). congruence.
    + split.
      * intros [-> H]. split; [done|]. intros r' [<-|Hr']; [done|by apply H].
      * intros [-> H]. split; [done|]. intros r' Hr'. apply H. by right.
Qed.

Lemma find_king_None b color : find_king b color = None <-> no_king b color.
Proof.
  unfold find_king, no_king.
  rewrite (find_king_rows
             (fun r => find (fun c => bool_decide
                                        (cell b r c = Some (mkPiece color King)))
                            range8)).
  split.
  - intros [_ H] r c Hrc. apply on_board_range in Hrc as [Hr Hc].
    specialize (H r (proj2 (In_range8 r) Hr)).
    rewrite find_None_iff in H.
    specialize (H c (proj2 (In_range8 c) Hc)).
    by apply bool_decide_eq_false in H.
  - intros H. split; [done|]. intros r Hr. apply find_None_iff. intros c Hc.
    apply bool_decide_eq_false. apply H. apply on_board_range.
    by rewrite <- !In_range8.
Qed.

(** C9, as amended.  With no king of the colour on the board, a simple
    check query answers [false]; a non-simple query answers [false] unless
    an answer for the colour is stored in the check cache, in which case it
    returns the stored answer.  In every case the game is left exactly as
    it was: no subsystem collapses and the oracle is not run. *)
Theorem is_in_check_no_king oracle (g : Game) (color : Color) :
  no_king (board g) color ->
  is_in_check oracle color true g = Some (false, g)
  /\ is_in_check oracle color false g
     = Some (match pc_get (check_cache g) color with
             | Some cached => cached
             | None => false
             end, g).
Proof.
  intros Hno. apply find_king_None in Hno.
  unfold is_in_check, bind, get_game. simpl.
  rewrite Hno. split; [done|].
  destruct (pc_get (check_cache g) color); done.
Qed.

Lemma no_king_empty_board color : no_king empty_board color.
Proof. apply find_king_None. by destruct color. Qed.

Lemma is_in_check_no_king_witness :
  is_in_check oracle_zero White true (set_board initial_game empty_board)
  = Some (false, set_board initial_game empty_board)
  /\ is_in_check oracle_zero White false (set_board initial_game empty_board)
     = Some (false, set_board initial_game empty_board).
Proof.
  apply (is_in_check_no_king oracle_zero (set_board initial_game empty_board)
           White).
  apply find_king_None. reflexivity.
Defined.

(** The claim as stated fails: with the white king taken off the board
    while the cache still holds the answer computed before, the non-simple
    query answers [true]. *)
Lemma is_in_check_no_king_counterexample :
  no_king (board king_taken_game) White
  /\ is_in_check oracle_zero White false king_taken_game
     = Some (true, king_taken_game).
Proof.
  split.
  - apply find_king_None. vm_compute. reflexivity.
  - vm_compute. reflexivity.
Qed.

(** ** What the generators and the attack test read *)

Lemma same_position_set_turn g1 g2 t :
  same_position g1 g2 -> same_position (set_turn g1 t) (set_turn g2 t).
Proof. intros (Hb & Ht & He & Ho & Hm). by repeat split. Qed.

Lemma ray_ext fuel g1 g2 r c dr dc moves :
  board g1 = board g2 -> turn g1 = turn g2 ->
  ray fuel g1 r c dr dc moves = ray fuel g2 r c dr dc moves.
Proof.
  intros Hb Ht. revert r c moves.
  induction fuel as [|fuel IH]; intros r c moves; simpl; [done|].
  rewrite Hb, Ht. destruct (in_rank (r + dr) && in_rank (c + dc)); [|done].
  destruct (cell (board g2) (r + dr) (c + dc)); [done|]. apply IH.
Qed.

Lemma fold_left_ext_fun {A B} (f1 f2 : A -> B -> A) l init :
  (forall a b, f1 a b = f2 a b) -> fold_left f1 l init = fold_left f2 l init.
Proof.
  intros H. revert init. induction l as [|x l IH]; intros init; simpl; [done|].
  by rewrite H, IH.
Qed.

Lemma get_valid_moves_simple_ext g1 g2 col row :
  same_position g1 g2 ->
  get_valid_moves_simple g1 col row = get_valid_moves_simple g2 col row.
Proof.
  intros (Hb & Ht & He & Ho & Hm). unfold get_valid_moves_simple.
  rewrite Ho, Hm, Hb.
  destruct (game_over g2 || edit_mode g2); [done|].
  destruct (cell (board g2) row col) as [piece|]; [|done].
  assert (Hrook : get_rook_moves g1 row col = get_rook_moves g2 row col).
  { unfold get_rook_moves. apply fold_left_ext_fun.
    intros a [dr dc]. by apply ray_ext. }
  assert (Hbishop : get_bishop_moves g1 row col = get_bishop_moves g2 row col).
  { unfold get_bishop_moves. apply fold_left_ext_fun.
    intros a [dr dc]. by apply ray_ext. }
  destruct (pkind piece).
  - unfold get_pawn_moves. by rewrite Hb, Ht, He.
  - unfold get_knight_moves. by rewrite Hb, Ht.
  - done.
  - done.
  - unfold get_queen_moves. by rewrite Hrook, Hbishop.
  - unfold king_step_moves. by rewrite Hb, Ht.
Qed.

Lemma existsb_ext_fun {A} (f1 f2 : A -> bool) l :
  (forall a, f1 a = f2 a) -> existsb f1 l = existsb f2 l.
Proof.
  intros H. induction l as [|x l IH]; simpl; [done|]. by rewrite H, IH.
Qed.

Lemma is_square_attacked_simple_ext g1 g2 row col color :
  same_position g1 g2 ->
  is_square_attacked g1 row col color true
  = is_square_attacked g2 row col color true.
Proof.
  intros Hsame. unfold is_square_attacked.
  apply existsb_ext_fun. intros r. apply existsb_ext_fun. intros c.
  destruct Hsame as (Hb & Hrest). rewrite Hb. f_equal. f_equal.
  apply get_valid_moves_simple_ext. apply same_position_set_turn.
  by split.
Qed.

Lemma in_check_simple_ext g1 g2 color :
  same_position g1 g2 -> in_check_simple g1 color = in_check_simple g2 color.
Proof.
  intros Hsame. unfold in_check_simple.
  destruct Hsame as (Hb & Hrest). rewrite Hb.
  destruct (find_king (board g2) color); [|done].
  apply is_square_attacked_simple_ext. by split.
Qed.

(** ** Castling *)

Lemma square_empty_inv r c g e g' :
  square_empty r c g = Some (e, g') ->
  g' = g /\ exists x, board_at (board g) r c = Some x /\ e = is_empty x.
Proof.
  unfold square_empty, read_board, bind, get_game, lift, ret.
  destruct (board_at (board g) r c) as [x|]; [|done].
  intros H; inversion H; subst. eauto.
Qed.

Lemma is_empty_true x : is_empty x = true <-> x = None.
Proof. destruct x; simpl; split; congruence. Qed.

Lemma castle_king_side_spec row col g b g1 :
  castle_king_side row col g = Some (b, g1) ->
  (b = true <-> king_side_clear g row col)
  /\ g1 = (if b then set_castle_king true g else g).
Proof.
  unfold castle_king_side, king_side_clear, rights.
  rewrite (bind_Some _ _ g g g eq_refl).
  destruct (c_king_nm (pc_get (castling g) (turn g))) eqn:Hnm.
  2:{ intros H; inversion H; subst. split; [|done]. split; [done|].
      by intros (? & _). }
  intros H. apply bind_inv in H as (e1 & ga & H1 & H).
  apply square_empty_inv in H1 as (-> & x1 & Hx1 & ->).
  apply bind_inv in H as (e2 & gb & H2 & H).
  destruct (is_empty x1) eqn:E1.
  2:{ inversion H2; subst. inversion H; subst. split; [|done].
      split; [done|]. intros (_ & Hx & _). rewrite Hx in Hx1.
      inversion Hx1; subst. done. }
  apply is_empty_true in E1. subst x1.
  apply square_empty_inv in H2 as (-> & x2 & Hx2 & ->).
  destruct (is_empty x2) eqn:E2.
  2:{ inversion H; subst. split; [|done]. split; [done|].
      intros (_ & _ & Hx & _). rewrite Hx in Hx2. inversion Hx2; subst. done. }
  apply is_empty_true in E2. subst x2.
  rewrite (bind_Some _ _ g g g eq_refl) in H.
  destruct (is_square_attacked g row (col + 1) (turn g) true) eqn:A1;
    cbn [negb andb] in H.
  { inversion H; subst. split; [|done]. split; [done|].
    by intros (_ & _ & _ & ? & _). }
  destruct (is_square_attacked g row (col + 2) (turn g) true) eqn:A2;
    cbn [negb andb] in H.
  { inversion H; subst. split; [|done]. split; [done|].
    by intros (_ & _ & _ & _ & ?). }
  unfold bind, modify, ret in H. inversion H; subst.
  split; [|done]. split; [|done]. intros _. by repeat split.
Qed.

Lemma castle_queen_side_spec row col g b g1 :
  castle_queen_side row col g = Some (b, g1) ->
  (b = true <-> queen_side_clear g row col)
  /\ g1 = (if b then set_castle_queen true g else g).
Proof.
  unfold castle_queen_side, queen_side_clear, rights.
  rewrite (bind_Some _ _ g g g eq_refl).
  destruct (c_queen_nm (pc_get (castling g) (turn g))) eqn:Hnm.
  2:{ intros H; inversion H; subst. split; [|done]. split; [done|].
      by intros (? & _). }
  intros H. apply bind_inv in H as (e1 & ga & H1 & H).
  apply square_empty_inv in H1 as (-> & x1 & Hx1 & ->).
  apply bind_inv in H as (e2 & gb & H2 & H).
  destruct (is_empty x1) eqn:E1.
  2:{ inversion H2; subst.
      apply bind_inv in H as (e3 & gc & H3 & H).
      inversion H3; subst. inversion H; subst. split; [|done].
      split; [done|]. intros (_ & Hx & _). rewrite Hx in Hx1.
      inversion Hx1; subst. done. }
  apply is_empty_true in E1. subst x1.
  apply square_empty_inv in H2 as (-> & x2 & Hx2 & ->).
  apply bind_inv in H as (e3 & gc & H3 & H).
  destruct (is_empty x2) eqn:E2.
  2:{ inversion H3; subst. inversion H; subst. split; [|done].
      split; [done|]. intros (_ & _ & Hx & _). rewrite Hx in Hx2.
      inversion Hx2; subst. done. }
  apply is_empty_true in E2. subst x2.
  apply square_empty_inv in H3 as (-> & x3 & Hx3 & ->).
  destruct (is_empty x3) eqn:E3.
  2:{ inversion H; subst. split; [|done]. split; [done|].
      intros (_ & _ & _ & Hx & _). rewrite Hx in Hx3.
      inversion Hx3; subst. done. }
  apply is_empty_true in E3. subst x3.
  rewrite (bind_Some _ _ g g g eq_refl) in H.
  destruct (is_square_attacked g row (col - 1) (turn g) true) eqn:A1;
    cbn [negb andb] in H.
  { inversion H; subst. split; [|done]. split; [done|].
    by intros (_ & _ & _ & _ & ? & _). }
  destruct (is_square_attacked g row (col - 2) (turn g) true) eqn:A2;
    cbn [negb andb] in H.
  { inversion H; subst. split; [|done]. split; [done|].
    by intros (_ & _ & _ & _ & _ & ?). }
  unfold bind, modify, ret in H. inversion H; subst.
  split; [|done]. split; [|done]. intros _. by repeat split.
Qed.

Lemma queen_side_clear_ext g1 g2 row col :
  same_position g1 g2 -> c_queen_nm (rights g1) = c_queen_nm (rights g2) ->
  queen_side_clear g1 row col <-> queen_side_clear g2 row col.
Proof.
  intros Hsame Hnm. unfold queen_side_clear.
  rewrite !(is_square_attacked_simple_ext g1 g2) by done.
  destruct Hsame as (Hb & Ht & _). by rewrite Hnm, Hb, Ht.
Qed.

Lemma set_castle_flags_same g :
  set_castle_flags (c_king (rights g)) (c_queen (rights g)) g = g.
Proof.
  destruct g as [b t cap ep [cw cb] h pp ppos cc go em ds sm m oc].
  unfold set_castle_flags, rights. simpl.
  destruct t; [destruct cw|destruct cb]; reflexivity.
Qed.

Lemma set_castle_king_flags v g :
  set_castle_king v g = set_castle_flags v (c_queen (rights g)) g.
Proof. reflexivity. Qed.

Lemma set_castle_queen_flags v g :
  set_castle_queen v g = set_castle_flags (c_king (rights g)) v g.
Proof. reflexivity. Qed.

Lemma rights_set_castle_flags k q g :
  rights (set_castle_flags k q g)
  = mkCastling k q (c_king_nm (rights g)) (c_queen_nm (rights g)).
Proof.
  unfold set_castle_flags, rights. simpl. by destruct (turn g).
Qed.

Lemma set_castle_flags_twice k q k' q' g :
  set_castle_flags k q (set_castle_flags k' q' g) = set_castle_flags k q g.
Proof.
  unfold set_castle_flags at 1. rewrite rights_set_castle_flags. simpl.
  unfold set_castle_flags, rights. simpl.
  destruct (turn g); reflexivity.
Qed.

Lemma same_position_set_castle_flags k q g :
  same_position (set_castle_flags k q g) g.
Proof. by repeat split. Qed.

(** C8, as amended.  [can_castle] computes its answer afresh on every call:
    [true] exactly when the square holds a king, the side to move is not in
    check (simple test), and at least one side is open (never-moved flag
    set, squares between empty, squares crossed not attacked).  It leaves
    the whole game as it was except the two "currently eligible" castling
    flags of the side to move, which it writes: after an answer [true]
    the flag of every open side is set. *)
Theorem can_castle_effect oracle (g : Game) (row col : Z) (res : bool)
    (g' : Game) :
  can_castle oracle row col g = Some (res, g') ->
  (res = true <->
     (exists p, board_at (board g) row col = Some (Some p) /\ pkind p = King)
     /\ in_check_simple g (turn g) = false
     /\ (king_side_clear g row col \/ queen_side_clear g row col))
  /\ (exists k q, g' = set_castle_flags k q g)
  /\ (res = true ->
      (king_side_clear g row col -> c_king (rights g') = true)
      /\ (queen_side_clear g row col -> c_queen (rights g') = true))
  /\ (res = false ->
      (exists p, board_at (board g) row col = Some (Some p) /\ pkind p = King) ->
      c_king_nm (rights g) = true \/ c_queen_nm (rights g) = true ->
      in_check_simple g (turn g) = false ->
      g' = set_castle_flags false false g).
Proof.
  unfold can_castle. rewrite (bind_Some _ _ g g g eq_refl).
  intros H. apply bind_inv in H as (x & ga & Hx & H).
  apply read_board_inv in Hx as [-> Hx].
  apply bind_inv in H as (piece & ga & Hp & H).
  unfold lift in Hp. destruct x as [p|]; [|done].
  inversion Hp; subst piece ga. clear Hp.
  assert (Hsame : exists k q, g = set_castle_flags k q g).
  { exists (c_king (rights g)), (c_queen (rights g)).
    by rewrite set_castle_flags_same. }
  fold (rights g) in H.
  destruct (negb (bool_decide (pkind p = King))) eqn:Hking.
  { simpl in H. inversion H; subst.
    apply negb_true_iff, bool_decide_eq_false in Hking.
    assert (Hno : ~ exists p0, board_at (board g') row col = Some (Some p0)
                               /\ pkind p0 = King).
    { intros (p' & Hp' & Hk). rewrite Hx in Hp'. by inversion Hp'; subst p'. }
    split; [|split; [done|split; [done|]]].
    - split; [done|]. by intros (? & _).
    - by intros _ ?. }
  apply negb_false_iff, bool_decide_eq_true in Hking.
  destruct (negb (c_king_nm (rights g)) && negb (c_queen_nm (rights g)))
    eqn:Hnm.
  { simpl in H. inversion H; subst.
    apply andb_true_iff in Hnm as [Hk Hq].
    apply negb_true_iff in Hk, Hq.
    split; [|split; [done|split; [done|]]].
    - split; [done|]. intros (_ & _ & Hside).
      destruct Hside as [(Hc & _)|(Hc & _)]; congruence.
    - intros _ _ [Hc|Hc]; congruence. }
  simpl in H.
  rewrite (bind_Some _ _ _ _ _ (is_in_check_simple_eq oracle _ _)) in H.
  destruct (in_check_simple g (turn g)) eqn:Hcheck.
  { inversion H; subst. split; [|split; [done|split; [done|]]].
    - split; [done|]. by intros (_ & ? & _).
    - by intros _ _ _ ?. }
  apply bind_inv in H as (c1 & g1 & H1 & H).
  apply castle_king_side_spec in H1 as [Hc1 ->].
  apply bind_inv in H as (c2 & g2 & H2 & H).
  apply castle_queen_side_spec in H2 as [Hc2 ->].
  assert (Hc2' : c2 = true <-> queen_side_clear g row col).
  { rewrite Hc2. destruct c1; [|done].
    rewrite set_castle_king_flags. apply queen_side_clear_ext.
    - apply same_position_set_castle_flags.
    - by rewrite rights_set_castle_flags. }
  clear Hc2.
  assert (Hp : exists p0, board_at (board g) row col = Some (Some p0)
                          /\ pkind p0 = King) by eauto.
  destruct c1, c2; simpl in H; unfold bind, modify, ret in H;
    inversion H; subst; clear H.
  - split; [|split; [|split; [|done]]].
    + split; [|done]. intros _. split; [done|]. split; [done|].
      left. by apply Hc1.
    + rewrite set_castle_king_flags, set_castle_queen_flags.
      rewrite set_castle_flags_twice. eauto.
    + intros _. rewrite set_castle_king_flags, set_castle_queen_flags.
      rewrite set_castle_flags_twice, !rights_set_castle_flags. done.
  - split; [|split; [|split; [|done]]].
    + split; [|done]. intros _. split; [done|]. split; [done|].
      left. by apply Hc1.
    + rewrite set_castle_king_flags. eauto.
    + intros _. rewrite set_castle_king_flags, rights_set_castle_flags.
      split; [done|]. intros Hq. apply Hc2' in Hq. done.
  - split; [|split; [|split; [|done]]].
    + split; [|done]. intros _. split; [done|]. split; [done|].
      right. by apply Hc2'.
    + rewrite set_castle_queen_flags. eauto.
    + intros _. rewrite set_castle_queen_flags, rights_set_castle_flags.
      split; [|done]. intros Hk. apply Hc1 in Hk. done.
  - split; [|split; [|split; [done|]]].
    + split; [done|]. intros (_ & _ & [Hk|Hq]).
      * apply Hc1 in Hk. done.
      * apply Hc2' in Hq. done.
    + rewrite set_castle_queen_flags, set_castle_king_flags.
      rewrite set_castle_flags_twice. eauto.
    + intros _ _ _ _.
      rewrite set_castle_queen_flags, set_castle_king_flags.
      by rewrite set_castle_flags_twice, rights_set_castle_flags.
Qed.

Lemma can_castle_effect_witness :
  (true = true <->
     (exists p, board_at (board king_side_open_game) 7 4 = Some (Some p)
                /\ pkind p = King)
     /\ in_check_simple king_side_open_game (turn king_side_open_game) = false
     /\ (king_side_clear king_side_open_game 7 4
         \/ queen_side_clear king_side_open_game 7 4))
  /\ (exists k q,
        set_castle_flags true false king_side_open_game
        = set_castle_flags k q king_side_open_game)
  /\ (true = true ->
      (king_side_clear king_side_open_game 7 4 ->
       c_king (rights (set_castle_flags true false king_side_open_game)) = true)
      /\ (queen_side_clear king_side_open_game 7 4 ->
          c_queen (rights (set_castle_flags true false king_side_open_game))
          = true))
  /\ (true = false ->
      (exists p, board_at (board king_side_open_game) 7 4 = Some (Some p)
                 /\ pkind p = King) ->
      c_king_nm (rights king_side_open_game) = true
      \/ c_queen_nm (rights king_side_open_game) = true ->
      in_check_simple king_side_open_game (turn king_side_open_game) = false ->
      set_castle_flags true false king_side_open_game
      = set_castle_flags false false king_side_open_game).
Proof.
  apply (can_castle_effect oracle_zero king_side_open_game 7 4 true
           (set_castle_flags true false king_side_open_game)).
  vm_compute. reflexivity.
Defined.

(** The claim as stated fails: a call of [can_castle] that finds the king
    side open writes the eligibility flag, so the game after the call is
    not the game before it. *)
Lemma can_castle_changes_state_counterexample :
  can_castle oracle_zero 7 4 king_side_open_game
  = Some (true, set_castle_flags true false king_side_open_game)
  /\ set_castle_flags true false king_side_open_game <> king_side_open_game
  /\ c_king (rights king_side_open_game) = false
  /\ c_king (rights (set_castle_flags true false king_side_open_game)) = true.
Proof.
  split; [vm_compute; reflexivity|]. split; [|split; reflexivity].
  intros H. apply (f_equal (fun g => c_king (rights g))) in H.
  vm_compute in H. discriminate.
Qed.

(** ** Castling destinations *)

(** C10 at a failing input.  With the white king on b1, the corner and the
    squares the row index wraps to empty, and the never-moved flag still
    set, [can_castle] reads [board[7][0]], [board[7][-1]] and
    [board[7][-2]], finds the queen side open, and [get_king_moves] appends
    [(row, col - 2)] = (7, -1), which is not a square of the board; the
    legality filter of [get_valid_moves] keeps it. *)
Theorem castling_destination_off_board :
  fst <$> get_king_moves oracle_zero 7 1 false castle_wrap_game
  = Some [(7, 0); (7, -1)]
  /\ fst <$> get_valid_moves oracle_zero 1 7 false castle_wrap_game
     = Some [(7, 0); (7, -1)]
  /\ on_board 7 (-1) = false.
Proof. repeat split; vm_compute; reflexivity. Qed.

(** With [simple=True], [get_valid_moves] on a square of an 8x8 board is
    the pure generator and leaves the game as it is. *)
Lemma get_valid_moves_simple_eq oracle g col row :
  wf_board (board g) -> on_board row col = true ->
  get_valid_moves oracle col row true g
  = Some (get_valid_moves_simple g col row, g).
Proof.
  intros Hwf Hrc. unfold get_valid_moves, get_valid_moves_simple.
  rewrite (bind_Some _ _ g g g eq_refl).
  destruct (game_over g || edit_mode g); [done|].
  rewrite (bind_Some _ _ _ _ _ (read_board_ok row col g Hwf Hrc)).
  simpl negb. cbn [andb].
  destruct (cell (board g) row col) as [piece|]; [|done].
  destruct (pkind piece); unfold bind, ret, get_king_moves, get_game; done.
Qed.

(** The generators other than castling stay on the board: every move of
    [get_valid_moves] in simple mode, from an origin on an 8x8 board, is a
    square of the board, and the call leaves the game as it is. *)
Lemma simple_moves_stay_on_board oracle g col row moves g' :
  wf_board (board g) -> on_board row col = true ->
  get_valid_moves oracle col row true g = Some (moves, g') ->
  g' = g /\ Forall on_board_pos moves.
Proof.
  intros Hwf Hrc. unfold get_valid_moves.
  rewrite (bind_Some _ _ g g g eq_refl).
  pose proof (get_valid_moves_simple_on_board g col row Hrc) as Hsimple.
  unfold get_valid_moves_simple in Hsimple.
  destruct (game_over g || edit_mode g).
  { intros H; inversion H; subst. done. }
  rewrite (bind_Some _ _ _ _ _ (read_board_ok row col g Hwf Hrc)).
  simpl negb. cbn [andb].
  destruct (cell (board g) row col) as [piece|].
  2:{ intros H; inversion H; subst. done. }
  destruct (pkind piece); unfold bind, ret, get_king_moves, get_game; simpl;
    intros H; inversion H; subst; done.
Qed.

(** ** Collapse of a chained subsystem *)


(** ** The check cache after a confirmed check *)

(** Whatever a non-simple check query does on the way, an answer [true]
    ends stored in the cache of the colour. *)
Lemma is_in_check_true_cached oracle g color g' :
  is_in_check oracle color false g = Some (true, g') ->
  pc_get (check_cache g') color = Some true.
Proof.
  unfold is_in_check. rewrite (bind_Some _ _ g g g eq_refl). cbn [negb].
  destruct (pc_get (check_cache g) color) as [cached|] eqn:Hc.
  { intros H; inversion H; subst. done. }
  destruct (find_king (board g) color) as [king_pos|]; [|done].
  intros H. apply bind_inv in H as (u & g1 & _ & H).
  apply bind_inv in H as (u' & g2 & H2 & H).
  cbn [negb] in H2. unfold modify in H2. inversion H2; subst.
  inversion H; subst. unfold set_cached. simpl.
  by destruct color.
Qed.

(** C4 at a failing input.  The white king on e1 is attacked only by the e8
    branch of a split black rook.  The non-simple query answers [true],
    collapses the subsystem (the rook turns out to be on a8) and folds it
    into the board, but then stores its answer: the cache of the colour is
    not invalid afterwards, and a later query returns the [true] computed
    before the collapse although on the now classical board the king's
    square is not attacked. *)
Theorem is_in_check_keeps_stale_answer :
  exists g',
    is_in_check oracle_zero White false rook_split_game = Some (true, g')
    /\ Forall (fun s => measured s = true) (subsystems (split_manager g'))
    /\ global_position_map (split_manager g') = ∅
    /\ cell (board g') 0 0 = br /\ cell (board g') 0 4 = None
    /\ pc_get (check_cache g') White = Some true
    /\ is_square_attacked g' 7 4 White false = false
    /\ in_check_simple g' White = false
    /\ is_in_check oracle_zero White false g' = Some (true, g').
Proof.
  eexists. split; [vm_compute; reflexivity|].
  split; [repeat constructor|].
  repeat split; vm_compute; reflexivity.
Qed.

(** ** Frames: what an effectful method leaves alone

    [keeps R m] says that every successful run of [m] relates the game
    before to the game after by [R].  The lemmas are stated once for any
    reflexive and transitive [R] that holds across a write to a square of
    the board, the collapse of a subsystem, the removal of an entry of the
    index, and a change of the check cache,
    the two castling eligibility flags of the side to move and the
    end-of-game flags. *)

Section Keeps.

Variable R : Game -> Game -> Prop.
Variable oracle : nat -> Circuit -> list bool.
Hypothesis R_refl : forall g, R g g.
Hypothesis R_trans : forall g1 g2 g3, R g1 g2 -> R g2 g3 -> R g1 g3.
Hypothesis R_put : forall g r c x b,
  board_put (board g) r c x = Some b -> R g (set_board g b).
Hypothesis R_collapse : forall g sid s rm s' calls',
  subsystems (split_manager g) !! sid = Some s ->
  collapse oracle s (oracle_calls g) = Some (rm, s', calls') ->
  R g (set_oracle_calls
         (set_split_manager g (set_subsystem (split_manager g) sid s'))
         calls').
Hypothesis R_delete : forall g p,
  R g (set_split_manager g
         (mkManager (subsystems (split_manager g))
            (delete p (global_position_map (split_manager g))))).
Hypothesis R_cache : forall g c, R g (set_check_cache g c).
Hypothesis R_castling : forall g k q, R g (set_castle_flags k q g).
Hypothesis R_over : forall g o s, R g (set_game_over g o s).

Lemma keeps_ret {A} (x : A) : keeps R (ret x).
Proof. intros g y g' H. inversion H; subst. apply R_refl. Qed.

Lemma keeps_raise {A} : keeps R (@raise A).
Proof. intros g y g' H. done. Qed.

Lemma keeps_get : keeps R get_game.
Proof. intros g y g' H. inversion H; subst. apply R_refl. Qed.

Lemma keeps_lift {A} (o : option A) : keeps R (lift o).
Proof.
  intros g y g' H. unfold lift in H. destruct o; [|done].
  inversion H; subst. apply R_refl.
Qed.

Lemma keeps_modify (f : Game -> Game) :
  (forall g, R g (f g)) -> keeps R (modify f).
Proof. intros Hf g y g' H. inversion H; subst. apply Hf. Qed.

Lemma keeps_bind {A B} (m : M A) (k : A -> M B) :
  keeps R m -> (forall x, keeps R (k x)) -> keeps R (x <- m ;; k x).
Proof.
  intros Hm Hk g y g' H. apply bind_inv in H as (x & g1 & H1 & H2).
  eapply R_trans; [eapply Hm|eapply Hk]; eauto.
Qed.

Lemma keeps_for_each {A} (l : list A) (body : A -> M unit) :
  (forall x, keeps R (body x)) -> keeps R (for_each l body).
Proof.
  intros Hbody. induction l as [|x l IH]; simpl.
  - apply keeps_ret.
  - apply keeps_bind; [apply Hbody|]. intros _. exact IH.
Qed.

Lemma keeps_write_board r c x : keeps R (write_board r c x).
Proof.
  intros g y g' H. unfold write_board, bind, get_game, lift, put_game in H.
  destruct (board_put (board g) r c x) eqn:E; [|done].
  inversion H; subst. by eapply R_put.
Qed.

Lemma keeps_apply_qubit g q b :
  apply_qubit (board g) q = Some b -> R g (set_board g b).
Proof.
  unfold apply_qubit. intros H.
  destruct (board_put (board g) _ _ None) as [b1|] eqn:E1; simpl in H; [|done].
  destruct (board_put b1 _ _ None) as [b2|] eqn:E2; simpl in H; [|done].
  eapply R_trans; [by eapply R_put|].
  eapply R_trans; [by eapply (R_put (set_board g b1))|].
  by apply (R_put (set_board g b2)) in H.
Qed.

Lemma keeps_apply_qubits qs : forall g b,
  apply_qubits (board g) qs = Some b -> R g (set_board g b).
Proof.
  induction qs as [|q qs IH]; intros g b H; simpl in H.
  - inversion H; subst. rewrite set_board_same. apply R_refl.
  - destruct (apply_qubit (board g) q) as [b1|] eqn:E; simpl in H; [|done].
    eapply R_trans; [by eapply keeps_apply_qubit|].
    by apply (IH (set_board g b1)) in H.
Qed.

Lemma keeps_read_board r c : keeps R (read_board r c).
Proof.
  unfold read_board. apply keeps_bind; [apply keeps_get|].
  intros g. apply keeps_lift.
Qed.

Lemma keeps_square_empty r c : keeps R (square_empty r c).
Proof.
  unfold square_empty. apply keeps_bind; [apply keeps_read_board|].
  intros x. apply keeps_ret.
Qed.

Ltac keeps_step :=
  match goal with
  | |- keeps _ (ret _) => apply keeps_ret
  | |- keeps _ raise => apply keeps_raise
  | |- keeps _ get_game => apply keeps_get
  | |- keeps _ (lift _) => apply keeps_lift
  | |- keeps _ (write_board _ _ _) => apply keeps_write_board
  | |- keeps _ (read_board _ _) => apply keeps_read_board
  | |- keeps _ (square_empty _ _) => apply keeps_square_empty
  | |- keeps _ (bind _ _) => apply keeps_bind; [|intros ?]
  | |- keeps _ (for_each _ _) => apply keeps_for_each; intros ?
  | |- keeps _ (if ?b then _ else _) => destruct b
  | |- keeps _ (match ?x with _ => _ end) => destruct x
  end.

Lemma keeps_subsystem_collapse sid : keeps R (subsystem_collapse oracle sid).
Proof.
  intros g y g' H.
  unfold subsystem_collapse, bind, get_game, lift, put_game in H.
  destruct (subsystems (split_manager g) !! sid) as [s|] eqn:Es; [|done].
  destruct (collapse oracle _ _) as [[[rm s'] calls']|] eqn:Ec; [|done].
  inversion H; subst. by eapply R_collapse.
Qed.

Lemma keeps_collapse_qubit qubit : keeps R (collapse_qubit oracle qubit).
Proof.
  unfold collapse_qubit. repeat keeps_step. apply keeps_subsystem_collapse.
Qed.

Lemma keeps_apply_to_board sid target :
  keeps R (apply_to_board oracle sid target).
Proof.
  intros g y g' H. unfold apply_to_board in H.
  apply bind_inv in H as (g0 & ga & Hg & H). inversion Hg; subst g0 ga.
  apply bind_inv in H as (s & ga & Hs & H).
  apply (keeps_lift _ _ _ _) in Hs as R1.
  apply bind_inv in H as (u & gb & Hc & H).
  assert (R2 : R ga gb).
  { destruct (negb (measured s)).
    - by apply keeps_subsystem_collapse in Hc.
    - by apply keeps_ret in Hc. }
  apply bind_inv in H as (g0 & gc & Hg' & H). inversion Hg'; subst g0 gc.
  apply bind_inv in H as (qs & gc & Hq & H).
  assert (gc = gb).
  { unfold lift in Hq. destruct target as [t|].
    - destruct (lookup_qubit (split_manager gb) t); simpl in Hq; [|done].
      by inversion Hq.
    - destruct (subsystems (split_manager gb) !! sid); simpl in Hq; [|done].
      by inversion Hq. }
  subst gc.
  apply bind_inv in H as (b & gd & Hb & H).
  unfold lift in Hb.
  destruct (apply_qubits (board gb) qs) as [b'|] eqn:E; [|done].
  inversion Hb; subst b' gd.
  unfold put_game in H. inversion H; subst.
  eapply R_trans; [exact R1|]. eapply R_trans; [exact R2|].
  by eapply keeps_apply_qubits.
Qed.

Lemma keeps_apply_measured sids target :
  keeps R (apply_measured oracle sids target).
Proof.
  induction sids as [|sid sids IH]; simpl.
  - apply keeps_ret.
  - repeat keeps_step; try apply keeps_apply_to_board. exact IH.
Qed.

Lemma keeps_del_position p : keeps R (del_position p).
Proof.
  intros g y g' H. unfold del_position, bind, get_game, put_game in H.
  destruct (global_position_map (split_manager g) !! p); [|done].
  inversion H; subst. apply R_delete.
Qed.

Lemma keeps_apply_collapse_to_board target :
  keeps R (apply_collapse_to_board oracle target).
Proof.
  unfold apply_collapse_to_board. repeat keeps_step.
  - apply keeps_apply_measured.
  - apply keeps_del_position.
Qed.

Lemma keeps_is_in_check color simple : keeps R (is_in_check oracle color simple).
Proof.
  unfold is_in_check. repeat keeps_step;
    try apply keeps_subsystem_collapse;
    try apply keeps_apply_collapse_to_board;
    try (apply keeps_modify; intros; apply R_cache).
Qed.

Lemma keeps_is_legal_move fr fc tr tc :
  keeps R (is_legal_move oracle fr fc tr tc).
Proof.
  unfold is_legal_move. repeat keeps_step; apply keeps_is_in_check.
Qed.

Lemma keeps_can_castle row col : keeps R (can_castle oracle row col).
Proof.
  unfold can_castle, castle_king_side, castle_queen_side.
  repeat keeps_step;
    try apply keeps_is_in_check;
    try (apply keeps_modify; intros;
         first [rewrite set_castle_king_flags|rewrite set_castle_queen_flags];
         apply R_castling).
Qed.

Lemma keeps_get_king_moves row col simple :
  keeps R (get_king_moves oracle row col simple).
Proof.
  unfold get_king_moves. repeat keeps_step. apply keeps_can_castle.
Qed.

Lemma keeps_filter_legal row col moves :
  keeps R (filter_legal oracle row col moves).
Proof.
  induction moves as [|[r c] moves IH]; simpl.
  - apply keeps_ret.
  - repeat keeps_step; [apply keeps_is_legal_move|exact IH].
Qed.

Lemma keeps_get_valid_moves col row simple :
  keeps R (get_valid_moves oracle col row simple).
Proof.
  unfold get_valid_moves.
  repeat keeps_step; try apply keeps_get_king_moves;
    apply keeps_filter_legal.
Qed.

Lemma keeps_some_legal row col moves :
  keeps R (some_legal oracle row col moves).
Proof.
  induction moves as [|[r c] moves IH]; simpl.
  - apply keeps_ret.
  - repeat keeps_step; [apply keeps_is_legal_move|exact IH].
Qed.

Lemma keeps_has_legal_move color squares :
  keeps R (has_legal_move oracle color squares).
Proof.
  induction squares as [|[row col] squares IH]; simpl.
  - apply keeps_ret.
  - repeat keeps_step;
      try apply keeps_get_valid_moves; try apply keeps_some_legal;
      exact IH.
Qed.

Lemma keeps_is_checkmate color : keeps R (is_checkmate oracle color).
Proof.
  unfold is_checkmate.
  repeat keeps_step; try apply keeps_is_in_check; apply keeps_has_legal_move.
Qed.

Lemma keeps_is_stalemate color : keeps R (is_stalemate oracle color).
Proof.
  unfold is_stalemate.
  repeat keeps_step; try apply keeps_is_in_check; apply keeps_has_legal_move.
Qed.

Lemma keeps_evaluate_end : keeps R (evaluate_end oracle).
Proof.
  unfold evaluate_end.
  repeat keeps_step;
    try apply keeps_is_checkmate; try apply keeps_is_stalemate;
    apply keeps_modify; intros; apply R_over.
Qed.

Lemma keeps_real_pos_of qubit : keeps R (real_pos_of qubit).
Proof. unfold real_pos_of. repeat keeps_step. Qed.

Lemma keeps_pass_turn :
  (forall g, R g (flip_turn g)) -> keeps R (pass_turn oracle).
Proof.
  intros Hflip. unfold pass_turn. repeat keeps_step.
  - apply keeps_modify. intros g. apply R_cache.
  - by apply keeps_modify.
  - apply keeps_evaluate_end.
Qed.

Lemma keeps_handle_split_from from_row from_col piece :
  (forall g, R g (flip_turn g)) ->
  keeps R (handle_split_from oracle from_row from_col piece).
Proof.
  intros Hflip. unfold handle_split_from.
  repeat keeps_step;
    try apply keeps_subsystem_collapse;
    try apply keeps_apply_collapse_to_board;
    by apply keeps_pass_turn.
Qed.

Lemma keeps_handle_target to_row to_col target_piece is_split_to :
  (forall g, R g (flip_turn g)) ->
  (forall g x, R g (record_capture x g)) ->
  keeps R (handle_target oracle to_row to_col target_piece is_split_to).
Proof.
  intros Hflip Hcap. unfold handle_target.
  repeat keeps_step;
    try apply keeps_collapse_qubit; try apply keeps_real_pos_of;
    try apply keeps_apply_collapse_to_board;
    try (by apply keeps_pass_turn);
    apply keeps_modify; intros; apply Hcap.
Qed.


Lemma keeps_handle_en_passant to_row to_col is_en_passant :
  (forall g x, R g (record_capture x g)) ->
  keeps R (handle_en_passant oracle to_row to_col is_en_passant).
Proof.
  intros Hcap. unfold handle_en_passant.
  repeat keeps_step;
    try apply keeps_collapse_qubit; try apply keeps_real_pos_of;
    try apply keeps_apply_collapse_to_board;
    apply keeps_modify; intros; apply Hcap.
Qed.

Lemma keeps_handle_castling from_row from_col to_col piece :
  keeps R (handle_castling from_row from_col to_col piece).
Proof. unfold handle_castling. repeat keeps_step. Qed.

Lemma keeps_register_split from_pos to_pos piece :
  (forall g piece sid qid m,
     create_split_qubit (split_manager g) from_pos to_pos piece
     = Some (sid, qid, m) -> R g (set_split_manager g m)) ->
  keeps R (register_split from_pos to_pos piece).
Proof.
  intros Hreg g y g' H.
  unfold register_split, bind, get_game, lift, put_game in H.
  destruct (create_split_qubit _ _ _ _) as [[[sid qid] m]|] eqn:E; [|done].
  inversion H; subst. simpl. by eapply Hreg.
Qed.

Lemma keeps_perform_move from_row from_col to_row to_col piece :
  (forall g piece sid qid m,
     create_split_qubit (split_manager g) (from_row, from_col)
       (to_row, to_col) piece
     = Some (sid, qid, m) -> R g (set_split_manager g m)) ->
  keeps R (perform_move from_row from_col to_row to_col piece).
Proof.
  intros Hreg. unfold perform_move. repeat keeps_step.
  by apply keeps_register_split.
Qed.

Lemma keeps_complete_move from_row from_col to_row to_col piece target_piece
    is_en_passant :
  (forall g x, R g (record_capture x g)) ->
  (forall g piece sid qid m,
     create_split_qubit (split_manager g) (from_row, from_col)
       (to_row, to_col) piece
     = Some (sid, qid, m) -> R g (set_split_manager g m)) ->
  (forall g b p, R g (set_promotion g b p)) ->
  (forall g fr fc tr tc piece target,
     R g (update_game_state fr fc tr tc piece target g)) ->
  keeps R (complete_move oracle from_row from_col to_row to_col piece
             target_piece is_en_passant).
Proof.
  intros Hcap Hreg Hpromo Hupd. unfold complete_move. repeat keeps_step.
  - by apply keeps_handle_en_passant.
  - by apply keeps_perform_move.
  - apply keeps_handle_castling.
  - apply keeps_modify. intros. apply Hpromo.
  - apply keeps_modify. intros. apply Hupd.
  - apply keeps_evaluate_end.
Qed.

Lemma keeps_make_move from_row from_col to_row to_col :
  (forall g, R g (flip_turn g)) ->
  (forall g x, R g (record_capture x g)) ->
  (forall g piece sid qid m,
     create_split_qubit (split_manager g) (from_row, from_col)
       (to_row, to_col) piece
     = Some (sid, qid, m) -> R g (set_split_manager g m)) ->
  (forall g b p, R g (set_promotion g b p)) ->
  (forall g fr fc tr tc piece target,
     R g (update_game_state fr fc tr tc piece target g)) ->
  keeps R (make_move oracle from_row from_col to_row to_col).
Proof.
  intros Hflip Hcap Hreg Hpromo Hupd. unfold make_move. repeat keeps_step.
  - by apply keeps_handle_split_from.
  - by apply keeps_handle_target.
  - by apply keeps_complete_move.
Qed.


End Keeps.

(** ** The bookkeeping is left alone by checks and collapses *)

Lemma same_record_refl g : same_record g g.
Proof. by repeat split. Qed.

Lemma same_record_trans g1 g2 g3 :
  same_record g1 g2 -> same_record g2 g3 -> same_record g1 g3.
Proof.
  unfold same_record. intros (A1 & A2 & A3 & A4 & A5 & A6 & A7 & A8)
                             (B1 & B2 & B3 & B4 & B5 & B6 & B7 & B8).
  repeat split; congruence.
Qed.

Section SameRecord.

Variable oracle : nat -> Circuit -> list bool.

Lemma same_record_subsystem_collapse sid :
  keeps same_record (subsystem_collapse oracle sid).
Proof.
  apply keeps_subsystem_collapse. by repeat split.
Qed.

Lemma same_record_collapse_qubit qubit :
  keeps same_record (collapse_qubit oracle qubit).
Proof.
  apply keeps_collapse_qubit;
    [apply same_record_refl|apply same_record_trans|by repeat split..].
Qed.

Lemma same_record_apply_collapse_to_board target :
  keeps same_record (apply_collapse_to_board oracle target).
Proof.
  apply keeps_apply_collapse_to_board;
    [apply same_record_refl|apply same_record_trans|by repeat split..].
Qed.

Lemma same_record_is_in_check color simple :
  keeps same_record (is_in_check oracle color simple).
Proof.
  apply keeps_is_in_check;
    [apply same_record_refl|apply same_record_trans|by repeat split..].
Qed.

Lemma same_record_evaluate_end : keeps same_record (evaluate_end oracle).
Proof.
  apply keeps_evaluate_end;
    [apply same_record_refl|apply same_record_trans|by repeat split..].
Qed.

Lemma same_record_write_board r c x : keeps same_record (write_board r c x).
Proof. apply keeps_write_board. by repeat split. Qed.

End SameRecord.

(** ** Folding one collapsed qubit into the board *)

Lemma real_branch_cases q :
  real_branch q = branch_a q \/ real_branch q = branch_b q.
Proof. unfold real_branch. destruct (collapsed_result q) as [[]|]; auto. Qed.

Lemma real_branch_on_board q :
  qubit_on_board q ->
  on_board (pos (real_branch q)).1 (pos (real_branch q)).2 = true.
Proof. intros [Ha Hb]. destruct (real_branch_cases q) as [->| ->]; done. Qed.

Lemma apply_qubit_fold b q :
  wf_board b -> qubit_on_board q -> apply_qubit b q = Some (fold_qubit b q).
Proof.
  intros Hwf Hq. pose proof (real_branch_on_board q Hq) as Hr.
  destruct Hq as [Ha Hb]. unfold apply_qubit, fold_qubit.
  rewrite (board_put_set b) by done. simpl.
  rewrite board_put_set by (try done; by apply wf_board_set). simpl.
  rewrite board_put_set by (try done; by repeat apply wf_board_set). done.
Qed.

Lemma wf_fold_qubit b q : wf_board b -> wf_board (fold_qubit b q).
Proof. intros Hwf. unfold fold_qubit. by repeat apply wf_board_set. Qed.

Lemma cell_fold_qubit b q r c :
  wf_board b -> qubit_on_board q -> on_board r c = true ->
  cell (fold_qubit b q) r c =
  if bool_decide ((r, c) = pos (real_branch q))
  then Some (piece_type (real_branch q))
  else if bool_decide ((r, c) = pos (branch_a q) \/ (r, c) = pos (branch_b q))
       then None
       else cell b r c.
Proof.
  intros Hwf Hq Hrc. pose proof (real_branch_on_board q Hq) as Hr.
  destruct Hq as [Ha Hb]. unfold fold_qubit.
  destruct (pos (real_branch q)) as [rr rc] eqn:Er.
  destruct (pos (branch_a q)) as [ar ac] eqn:Ea.
  destruct (pos (branch_b q)) as [br' bc] eqn:Eb.
  simpl in *.
  rewrite !cell_board_set by (try done; by repeat apply wf_board_set).
  repeat case_bool_decide; try done; try congruence; intuition congruence.
Qed.

Lemma fold_qubit_idempotent b q :
  wf_board b -> qubit_on_board q ->
  fold_qubit (fold_qubit b q) q = fold_qubit b q.
Proof.
  intros Hwf Hq.
  apply board_ext; [by repeat apply wf_fold_qubit|by apply wf_fold_qubit|].
  intros r c Hrc.
  rewrite (cell_fold_qubit (fold_qubit b q)) by (try done; by apply wf_fold_qubit).
  rewrite (cell_fold_qubit b) by done.
  repeat case_bool_decide; done.
Qed.

(** After the fold the square of the real branch shows its piece and the
    square of the other branch is empty. *)
Lemma cell_fold_qubit_branch b q tag :
  wf_board b -> qubit_on_board q ->
  cell (fold_qubit b q) (pos (branch_of tag q)).1 (pos (branch_of tag q)).2
  = if bool_decide (pos (branch_of tag q) = pos (real_branch q))
    then Some (piece_type (real_branch q))
    else None.
Proof.
  intros Hwf Hq.
  assert (Hon : on_board (pos (branch_of tag q)).1 (pos (branch_of tag q)).2
                = true).
  { destruct Hq as [Ha Hb]. by destruct tag. }
  rewrite cell_fold_qubit by done.
  destruct (pos (branch_of tag q)) as [r c] eqn:E. simpl.
  case_bool_decide; [done|].
  rewrite bool_decide_eq_true_2; [done|].
  destruct tag; simpl in E; rewrite E; auto.
Qed.

(** ** What a collapse changes *)

Lemma same_branches_refl qs : same_branches qs qs.
Proof.
  induction qs as [|q qs IH]; constructor; [|done].
  exists (collapsed_result q). by destruct q.
Qed.

Lemma same_branches_lookup qs qs' i q' :
  same_branches qs qs' -> qs' !! i = Some q' ->
  exists q, qs !! i = Some q
            /\ branch_a q' = branch_a q /\ branch_b q' = branch_b q
            /\ parent q' = parent q.
Proof.
  intros H Hq'. destruct (Forall2_lookup_r _ _ _ _ _ H Hq')
    as (q & Hq & r & ->).
  exists q. done.
Qed.

Lemma read_outcomes_same_branches bits qid qs rm qs' rm' :
  read_outcomes bits qid qs rm = Some (qs', rm') ->
  same_branches qs qs' /\ Forall (fun q => collapsed_result q <> None) qs'.
Proof.
  revert qid rm qs' rm'.
  induction qs as [|q rest IH]; intros qid rm qs' rm' H; simpl in H.
  - inversion H. split; constructor.
  - destruct (bits !! qubit_index q) as [bit|]; simpl in H; [|done].
    destruct (read_outcomes _ _ rest _) as [[rest' rm'']|] eqn:E; simpl in H;
      [|done].
    inversion H; subst. destruct (IH _ _ _ _ E) as [Hs Hc].
    split; constructor; eauto.
Qed.

Lemma collapse_effect oracle s calls rm s' calls' :
  collapse oracle s calls = Some (rm, s', calls') ->
  measured s' = true
  /\ same_branches (split_qubits s) (split_qubits s')
  /\ (calls <= calls' <= S calls)%nat
  /\ (measured s = true -> s' = s /\ calls' = calls).
Proof.
  unfold collapse. destruct (measured s) eqn:Hm.
  - intros H; inversion H; subst. split; [done|].
    split; [apply same_branches_refl|]. split; [lia|done].
  - destruct (read_outcomes _ _ _ _) as [[qs rm']|] eqn:E; simpl; [|done].
    intros H; inversion H; subst. simpl.
    apply read_outcomes_same_branches in E as [Hs _].
    split; [done|]. split; [done|]. split; [lia|done].
Qed.

Lemma subsystem_collapse_effect oracle sid g g' :
  subsystem_collapse oracle sid g = Some (tt, g') ->
  exists s s',
    subsystems (split_manager g) !! sid = Some s
    /\ subsystems (split_manager g') = <[sid := s']> (subsystems (split_manager g))
    /\ global_position_map (split_manager g')
       = global_position_map (split_manager g)
    /\ board g' = board g
    /\ measured s' = true
    /\ same_branches (split_qubits s) (split_qubits s')
    /\ (oracle_calls g <= oracle_calls g' <= S (oracle_calls g))%nat.
Proof.
  unfold subsystem_collapse, bind, get_game, lift, put_game.
  destruct (subsystems (split_manager g) !! sid) as [s|] eqn:Hs; [|done].
  destruct (collapse oracle s (oracle_calls g)) as [[[rm s'] calls']|] eqn:Hc;
    [|done].
  intros H; inversion H; subst. simpl.
  apply collapse_effect in Hc as (Hm & Hb & Hcalls & _).
  exists s, s'. done.
Qed.

Lemma lookup_qubit_after_collapse oracle sid g g' qid q :
  subsystem_collapse oracle sid g = Some (tt, g') ->
  lookup_qubit (split_manager g) (sid, qid) = Some q ->
  exists q' s',
    lookup_qubit (split_manager g') (sid, qid) = Some q'
    /\ subsystems (split_manager g') !! sid = Some s'
    /\ measured s' = true
    /\ branch_a q' = branch_a q /\ branch_b q' = branch_b q.
Proof.
  intros Hc Hq.
  apply subsystem_collapse_effect in Hc
    as (s & s' & Hs & Hsubs & _ & _ & Hm & Hb & _).
  unfold lookup_qubit in *. simpl in *. rewrite Hs in Hq. simpl in Hq.
  destruct (Forall2_lookup_l _ _ _ _ _ Hb Hq) as (q' & Hq' & r & ->).
  exists (set_collapsed q r), s'.
  rewrite Hsubs.
  rewrite list_lookup_insert_eq by (by eapply lookup_lt_Some).
  simpl. done.
Qed.

(** ** Folding a collapse into the board and the index *)

Lemma lookup_without_qubit (idx : gmap Pos (nat * nat * BranchTag)) qubit p :
  without_qubit idx qubit !! p
  = match idx !! p with
    | Some (sub, qid, tag) =>
        if bool_decide ((sub, qid) = qubit) then None
        else Some (sub, qid, tag)
    | None => None
    end.
Proof.
  unfold without_qubit.
  destruct (idx !! p) as [[[sub qid] tag]|] eqn:E.
  - case_bool_decide as Hq.
    + apply map_lookup_filter_None. right. intros x Hx.
      rewrite E in Hx. inversion Hx; subst x. simpl. tauto.
    + apply map_lookup_filter_Some. done.
  - apply map_lookup_filter_None. by left.
Qed.

Section Fold.

Variable oracle : nat -> Circuit -> list bool.

Lemma apply_to_board_measured sid qubit g s q :
  subsystems (split_manager g) !! sid = Some s -> measured s = true ->
  lookup_qubit (split_manager g) qubit = Some q ->
  wf_board (board g) -> qubit_on_board q ->
  apply_to_board oracle sid (Some qubit) g
  = Some (tt, set_board g (fold_qubit (board g) q)).
Proof.
  intros Hs Hm Hq Hwf Hon. unfold apply_to_board.
  rewrite (bind_Some _ _ g g g eq_refl).
  unfold bind at 1. unfold lift at 1. rewrite Hs, Hm. simpl negb. cbv iota.
  unfold bind at 1. unfold ret at 1.
  rewrite (bind_Some _ _ g g g eq_refl).
  unfold bind at 1. unfold lift at 1. rewrite Hq. simpl.
  unfold bind, lift. rewrite apply_qubit_fold by done. done.
Qed.

Lemma apply_measured_target qubit q :
  forall sids g l g',
    lookup_qubit (split_manager g) qubit = Some q ->
    wf_board (board g) -> qubit_on_board q ->
    apply_measured oracle sids (Some qubit) g = Some (l, g') ->
    g' = set_board g (if existsb (measured_at (split_manager g)) sids
                      then fold_qubit (board g) q else board g)
    /\ l = flat_map (fun sid => if measured_at (split_manager g) sid
                                then positions_of (split_manager g) sid
                                                  (Some qubit)
                                else []) sids.
Proof.
  induction sids as [|sid sids IH]; intros g l g' Hq Hwf Hon H; simpl in H.
  - inversion H; subst. simpl. by rewrite set_board_same.
  - rewrite (bind_Some _ _ g g g eq_refl) in H.
    apply bind_inv in H as (s & ga & Hs & H). unfold lift in Hs.
    destruct (subsystems (split_manager g) !! sid) as [s0|] eqn:Es; [|done].
    inversion Hs; subst s0 ga. clear Hs.
    apply bind_inv in H as (here & g1 & Hhere & H).
    apply bind_inv in H as (more & g2 & Hmore & H).
    inversion H; subst l g2. clear H.
    simpl existsb. simpl flat_map. unfold measured_at at 1 3. rewrite Es.
    destruct (measured s) eqn:Hm.
    + rewrite (bind_Some _ _ _ _ _
                 (apply_to_board_measured sid qubit g s q Es Hm Hq Hwf Hon))
        in Hhere.
      unfold bind, get_game, ret in Hhere. inversion Hhere; subst here g1.
      clear Hhere.
      apply IH in Hmore as [Hg' Hl];
        [|exact Hq|simpl; by apply wf_fold_qubit|exact Hon].
      simpl in Hg', Hl. split.
      * rewrite Hg'. simpl. rewrite fold_qubit_idempotent by done.
        by destruct (existsb _ sids).
      * by rewrite Hl.
    + inversion Hhere; subst here g1. clear Hhere.
      apply IH in Hmore as [Hg' Hl]; [|exact Hq|exact Hwf|exact Hon].
      split; [done|]. by rewrite Hl.
Qed.

(** The positions deleted one after the other. *)
Lemma for_each_del_position (l : list Pos) :
  forall g g',
    for_each l del_position g = Some (tt, g') ->
    g' = set_split_manager g
           (mkManager (subsystems (split_manager g))
              (fold_left (fun idx p => delete p idx) l
                         (global_position_map (split_manager g)))).
Proof.
  induction l as [|p l IH]; intros g g' H; simpl in H.
  - inversion H; subst. simpl. by destruct g' as [? ? ? ? ? ? ? ? ? ? ? ? ? [] ?].
  - apply bind_inv in H as ([] & g1 & Hd & H).
    unfold del_position, bind, get_game, put_game, raise in Hd.
    destruct (global_position_map (split_manager g) !! p); [|done].
    inversion Hd; subst g1. clear Hd.
    apply IH in H. rewrite H. done.
Qed.

Lemma lookup_fold_delete (l : list Pos)
    (idx : gmap Pos (nat * nat * BranchTag)) (p : Pos) :
  fold_left (fun idx p => delete p idx) l idx !! p
  = if bool_decide (p ∈ l) then None else idx !! p.
Proof.
  revert idx. induction l as [|p' l IH]; intros idx; simpl.
  - done.
  - rewrite IH. destruct (decide (p = p')) as [->|Hne].
    + rewrite lookup_delete_eq.
      rewrite (bool_decide_eq_true_2 (p' ∈ p' :: l)) by (apply elem_of_cons; auto).
      by destruct (bool_decide (p' ∈ l)).
    + rewrite lookup_delete_ne by done.
      destruct (decide (p ∈ l)) as [Hin|Hin].
      * rewrite !bool_decide_eq_true_2; [done|apply elem_of_cons; auto|done].
      * rewrite !bool_decide_eq_false_2; [done| |done].
        rewrite elem_of_cons. tauto.
Qed.

Lemma elem_of_positions_of m sid qubit p :
  p ∈ positions_of m sid (Some qubit)
  <-> exists tag, global_position_map m !! p = Some (qubit.1, qubit.2, tag)
                  /\ qubit.1 = sid.
Proof.
  unfold positions_of. rewrite list_elem_of_omap. split.
  - intros ([p' [[sub qid] tag]] & Hin & H).
    apply elem_of_map_to_list in Hin.
    destruct (bool_decide (sub = sid)) eqn:E1; simpl in H; [|done].
    destruct (bool_decide ((sub, qid) = qubit)) eqn:E2; [|done].
    inversion H; subst p'.
    apply bool_decide_eq_true in E1, E2. subst. simpl. eauto.
  - intros (tag & Hp & Hs). exists (p, (qubit.1, qubit.2, tag)).
    split; [by apply elem_of_map_to_list|].
    rewrite !bool_decide_eq_true_2; [done|by destruct qubit|done].
Qed.

(** [apply_collapse_to_board(self.board, qubit)] for a qubit of a measured
    subsystem: the qubit is folded into the board and its entries leave the
    global position map; nothing else changes. *)
Lemma apply_collapse_to_board_target qubit q s g g' :
  lookup_qubit (split_manager g) qubit = Some q ->
  subsystems (split_manager g) !! qubit.1 = Some s -> measured s = true ->
  wf_board (board g) -> qubit_on_board q ->
  apply_collapse_to_board oracle (Some qubit) g = Some (tt, g') ->
  g' = set_split_manager
         (set_board g (fold_qubit (board g) q))
         (mkManager (subsystems (split_manager g))
            (without_qubit (global_position_map (split_manager g)) qubit)).
Proof.
  intros Hq Hs Hm Hwf Hon H. unfold apply_collapse_to_board in H.
  rewrite (bind_Some _ _ g g g eq_refl) in H.
  apply bind_inv in H as (l & g1 & Hl & H).
  apply (apply_measured_target qubit q) in Hl as [Hg1 Hl]; try done.
  assert (Hex : existsb (measured_at (split_manager g))
                  (seq 0 (length (subsystems (split_manager g)))) = true).
  { apply existsb_exists. exists qubit.1. split.
    - apply in_seq. apply lookup_lt_Some in Hs. lia.
    - unfold measured_at. by rewrite Hs. }
  rewrite Hex in Hg1. subst g1.
  apply for_each_del_position in H. rewrite H. simpl.
  f_equal. f_equal. apply map_eq. intros p.
  rewrite lookup_fold_delete, lookup_without_qubit.
  destruct (decide (p ∈ l)) as [Hin|Hin].
  - rewrite (bool_decide_eq_true_2 _ Hin).
    rewrite Hl in Hin. apply list_elem_of_In, in_flat_map in Hin
      as (sid & _ & Hin).
    destruct (measured_at (split_manager g) sid); [|by destruct Hin].
    apply list_elem_of_In, elem_of_positions_of in Hin as (tag & Hp & _).
    rewrite Hp. rewrite bool_decide_eq_true_2; [done|by destruct qubit].
  - rewrite (bool_decide_eq_false_2 _ Hin).
    destruct (global_position_map (split_manager g) !! p)
      as [[[sub qid] tag]|] eqn:Hp; [|done].
    case_bool_decide as Hqq; [|done]. exfalso. apply Hin.
    rewrite Hl. apply list_elem_of_In, in_flat_map. exists qubit.1. split.
    + apply in_seq. apply lookup_lt_Some in Hs. lia.
    + unfold measured_at. rewrite Hs, Hm.
      apply list_elem_of_In, elem_of_positions_of. exists tag.
      subst qubit. done.
Qed.

End Fold.

(** ** Forced collapse of the qubit on a square *)

Section ForcedCollapse.

Variable oracle : nat -> Circuit -> list bool.

Lemma qubit_on_board_same q q1 :
  branch_a q1 = branch_a q -> branch_b q1 = branch_b q ->
  qubit_on_board q -> qubit_on_board q1.
Proof. unfold qubit_on_board. by intros -> ->. Qed.

(** The subsystem collapses, then the qubit is folded. *)
Lemma collapse_then_fold g sid qid q gc g1 :
  wf_board (board g) ->
  lookup_qubit (split_manager g) (sid, qid) = Some q ->
  qubit_on_board q ->
  subsystem_collapse oracle sid g = Some (tt, gc) ->
  apply_collapse_to_board oracle (Some (sid, qid)) gc = Some (tt, g1) ->
  exists q1,
    lookup_qubit (split_manager gc) (sid, qid) = Some q1
    /\ collapsed_and_folded g sid qid q q1 g1.
Proof.
  intros Hwf Hq Hon Hc Hf.
  destruct (lookup_qubit_after_collapse oracle sid g gc qid q Hc Hq)
    as (q1 & s1 & Hq1 & Hs1 & Hm1 & Ha & Hb).
  pose proof (same_record_subsystem_collapse oracle sid _ _ _ Hc) as Hrec.
  pose proof Hc as Hc'.
  apply subsystem_collapse_effect in Hc'
    as (s & s' & Hs & Hsubs & Hidx & Hboard & _ & _ & Hcalls).
  assert (Hrest : castling gc = castling g /\ check_cache gc = check_cache g
                  /\ game_over gc = game_over g).
  { unfold subsystem_collapse, bind, get_game, lift, put_game in Hc.
    rewrite Hs in Hc. destruct (collapse oracle s (oracle_calls g)); [|done].
    inversion Hc; subst. done. }
  destruct Hrest as (Hcast & Hcache & Hover).
  apply (apply_collapse_to_board_target oracle (sid, qid) q1 s1) in Hf;
    try done.
  2:{ by rewrite Hboard. }
  2:{ by apply (qubit_on_board_same q). }
  exists q1. split; [done|]. subst g1. unfold collapsed_and_folded. simpl.
  split; [eauto|]. split; [done|]. split; [done|]. split; [done|].
  split; [done|]. split; [by rewrite Hboard|]. split; [by rewrite Hidx|].
  split; [|done].
  destruct Hrec as (A1 & A2 & A3 & A4 & A5 & A6 & A7 & A8).
  by repeat split.
Qed.

(** What [collapsed_and_folded] says about the square of a branch. *)
Lemma collapsed_and_folded_square g sid qid q q1 g1 tag p :
  wf_board (board g) -> qubit_on_board q ->
  global_position_map (split_manager g) !! p = Some (sid, qid, tag) ->
  pos (branch_of tag q) = p ->
  collapsed_and_folded g sid qid q q1 g1 ->
  wf_board (board g1)
  /\ global_position_map (split_manager g1) !! p = None
  /\ cell (board g1) p.1 p.2
     = if bool_decide (pos (real_branch q1) = p)
       then Some (piece_type (real_branch q1)) else None.
Proof.
  intros Hwf Hon Hidx Hp (_ & _ & Ha & Hb & _ & Hboard & Hidx1 & _).
  pose proof (qubit_on_board_same q q1 Ha Hb Hon) as Hon1.
  assert (Hp1 : pos (branch_of tag q1) = p).
  { rewrite <- Hp. destruct tag; simpl; congruence. }
  split; [rewrite Hboard; by apply wf_fold_qubit|]. split.
  - rewrite Hidx1, lookup_without_qubit, Hidx.
    by rewrite bool_decide_eq_true_2.
  - rewrite Hboard, <- Hp1. rewrite cell_fold_qubit_branch by done.
    repeat case_bool_decide; congruence.
Qed.


End ForcedCollapse.

(** ** A move onto a live branch *)


Lemma pc_get_set_ne {A} (p : PerColor A) c c' x :
  c <> c' -> pc_get (pc_set p c x) c' = pc_get p c'.
Proof. by destruct c, c'. Qed.

Section LiveBranch.

Variable oracle : nat -> Circuit -> list bool.

Lemma pass_turn_record g g' :
  pass_turn oracle g = Some (tt, g') ->
  turn g' = opponent_of (turn g) /\ captured g' = captured g
  /\ history g' = history g /\ split_mode g' = split_mode g.
Proof.
  unfold pass_turn. intros H.
  apply bind_inv in H as ([] & g1 & H1 & H). inversion H1; subst g1.
  apply bind_inv in H as ([] & g2 & H2 & H). inversion H2; subst g2.
  apply same_record_evaluate_end in H
    as (A1 & A2 & A3 & A4 & A5 & A6 & A7 & A8).
  by repeat split.
Qed.


End LiveBranch.


(** ** The board stays an 8x8 grid *)

Lemma wf_board_put b r c x b' :
  wf_board b -> board_put b r c x = Some b' -> wf_board b'.
Proof.
  intros Hwf H. pose proof (wf_board_set b r c x Hwf) as Hset.
  unfold board_set in Hset. by rewrite H in Hset.
Qed.

Lemma keeps_board_shape_refl g : keeps_board_shape g g.
Proof. by intros H. Qed.

Lemma keeps_board_shape_trans g1 g2 g3 :
  keeps_board_shape g1 g2 -> keeps_board_shape g2 g3 ->
  keeps_board_shape g1 g3.
Proof. unfold keeps_board_shape. auto. Qed.

Lemma keeps_board_shape_put g r c x b :
  board_put (board g) r c x = Some b -> keeps_board_shape g (set_board g b).
Proof. intros H Hwf. simpl. by eapply wf_board_put. Qed.

Lemma keeps_board_shape_same g g' :
  board g' = board g -> keeps_board_shape g g'.
Proof. intros H Hwf. by rewrite H. Qed.

Section BoardShape.

Variable oracle : nat -> Circuit -> list bool.

Lemma wf_write_board r c x g g' :
  wf_board (board g) -> write_board r c x g = Some (tt, g') ->
  wf_board (board g').
Proof.
  intros Hwf H. revert Hwf. change (keeps_board_shape g g').
  revert H. apply keeps_write_board. apply keeps_board_shape_put.
Qed.

Lemma wf_collapse_qubit qubit g g' :
  wf_board (board g) -> collapse_qubit oracle qubit g = Some (tt, g') ->
  wf_board (board g').
Proof.
  intros Hwf H. revert Hwf. change (keeps_board_shape g g').
  revert H. apply keeps_collapse_qubit;
    [apply keeps_board_shape_refl|apply keeps_board_shape_trans
    |intros; by apply keeps_board_shape_same..].
Qed.

Lemma wf_apply_collapse_to_board target g g' :
  wf_board (board g) ->
  apply_collapse_to_board oracle target g = Some (tt, g') ->
  wf_board (board g').
Proof.
  intros Hwf H. revert Hwf. change (keeps_board_shape g g').
  revert H. apply keeps_apply_collapse_to_board;
    [apply keeps_board_shape_refl|apply keeps_board_shape_trans
    |apply keeps_board_shape_put|intros; by apply keeps_board_shape_same..].
Qed.

Lemma wf_evaluate_end g g' :
  wf_board (board g) -> evaluate_end oracle g = Some (tt, g') ->
  wf_board (board g').
Proof.
  intros Hwf H. revert Hwf. change (keeps_board_shape g g').
  revert H. apply keeps_evaluate_end;
    [apply keeps_board_shape_refl|apply keeps_board_shape_trans
    |apply keeps_board_shape_put|intros; by apply keeps_board_shape_same..].
Qed.

End BoardShape.

(** ** Queries that leave the position alone *)

Lemma only_castling_refl g : only_castling g g.
Proof. exists (castling g). by destruct g. Qed.

Lemma only_castling_trans g1 g2 g3 :
  only_castling g1 g2 -> only_castling g2 g3 -> only_castling g1 g3.
Proof. intros [c1 ->] [c2 ->]. by exists c2. Qed.

Lemma only_castling_board g g' : only_castling g g' -> board g' = board g.
Proof. by intros [cs ->]. Qed.

Lemma quiet_ret {A} (x : A) : quiet (ret x).
Proof. intros g y g' _ H. inversion H; subst. apply only_castling_refl. Qed.

Lemma quiet_get : quiet get_game.
Proof. intros g y g' _ H. inversion H; subst. apply only_castling_refl. Qed.

Lemma quiet_lift {A} (o : option A) : quiet (lift o).
Proof.
  intros g y g' _ H. unfold lift in H. destruct o; [|done].
  inversion H; subst. apply only_castling_refl.
Qed.

Lemma quiet_bind {A B} (m : M A) (k : A -> M B) :
  quiet m -> (forall x, quiet (k x)) -> quiet (x <- m ;; k x).
Proof.
  intros Hm Hk g y g' Hwf H. apply bind_inv in H as (x & g1 & H1 & H2).
  pose proof (Hm _ _ _ Hwf H1) as R1.
  eapply only_castling_trans; [exact R1|].
  eapply Hk; [|exact H2]. by rewrite (only_castling_board _ _ R1).
Qed.

Lemma quiet_read_board r c : quiet (read_board r c).
Proof.
  unfold read_board. apply quiet_bind; [apply quiet_get|].
  intros g. apply quiet_lift.
Qed.

Lemma quiet_modify (f : Game -> Game) :
  (forall g, only_castling g (f g)) -> quiet (modify f).
Proof. intros Hf g y g' _ H. inversion H; subst. apply Hf. Qed.

Section Quiet.

Variable oracle : nat -> Circuit -> list bool.

Ltac quiet_step :=
  match goal with
  | |- quiet (ret _) => apply quiet_ret
  | |- quiet get_game => apply quiet_get
  | |- quiet (lift _) => apply quiet_lift
  | |- quiet (read_board _ _) => apply quiet_read_board
  | |- quiet (modify _) => apply quiet_modify; intros ?; by eexists
  | |- quiet (bind _ _) => apply quiet_bind; [|intros ?]
  | |- quiet (if ?b then _ else _) => destruct b
  | |- quiet (match ?x with _ => _ end) => destruct x
  end.

Lemma quiet_is_legal_move fr fc tr tc : quiet (is_legal_move oracle fr fc tr tc).
Proof.
  intros g legal g' Hwf H. apply is_legal_move_frame in H; [|done].
  subst. apply only_castling_refl.
Qed.

Lemma quiet_is_in_check_simple color : quiet (is_in_check oracle color true).
Proof.
  intros g res g' _ H. rewrite is_in_check_simple_eq in H.
  inversion H; subst. apply only_castling_refl.
Qed.

Lemma quiet_square_empty r c : quiet (square_empty r c).
Proof. unfold square_empty. repeat quiet_step. Qed.

Lemma quiet_can_castle row col : quiet (can_castle oracle row col).
Proof.
  unfold can_castle, castle_king_side, castle_queen_side.
  repeat quiet_step;
    try apply quiet_is_in_check_simple; apply quiet_square_empty.
Qed.

Lemma quiet_get_king_moves row col simple :
  quiet (get_king_moves oracle row col simple).
Proof. unfold get_king_moves. repeat quiet_step. apply quiet_can_castle. Qed.

Lemma quiet_filter_legal row col moves :
  quiet (filter_legal oracle row col moves).
Proof.
  induction moves as [|[r c] moves IH]; simpl.
  - apply quiet_ret.
  - repeat quiet_step; [apply quiet_is_legal_move|exact IH].
Qed.

Lemma quiet_get_valid_moves col row simple :
  quiet (get_valid_moves oracle col row simple).
Proof.
  unfold get_valid_moves.
  repeat quiet_step; try apply quiet_get_king_moves; apply quiet_filter_legal.
Qed.

Lemma quiet_some_legal row col moves :
  quiet (some_legal oracle row col moves).
Proof.
  induction moves as [|[r c] moves IH]; simpl.
  - apply quiet_ret.
  - repeat quiet_step; [apply quiet_is_legal_move|exact IH].
Qed.

Lemma quiet_has_legal_move color squares :
  quiet (has_legal_move oracle color squares).
Proof.
  induction squares as [|[row col] squares IH]; simpl.
  - apply quiet_ret.
  - repeat quiet_step;
      try apply quiet_get_valid_moves; try apply quiet_some_legal; exact IH.
Qed.

End Quiet.

(** ** Split moves *)


Section SplitMove.

Variable oracle : nat -> Circuit -> list bool.







Lemma is_in_check_clear g color :
  pc_get (check_cache g) color = None ->
  (forall king_pos, find_king (board g) color = Some king_pos ->
     is_square_attacked g king_pos.1 king_pos.2 color false = false) ->
  exists g1, is_in_check oracle color false g = Some (false, g1)
             /\ (g1 = g \/ g1 = set_cached color false g).
Proof.
  intros Hc Hk. unfold is_in_check. rewrite (bind_Some _ _ g g g eq_refl).
  cbn [negb]. rewrite Hc.
  destruct (find_king (board g) color) as [king_pos|]; [|by eauto].
  rewrite (Hk king_pos eq_refl). cbn [andb]. eauto.
Qed.

Lemma is_in_check_cached g color v :
  pc_get (check_cache g) color = Some v ->
  is_in_check oracle color false g = Some (v, g).
Proof.
  intros Hc. unfold is_in_check. rewrite (bind_Some _ _ g g g eq_refl).
  cbn [negb]. by rewrite Hc.
Qed.

Lemma pc_get_set_cached g color v :
  pc_get (check_cache (set_cached color v g)) color = Some v.
Proof. unfold set_cached. simpl. by destruct color. Qed.

(** With nothing cached and the side to move not in check, the evaluation
    of the end of the game leaves the board and the split manager alone. *)
Lemma evaluate_end_no_check g g' :
  wf_board (board g) ->
  pc_get (check_cache g) (turn g) = None ->
  in_check_now g = false ->
  evaluate_end oracle g = Some (tt, g') ->
  board g' = board g /\ split_manager g' = split_manager g.
Proof.
  intros Hwf Hc Hnow H.
  assert (forall king_pos, find_king (board g) (turn g) = Some king_pos ->
            is_square_attacked g king_pos.1 king_pos.2 (turn g) false = false)
    as Hk.
  { intros king_pos E. unfold in_check_now in Hnow. by rewrite E in Hnow. }
  destruct (is_in_check_clear g (turn g) Hc Hk) as (g1 & H1 & Hg1).
  assert (board g1 = board g /\ split_manager g1 = split_manager g
          /\ turn g1 = turn g) as (Hb1 & Hm1 & Ht1)
    by (destruct Hg1 as [->| ->]; done).
  assert (is_in_check oracle (turn g) false g1 = Some (false, g1)) as H2.
  { destruct Hg1 as [->| ->].
    - destruct (is_in_check_clear g (turn g) Hc Hk) as (g2 & H2 & Hg2).
      revert H2. unfold is_in_check. rewrite (bind_Some _ _ g g g eq_refl).
      cbn [negb]. rewrite Hc. revert H1. unfold is_in_check.
      rewrite (bind_Some _ _ g g g eq_refl). cbn [negb]. rewrite Hc.
      destruct (find_king (board g) (turn g)) as [king_pos|]; [|done].
      rewrite (Hk king_pos eq_refl). cbn [andb]. intros E. inversion E.
      by destruct g, check_cache, turn.
    - apply is_in_check_cached, pc_get_set_cached. }
  unfold evaluate_end in H.
  apply bind_inv in H as (g0 & ga & Hg & H). inversion Hg; subst g0 ga.
  apply bind_inv in H as (mate & ga & Hmate & H).
  unfold is_checkmate in Hmate. rewrite (bind_Some _ _ _ _ _ H1) in Hmate.
  cbn [negb] in Hmate. inversion Hmate; subst mate ga.
  apply bind_inv in H as (g0 & ga & Hg' & H). inversion Hg'; subst g0 ga.
  rewrite Ht1 in H.
  apply bind_inv in H as (stale & g3 & Hs & H).
  assert (board g3 = board g1 /\ split_manager g3 = split_manager g1)
    as [Hb3 Hm3].
  { unfold is_stalemate in Hs. rewrite (bind_Some _ _ _ _ _ H2) in Hs.
    apply bind_inv in Hs as (found & g4 & Hf & Hs). inversion Hs; subst.
    apply quiet_has_legal_move in Hf as [cs ->]; [done|].
    by rewrite Hb1. }
  destruct stale; inversion H; subst; simpl; split; congruence.
Qed.


Lemma update_game_state_effect from_row from_col to_row to_col piece
    target_piece g :
  let g4 := update_game_state from_row from_col to_row to_col piece
              target_piece g in
  board g4 = board g /\ split_manager g4 = split_manager g
  /\ split_mode g4 = false
  /\ check_cache g4 = mkPerColor None None
  /\ turn g4 = opponent_of (turn g).
Proof.
  unfold update_game_state.
  destruct (bool_decide (pkind piece = Pawn) && _);
    destruct (bool_decide (pkind piece = King));
    destruct (bool_decide (pkind piece = Rook));
    destruct (from_col =? 0); destruct (from_col =? 7); done.
Qed.


End SplitMove.

(** ** Splits made by [make_move] *)





Section Unindexed.

Variable oracle : nat -> Circuit -> list bool.




(** On a measured subsystem [apply_to_board] writes to the board only. *)
Lemma apply_to_board_manager sid target g s g' :
  subsystems (split_manager g) !! sid = Some s -> measured s = true ->
  apply_to_board oracle sid target g = Some (tt, g') ->
  split_manager g' = split_manager g.
Proof.
  intros Hs Hm H. unfold apply_to_board in H.
  rewrite (bind_Some _ _ g g g eq_refl) in H.
  apply bind_inv in H as (s0 & ga & Hl & H). unfold lift in Hl.
  rewrite Hs in Hl. inversion Hl; subst s0 ga. rewrite Hm in H.
  cbn [negb] in H.
  apply bind_inv in H as ([] & ga & Hr & H). inversion Hr; subst ga.
  rewrite (bind_Some _ _ g g g eq_refl) in H.
  apply bind_inv in H as (qs & ga & Hq & H). unfold lift in Hq.
  destruct (match target with Some _ => _ | None => _ end); [|done].
  inversion Hq; subst ga.
  apply bind_inv in H as (b & ga & Hb & H). unfold lift in Hb.
  destruct (apply_qubits _ _); [|done]. inversion Hb; subst ga.
  by inversion H.
Qed.

Lemma apply_measured_manager target :
  forall sids g l g',
    apply_measured oracle sids target g = Some (l, g') ->
    split_manager g' = split_manager g
    /\ l = flat_map (fun sid => if measured_at (split_manager g) sid
                                then positions_of (split_manager g) sid target
                                else []) sids.
Proof.
  induction sids as [|sid sids IH]; intros g l g' H; simpl in H.
  - by inversion H.
  - rewrite (bind_Some _ _ g g g eq_refl) in H.
    apply bind_inv in H as (s & ga & Hs & H). unfold lift in Hs.
    destruct (subsystems (split_manager g) !! sid) as [s0|] eqn:Es; [|done].
    inversion Hs; subst s0 ga.
    apply bind_inv in H as (here & g1 & Hhere & H).
    apply bind_inv in H as (more & g2 & Hmore & H). inversion H; subst.
    apply IH in Hmore as [Hm2 ->].
    cbn [flat_map]. unfold measured_at at 2. rewrite Es.
    destruct (measured s) eqn:Em.
    + apply bind_inv in Hhere as ([] & ga & Ha & Hhere).
      inversion Hhere; subst.
      apply (apply_to_board_manager _ _ _ s) in Ha; [|done..].
      rewrite Hm2, Ha. done.
    + inversion Hhere; subst. done.
Qed.



End Unindexed.

Section SplitByMakeMove.

Variable oracle : nat -> Circuit -> list bool.

Ltac shape_frame :=
  first [by apply keeps_board_shape_refl | by apply keeps_board_shape_put
        | (intros; by apply keeps_board_shape_same)
        | apply keeps_board_shape_trans].




End SplitByMakeMove.



(** * Invariants of [make_move] *)

Lemma never_moved_shrinks_refl g : never_moved_shrinks g g.
Proof. by intros color. Qed.

Lemma never_moved_shrinks_trans g1 g2 g3 :
  never_moved_shrinks g1 g2 -> never_moved_shrinks g2 g3 ->
  never_moved_shrinks g1 g3.
Proof.
  intros H1 H2 color. destruct (H1 color), (H2 color). split; auto.
Qed.

Lemma never_moved_shrinks_same g g' :
  castling g' = castling g -> never_moved_shrinks g g'.
Proof. intros H color. by rewrite H. Qed.

Lemma never_moved_shrinks_flags g k q :
  never_moved_shrinks g (set_castle_flags k q g).
Proof.
  intros color. unfold set_castle_flags, rights. simpl.
  destruct (turn g), color; simpl; done.
Qed.

Lemma never_moved_shrinks_clear g king_side queen_side :
  never_moved_shrinks g (clear_never_moved king_side queen_side g).
Proof.
  intros color. unfold clear_never_moved. simpl.
  destruct (turn g), color, king_side, queen_side; simpl; done.
Qed.

Lemma never_moved_shrinks_update g fr fc tr tc piece target :
  never_moved_shrinks g (update_game_state fr fc tr tc piece target g).
Proof.
  unfold update_game_state, clear_never_moved. intros color.
  destruct (bool_decide (pkind piece = Pawn) && _);
    destruct (bool_decide (pkind piece = King));
    destruct (bool_decide (pkind piece = Rook));
    destruct (fc =? 0); destruct (fc =? 7); simpl;
    destruct (turn g), color; simpl; done.
Qed.

Lemma record_grows_refl g : record_grows g g.
Proof. split; done. Qed.

Lemma record_grows_trans g1 g2 g3 :
  record_grows g1 g2 -> record_grows g2 g3 -> record_grows g1 g3.
Proof.
  intros [A1 A2] [B1 B2]. split.
  - intros color. etrans; [apply A1|apply B1].
  - etrans; [apply A2|apply B2].
Qed.

Lemma record_grows_same g g' :
  captured g' = captured g -> history g' = history g -> record_grows g g'.
Proof. intros H1 H2. split; [intros color|]; by rewrite ?H1, ?H2. Qed.

Lemma record_grows_capture g x : record_grows g (record_capture x g).
Proof.
  split; [|done]. intros color. unfold record_capture. simpl.
  destruct (turn g), color; simpl; try done; by apply prefix_app_r.
Qed.

Lemma record_grows_update g fr fc tr tc piece target :
  record_grows g (update_game_state fr fc tr tc piece target g).
Proof.
  unfold update_game_state, clear_never_moved.
  destruct (bool_decide (pkind piece = Pawn) && _);
    destruct (bool_decide (pkind piece = King));
    destruct (bool_decide (pkind piece = Rook));
    destruct (fc =? 0); destruct (fc =? 7);
    (split; [done|by apply prefix_app_r]).
Qed.

Lemma update_game_state_board fr fc tr tc piece target g :
  board (update_game_state fr fc tr tc piece target g) = board g.
Proof.
  by destruct (update_game_state_effect fr fc tr tc piece target g) as [H _].
Qed.

Section MakeMoveInvariants.

Variable oracle : nat -> Circuit -> list bool.

Ltac shape_frame :=
  first [by apply keeps_board_shape_refl | by apply keeps_board_shape_put
        | (intros; by apply keeps_board_shape_same)
        | (intros; apply keeps_board_shape_same;
           by apply update_game_state_board)
        | apply keeps_board_shape_trans].

(** No call of [make_move] changes the shape of the board: an 8x8 grid
    stays an 8x8 grid, whatever the arguments (indices Python accepts from
    the end of a row included). *)
Theorem make_move_board_shape (g : Game) (from_row from_col to_row to_col : Z)
    (g' : Game) :
  wf_board (board g) ->
  make_move oracle from_row from_col to_row to_col g = Some (tt, g') ->
  wf_board (board g').
Proof.
  intros Hwf H. revert Hwf. change (keeps_board_shape g g'). revert H.
  apply keeps_make_move; shape_frame.
Qed.

Ltac rights_frame :=
  first [by apply never_moved_shrinks_refl
        | by apply never_moved_shrinks_flags
        | by apply never_moved_shrinks_update
        | (intros; by apply never_moved_shrinks_same)
        | apply never_moved_shrinks_trans].

(** [make_move] never gives a castling right back: a never-moved flag that
    is set after the call was set before it, for both colours and on every
    path through the method. *)
Theorem make_move_never_moved (g : Game) (from_row from_col to_row to_col : Z)
    (g' : Game) :
  make_move oracle from_row from_col to_row to_col g = Some (tt, g') ->
  never_moved_shrinks g g'.
Proof. apply keeps_make_move; rights_frame. Qed.

Ltac record_frame :=
  first [by apply record_grows_refl
        | by apply record_grows_capture
        | by apply record_grows_update
        | (intros; by apply record_grows_same)
        | apply record_grows_trans].

(** [make_move] only appends to the capture lists and to the history:
    what was recorded before the call is a prefix of what is recorded after
    it. *)
Theorem make_move_record_grows (g : Game)
    (from_row from_col to_row to_col : Z) (g' : Game) :
  make_move oracle from_row from_col to_row to_col g = Some (tt, g') ->
  record_grows g g'.
Proof. apply keeps_make_move; record_frame. Qed.

End MakeMoveInvariants.

(** ** The oracle and the measured subsystems *)

Lemma measured_count_insert (subs : list QuantumSubsystem) sid s s' :
  subs !! sid = Some s ->
  (sum_list_with (fun s => if measured s then 1 else 0) (<[sid := s']> subs)
   + (if measured s then 1 else 0)
   = sum_list_with (fun s => if measured s then 1 else 0) subs
     + (if measured s' then 1 else 0))%nat.
Proof.
  revert sid. induction subs as [|x subs IH]; intros sid H; [done|].
  destruct sid as [|sid]; simpl in *.
  - inversion H; subst. lia.
  - specialize (IH _ H). lia.
Qed.

Lemma runs_match_measured_refl g : runs_match_measured g g.
Proof. unfold runs_match_measured. lia. Qed.

Lemma runs_match_measured_trans g1 g2 g3 :
  runs_match_measured g1 g2 -> runs_match_measured g2 g3 ->
  runs_match_measured g1 g3.
Proof. unfold runs_match_measured. lia. Qed.

Lemma runs_match_measured_same g g' :
  subsystems (split_manager g') = subsystems (split_manager g) ->
  oracle_calls g' = oracle_calls g ->
  runs_match_measured g g'.
Proof.
  unfold runs_match_measured, measured_count. intros -> ->. lia.
Qed.

Lemma runs_match_measured_collapse oracle g sid s rm s' calls' :
  subsystems (split_manager g) !! sid = Some s ->
  collapse oracle s (oracle_calls g) = Some (rm, s', calls') ->
  runs_match_measured g
    (set_oracle_calls
       (set_split_manager g (set_subsystem (split_manager g) sid s'))
       calls').
Proof.
  intros Hs Hc. unfold runs_match_measured, measured_count. simpl.
  pose proof (measured_count_insert _ _ _ s' Hs) as Hcount.
  unfold collapse in Hc. destruct (measured s) eqn:Hm.
  - inversion Hc; subst. rewrite Hm in Hcount. lia.
  - destruct (read_outcomes _ _ _ _) as [[qs rm']|]; simpl in Hc; [|done].
    inversion Hc; subst. simpl in Hcount. lia.
Qed.

Lemma measured_add_split_qubit s br_a br_b parent_qubit parent_br qid s' :
  add_split_qubit s br_a br_b parent_qubit parent_br = Some (qid, s') ->
  measured s' = measured s.
Proof.
  unfold add_split_qubit. destruct parent_qubit as [pid|]; simpl.
  - destruct (split_qubits s !! pid); simpl; [|done].
    by intros H; inversion H.
  - by intros H; inversion H.
Qed.

Lemma runs_match_measured_create g from_pos to_pos piece sid qid m :
  create_split_qubit (split_manager g) from_pos to_pos piece
  = Some (sid, qid, m) ->
  runs_match_measured g (set_split_manager g m).
Proof.
  intros H. unfold runs_match_measured, measured_count. simpl.
  unfold create_split_qubit in H.
  destruct (global_position_map (split_manager g) !! from_pos)
    as [[[psid pq] pb]|].
  - destruct (subsystems (split_manager g) !! psid) as [s|] eqn:Hs;
      simpl in H; [|done].
    destruct (add_split_qubit _ _ _ _ _) as [[qid' s']|] eqn:Ha;
      simpl in H; [|done].
    inversion H; subst. simpl.
    apply measured_add_split_qubit in Ha.
    pose proof (measured_count_insert _ _ _ s' Hs) as Hcount.
    rewrite Ha in Hcount. lia.
  - simpl in H. inversion H; subst. simpl.
    rewrite insert_app_r_alt by done. rewrite Nat.sub_diag. simpl.
    rewrite !sum_list_with_app. simpl. lia.
Qed.

Section OracleRuns.

Variable oracle : nat -> Circuit -> list bool.

Ltac runs_frame :=
  first [by apply runs_match_measured_refl
        | (intros; by eapply runs_match_measured_collapse)
        | (intros; by eapply runs_match_measured_create)
        | (intros; by apply runs_match_measured_same)
        | (intros; apply runs_match_measured_same;
           unfold update_game_state, clear_never_moved;
           by repeat match goal with
                     | |- context [if ?b then _ else _] => destruct b
                     end)
        | apply runs_match_measured_trans].

(** Over a call of [make_move] the oracle runs exactly once for every
    subsystem that becomes measured: the number of runs and the number of
    measured subsystems grow together. *)
Theorem make_move_oracle_runs (g : Game) (from_row from_col to_row to_col : Z)
    (g' : Game) :
  make_move oracle from_row from_col to_row to_col g = Some (tt, g') ->
  runs_match_measured g g'.
Proof. apply keeps_make_move; runs_frame. Qed.

End OracleRuns.

(** ** The index and the qubits it names *)

(** A collapse keeps every qubit in its place, with the branches it had. *)
Lemma lookup_qubit_set_subsystem m sid s s' qubit :
  subsystems m !! sid = Some s ->
  same_branches (split_qubits s) (split_qubits s') ->
  (forall q, lookup_qubit m qubit = Some q ->
     exists q', lookup_qubit (set_subsystem m sid s') qubit = Some q'
                /\ branch_a q' = branch_a q /\ branch_b q' = branch_b q)
  /\ (forall q', lookup_qubit (set_subsystem m sid s') qubit = Some q' ->
        exists q, lookup_qubit m qubit = Some q
                  /\ branch_a q' = branch_a q /\ branch_b q' = branch_b q).
Proof.
  intros Hs Hb. destruct qubit as [sid0 qid0].
  unfold lookup_qubit, set_subsystem. simpl.
  pose proof (lookup_lt_Some _ _ _ Hs) as Hlt.
  destruct (decide (sid0 = sid)) as [->|Hne].
  - rewrite list_lookup_insert_eq by done. rewrite Hs. simpl. split.
    + intros q Hq.
      destruct (Forall2_lookup_l _ _ _ _ _ Hb Hq) as (q' & Hq' & r & ->).
      eauto.
    + intros q' Hq'.
      destruct (Forall2_lookup_r _ _ _ _ _ Hb Hq') as (q & Hq & r & ->).
      eauto.
  - rewrite list_lookup_insert_ne by done. split; eauto.
Qed.

Lemma add_child_branches p child :
  branch_a (add_child p child) = branch_a p
  /\ branch_b (add_child p child) = branch_b p.
Proof. done. Qed.

(** [create_split_qubit] keeps every qubit in its place, with the branches
    it had, and adds one qubit with the two squares as branches. *)
Lemma create_split_qubit_lookup m from_pos to_pos piece sid qid m' :
  create_split_qubit m from_pos to_pos piece = Some (sid, qid, m') ->
  global_position_map m'
  = <[to_pos := (sid, qid, BrB)]>
      (<[from_pos := (sid, qid, BrA)]> (global_position_map m))
  /\ (exists qn, lookup_qubit m' (sid, qid) = Some qn
                 /\ branch_a qn = mkBranch from_pos piece
                 /\ branch_b qn = mkBranch to_pos piece)
  /\ (forall qubit q, lookup_qubit m qubit = Some q ->
        exists q', lookup_qubit m' qubit = Some q'
                   /\ branch_a q' = branch_a q /\ branch_b q' = branch_b q)
  /\ (forall qubit q', lookup_qubit m' qubit = Some q' ->
        (branch_a q' = mkBranch from_pos piece
         /\ branch_b q' = mkBranch to_pos piece)
        \/ exists q, lookup_qubit m qubit = Some q
                     /\ branch_a q' = branch_a q /\ branch_b q' = branch_b q).
Proof.
  intros H. unfold create_split_qubit in H.
  destruct (global_position_map m !! from_pos) as [[[psid pq] pb]|] eqn:Hidx.
  - destruct (subsystems m !! psid) as [s|] eqn:Hs; simpl in H; [|done].
    unfold add_split_qubit in H.
    destruct (split_qubits s !! pq) as [p|] eqn:Hp; simpl in H; [|done].
    inversion H; subst; clear H. simpl.
    pose proof (lookup_lt_Some _ _ _ Hs) as Hlt.
    pose proof (lookup_lt_Some _ _ _ Hp) as Hlt'.
    split; [done|]. unfold lookup_qubit. simpl. split; [|split].
    + rewrite list_lookup_insert_eq by done. simpl.
      eexists. split; [apply list_lookup_middle; by rewrite length_insert|].
      done.
    + intros [sid0 qid0] q. simpl.
      destruct (decide (sid0 = sid)) as [->|Hne].
      * rewrite list_lookup_insert_eq by done. rewrite Hs. simpl. intros Hq.
        pose proof (lookup_lt_Some _ _ _ Hq) as Hlq.
        rewrite lookup_app_l by (by rewrite length_insert).
        destruct (decide (qid0 = pq)) as [->|Hnq].
        -- rewrite list_lookup_insert_eq by done.
           rewrite Hp in Hq. inversion Hq; subst. eauto.
        -- rewrite list_lookup_insert_ne by done. eauto.
      * rewrite list_lookup_insert_ne by done. eauto.
    + intros [sid0 qid0] q'. simpl.
      destruct (decide (sid0 = sid)) as [->|Hne].
      * rewrite list_lookup_insert_eq by done. rewrite Hs. simpl. intros Hq'.
        apply lookup_snoc_Some in Hq' as [[Hl Hq']|[_ <-]]; [|by left].
        rewrite length_insert in Hl. right.
        destruct (decide (qid0 = pq)) as [->|Hnq].
        -- rewrite list_lookup_insert_eq in Hq' by done.
           inversion Hq'; subst. eauto.
        -- rewrite list_lookup_insert_ne in Hq' by done. eauto.
      * rewrite list_lookup_insert_ne by done. eauto.
  - simpl in H. inversion H; subst; clear H. simpl.
    split; [done|]. unfold lookup_qubit. simpl.
    rewrite insert_app_r_alt by done. rewrite Nat.sub_diag. simpl.
    split; [|split].
    + rewrite list_lookup_middle by done. simpl. eauto.
    + intros [sid0 qid0] q. simpl. intros Hq.
      destruct (subsystems m !! sid0) as [s0|] eqn:Hs0; [|done].
      rewrite (lookup_app_l_Some _ _ _ _ Hs0). eauto.
    + intros [sid0 qid0] q'. simpl. intros Hq'.
      destruct ((subsystems m ++ _) !! sid0) as [s0|] eqn:Hs0; [|done].
      apply lookup_snoc_Some in Hs0 as [[_ Hs0]|[_ <-]].
      * right. rewrite Hs0. eauto.
      * left. simpl in Hq'. destruct qid0; [|done]. by inversion Hq'.
Qed.

Lemma manager_ok_create m from_pos to_pos piece sid qid m' :
  on_board from_pos.1 from_pos.2 = true ->
  on_board to_pos.1 to_pos.2 = true ->
  create_split_qubit m from_pos to_pos piece = Some (sid, qid, m') ->
  index_ok m /\ qubits_on_board m -> index_ok m' /\ qubits_on_board m'.
Proof.
  intros Hf Ht H [Hidx Hon].
  apply create_split_qubit_lookup in H
    as (Hmap & (qn & Hqn & Ha & Hb) & Hfwd & Hbwd).
  split.
  - intros p sid0 qid0 tag Hp. rewrite Hmap in Hp.
    destruct (decide (p = to_pos)) as [->|Hne1].
    { rewrite lookup_insert_eq in Hp. inversion Hp; subst.
      exists qn. simpl. by rewrite Hb. }
    rewrite lookup_insert_ne in Hp by done.
    destruct (decide (p = from_pos)) as [->|Hne2].
    { rewrite lookup_insert_eq in Hp. inversion Hp; subst.
      exists qn. simpl. by rewrite Ha. }
    rewrite lookup_insert_ne in Hp by done.
    destruct (Hidx _ _ _ _ Hp) as (q & Hq & Hpos).
    destruct (Hfwd _ _ Hq) as (q' & Hq' & Ha' & Hb').
    exists q'. split; [done|]. destruct tag; simpl in *; congruence.
  - intros qubit q' Hq'.
    destruct (Hbwd _ _ Hq') as [[Ha' Hb']|(q & Hq & Ha' & Hb')].
    + unfold qubit_on_board. by rewrite Ha', Hb'.
    + specialize (Hon _ _ Hq). unfold qubit_on_board in *.
      by rewrite Ha', Hb'.
Qed.

Lemma manager_ok_collapse oracle m sid s rm s' calls calls' :
  subsystems m !! sid = Some s ->
  collapse oracle s calls = Some (rm, s', calls') ->
  index_ok m /\ qubits_on_board m ->
  index_ok (set_subsystem m sid s') /\ qubits_on_board (set_subsystem m sid s').
Proof.
  intros Hs Hc [Hidx Hon].
  apply collapse_effect in Hc as (_ & Hb & _).
  split.
  - intros p sid0 qid0 tag Hp. simpl in Hp.
    destruct (Hidx _ _ _ _ Hp) as (q & Hq & Hpos).
    destruct (lookup_qubit_set_subsystem m sid s s' (sid0, qid0) Hs Hb)
      as [Hfwd _].
    destruct (Hfwd _ Hq) as (q' & Hq' & Ha' & Hb').
    exists q'. split; [done|]. destruct tag; simpl in *; congruence.
  - intros qubit q' Hq'.
    destruct (lookup_qubit_set_subsystem m sid s s' qubit Hs Hb)
      as [_ Hbwd].
    destruct (Hbwd _ Hq') as (q & Hq & Ha' & Hb').
    specialize (Hon _ _ Hq). unfold qubit_on_board in *. by rewrite Ha', Hb'.
Qed.

Lemma manager_ok_delete m p :
  index_ok m /\ qubits_on_board m ->
  index_ok (mkManager (subsystems m) (delete p (global_position_map m)))
  /\ qubits_on_board
       (mkManager (subsystems m) (delete p (global_position_map m))).
Proof.
  intros [Hidx Hon]. split; [|done].
  intros p' sid qid tag Hp. simpl in Hp.
  apply lookup_delete_Some in Hp as [_ Hp]. by apply Hidx.
Qed.

Lemma keeps_manager_ok_refl g : keeps_manager_ok g g.
Proof. by intros H. Qed.

Lemma keeps_manager_ok_trans g1 g2 g3 :
  keeps_manager_ok g1 g2 -> keeps_manager_ok g2 g3 -> keeps_manager_ok g1 g3.
Proof. unfold keeps_manager_ok. auto. Qed.

Lemma keeps_manager_ok_same g g' :
  split_manager g' = split_manager g -> keeps_manager_ok g g'.
Proof. intros H Hok. by rewrite H. Qed.

Lemma update_game_state_manager fr fc tr tc piece target g :
  split_manager (update_game_state fr fc tr tc piece target g)
  = split_manager g.
Proof.
  by destruct (update_game_state_effect fr fc tr tc piece target g)
    as (_ & H & _).
Qed.

Section ManagerInvariant.

Variable oracle : nat -> Circuit -> list bool.

(** [make_move] between two squares of the board keeps the split manager
    consistent: afterwards every entry of the index still names a qubit of
    the manager whose branch of that name stands on the indexed square, and
    every qubit has both branches on the board. *)
Theorem make_move_manager_ok (g : Game) (from_row from_col to_row to_col : Z)
    (g' : Game) :
  on_board from_row from_col = true -> on_board to_row to_col = true ->
  manager_ok (split_manager g) ->
  make_move oracle from_row from_col to_row to_col g = Some (tt, g') ->
  manager_ok (split_manager g').
Proof.
  intros Hf Ht Hok H. revert Hok. change (keeps_manager_ok g g'). revert H.
  apply keeps_make_move;
    first [by apply keeps_manager_ok_refl
          | (intros; by apply keeps_manager_ok_same)
          | (intros; apply keeps_manager_ok_same;
             by apply update_game_state_manager)
          | apply keeps_manager_ok_trans
          | idtac].
  - intros g0 sid s rm s' calls' Hs Hc Hok. simpl.
    by eapply manager_ok_collapse.
  - intros g0 p Hok. simpl. by apply manager_ok_delete.
  - intros g0 piece sid qid m Hc Hok. simpl.
    by eapply (manager_ok_create _ (from_row, from_col) (to_row, to_col)).
Qed.

End ManagerInvariant.

Lemma make_move_board_shape_witness :
  wf_board (board (run (make_move oracle_zero 7 1 5 0) knight_resplit_game)).
Proof.
  apply (make_move_board_shape oracle_zero knight_resplit_game 7 1 5 0).
  - vm_compute. split; [reflexivity|]. repeat constructor.
  - vm_compute. reflexivity.
Defined.

Lemma make_move_never_moved_witness :
  never_moved_shrinks king_side_open_game
    (run (make_move oracle_zero 7 4 7 6) king_side_open_game).
Proof.
  apply (make_move_never_moved oracle_zero king_side_open_game 7 4 7 6).
  vm_compute. reflexivity.
Defined.

Lemma make_move_record_grows_witness :
  record_grows pawn_takes_king_start
    (run (make_move oracle_zero 6 3 7 4) pawn_takes_king_start).
Proof.
  apply (make_move_record_grows oracle_zero pawn_takes_king_start 6 3 7 4).
  vm_compute. reflexivity.
Defined.

Lemma make_move_oracle_runs_witness :
  runs_match_measured knight_resplit_game
    (run (make_move oracle_zero 7 1 5 0) knight_resplit_game).
Proof.
  apply (make_move_oracle_runs oracle_zero knight_resplit_game 7 1 5 0).
  vm_compute. reflexivity.
Defined.

Lemma make_move_manager_ok_witness :
  manager_ok
    (split_manager (run (make_move oracle_zero 7 1 5 2)
                       (set_split_mode initial_game true))).
Proof.
  apply (make_move_manager_ok oracle_zero (set_split_mode initial_game true)
           7 1 5 2).
  - reflexivity.
  - reflexivity.
  - split.
    + intros p sid qid tag H. vm_compute in H. discriminate.
    + intros [sid qid] q H. vm_compute in H. discriminate.
  - vm_compute. reflexivity.
Defined.

(** * Further properties of the move generators *)

Lemma simple_moves_stay_on_board_witness :
  initial_game = initial_game
  /\ Forall on_board_pos (get_valid_moves_simple initial_game 1 7).
Proof.
  apply (simple_moves_stay_on_board oracle_zero initial_game 1 7).
  - vm_compute. split; [reflexivity|]. repeat constructor.
  - reflexivity.
  - vm_compute. reflexivity.
Defined.

Lemma ray_fuel_enough_witness :
  ray 20 initial_game 5 0 0 1 [] = ray ray_fuel initial_game 5 0 0 1 [].
Proof.
  apply (ray_fuel_enough initial_game 0 1 5 0 [] 20).
  - unfold unit_step. split; [lia|]. split; [lia|]. discriminate.
  - unfold ray_fuel. lia.
Defined.

Lemma free_or_enemy_spares g r c :
  free_or_enemy (cell (board g) r c) (turn g) = true -> spares_own g (r, c).
Proof.
  intros H. left. simpl. destruct (cell (board g) r c) as [p|]; [|done].
  simpl in *. by destruct (bool_decide _).
Qed.

Lemma Forall_snoc_spares g (moves : list Pos) p :
  Forall (spares_own g) moves -> spares_own g p ->
  Forall (spares_own g) (moves ++ [p]).
Proof. intros H1 H2. apply Forall_app. split; [done|]. by constructor. Qed.

Lemma ray_spares fuel g r c dr dc moves :
  Forall (spares_own g) moves ->
  Forall (spares_own g) (ray fuel g r c dr dc moves).
Proof.
  revert r c moves.
  induction fuel as [|fuel IH]; intros r c moves Hm; simpl; [done|].
  destruct (in_rank (r + dr) && in_rank (c + dc)); [|done].
  destruct (cell (board g) (r + dr) (c + dc)) as [p|] eqn:Hp.
  - destruct (bool_decide (pcolor p = turn g)) eqn:E; simpl; [done|].
    apply Forall_snoc_spares; [done|]. left. simpl. rewrite Hp. simpl. done.
  - apply IH. apply Forall_snoc_spares; [done|]. left. simpl. by rewrite Hp.
Qed.

Lemma get_valid_moves_simple_spares g col row :
  Forall (spares_own g) (get_valid_moves_simple g col row).
Proof.
  unfold get_valid_moves_simple.
  destruct (game_over g || edit_mode g); [constructor|].
  destruct (cell (board g) row col) as [piece|]; [|constructor].
  destruct (pkind piece).
  - unfold get_pawn_moves.
    set (d := match turn g with White => -1 | Black => 1 end).
    apply fold_left_Forall.
    + destruct (in_rank (row + d)); [|constructor].
      destruct (is_empty (cell (board g) (row + d) col)) eqn:E1;
        [|constructor].
      assert (Forall (spares_own g) ([] ++ [(row + d, col)])) as H1.
      { apply Forall_snoc_spares; [constructor|]. left. simpl.
        by destruct (cell (board g) (row + d) col). }
      destruct ((row =? _) && _); [|done].
      destruct (is_empty (cell (board g) (row + 2 * d) col)) eqn:E2; [|done].
      apply Forall_snoc_spares; [done|]. left. simpl.
      by destruct (cell (board g) (row + 2 * d) col).
    + intros acc dc Hacc.
      destruct (in_rank (row + d) && in_rank (col + dc)); [|done].
      assert (Forall (spares_own g)
                (if enemy_of (cell (board g) (row + d) (col + dc)) (turn g)
                 then acc ++ [(row + d, col + dc)] else acc)) as H1.
      { destruct (enemy_of _ _) eqn:E; [|done].
        apply Forall_snoc_spares; [done|]. left. simpl.
        destruct (cell (board g) (row + d) (col + dc)); [|done].
        simpl in *. by destruct (bool_decide _). }
      case_bool_decide as E; [|done].
      apply Forall_snoc_spares; [done|]. by right.
  - unfold get_knight_moves. apply fold_left_Forall; [constructor|].
    intros acc [dr dc] Hacc.
    destruct (in_rank (row + dr) && in_rank (col + dc)); [|done].
    destruct (free_or_enemy _ _) eqn:E; [|done].
    apply Forall_snoc_spares; [done|]. by apply free_or_enemy_spares.
  - unfold get_bishop_moves. apply fold_left_Forall; [constructor|].
    intros acc [dr dc] Hacc. by apply ray_spares.
  - unfold get_rook_moves. apply fold_left_Forall; [constructor|].
    intros acc [dr dc] Hacc. by apply ray_spares.
  - unfold get_queen_moves, get_rook_moves, get_bishop_moves.
    apply Forall_app. split;
      (apply fold_left_Forall; [constructor|];
       intros acc [dr dc] Hacc; by apply ray_spares).
  - unfold king_step_moves. apply fold_left_Forall; [constructor|].
    intros acc dr Hacc. apply fold_left_Forall; [done|].
    intros acc' dc Hacc'.
    destruct ((dr =? 0) && (dc =? 0)); [done|].
    destruct (in_rank (row + dr) && in_rank (col + dc)); [|done].
    destruct (free_or_enemy _ _) eqn:E; [|done].
    apply Forall_snoc_spares; [done|]. by apply free_or_enemy_spares.
Qed.

(** No generated move takes a piece of the side to move: every square
    [get_valid_moves] returns in simple mode, from an origin on an 8x8
    board, is empty or holds a piece of the other colour, the en-passant
    square apart (the pawn generator adds it without looking at what stands
    on it). *)
Theorem simple_moves_spare_own_pieces oracle g col row moves g' :
  wf_board (board g) -> on_board row col = true ->
  get_valid_moves oracle col row true g = Some (moves, g') ->
  Forall (spares_own g) moves.
Proof.
  intros Hwf Hrc H. rewrite get_valid_moves_simple_eq in H by done.
  inversion H; subst. apply get_valid_moves_simple_spares.
Qed.

Lemma simple_moves_spare_own_pieces_witness :
  Forall (spares_own initial_game) (get_valid_moves_simple initial_game 1 7).
Proof.
  apply (simple_moves_spare_own_pieces oracle_zero initial_game 1 7 _
           initial_game).
  - vm_compute. split; [reflexivity|]. repeat constructor.
  - reflexivity.
  - vm_compute. reflexivity.
Defined.

(** * Legal moves *)

Section LegalMoves.

Variable oracle : nat -> Circuit -> list bool.

Lemma filter_legal_eq g row col (moves : list Pos) :
  game_over g = false -> edit_mode g = false ->
  wf_board (board g) -> on_board row col = true ->
  Forall on_board_pos moves ->
  filter_legal oracle row col moves g
  = Some (filter (fun p => in_check_simple
                             (set_board g (board_after_move (board g) row col
                                                            p.1 p.2))
                             (turn g) = false) moves, g).
Proof.
  intros Hover Hedit Hwf Hrc.
  induction moves as [|[r c] moves IH]; intros Hm; [done|].
  inversion Hm as [|? ? Hp Hrest]; subst. simpl.
  rewrite (bind_Some _ _ _ _ _ (is_legal_move_eq oracle g row col r c
                                   Hover Hedit Hwf Hrc Hp)).
  rewrite (bind_Some _ _ _ _ _ (IH Hrest)).
  unfold ret. f_equal. f_equal. rewrite filter_cons. simpl.
  by destruct (in_check_simple _ _).
Qed.

(** The moves offered for a piece other than a king: [get_valid_moves]
    without [simple], for a piece of the side to move on an 8x8 board,
    returns exactly the generated moves that do not leave the mover's king
    attacked, in the order they were generated, it raises no exception, and
    it leaves the game as it is. *)
Theorem get_valid_moves_filters_legal (g : Game) (col row : Z) (piece : Piece) :
  game_over g = false -> edit_mode g = false ->
  wf_board (board g) -> on_board row col = true ->
  cell (board g) row col = Some piece ->
  pcolor piece = turn g -> pkind piece <> King ->
  get_valid_moves oracle col row false g
  = Some (filter (fun p => in_check_simple
                             (set_board g (board_after_move (board g) row col
                                                            p.1 p.2))
                             (turn g) = false)
                 (get_valid_moves_simple g col row), g).
Proof.
  intros Hover Hedit Hwf Hrc Hcell Hcolor Hkind.
  pose proof (get_valid_moves_simple_on_board g col row Hrc) as Hon.
  unfold get_valid_moves_simple in *. unfold get_valid_moves.
  rewrite (bind_Some _ _ g g g eq_refl).
  rewrite Hover, Hedit in *. cbn [orb] in *.
  rewrite (bind_Some _ _ _ _ _ (read_board_ok row col g Hwf Hrc)).
  rewrite Hcell in *. unfold has_color.
  rewrite bool_decide_eq_true_2 by done. cbn [negb andb].
  destruct (pkind piece); try done;
    rewrite (bind_Some _ _ g _ g eq_refl); by apply filter_legal_eq.
Qed.

End LegalMoves.

Lemma get_valid_moves_filters_legal_witness :
  get_valid_moves oracle_zero 1 7 false initial_game
  = Some (filter (fun p => in_check_simple
                             (set_board initial_game
                                (board_after_move (board initial_game) 7 1
                                                  p.1 p.2))
                             (turn initial_game) = false)
                 (get_valid_moves_simple initial_game 1 7), initial_game).
Proof.
  apply (get_valid_moves_filters_legal oracle_zero initial_game 1 7
           (mkPiece White Knight)).
  - reflexivity.
  - reflexivity.
  - vm_compute. split; [reflexivity|]. repeat constructor.
  - reflexivity.
  - reflexivity.
  - reflexivity.
  - discriminate.
Defined.

(** * The numbering of qubits and the reading of a measurement *)

Lemma subsystem_wf_new : subsystem_wf new_subsystem.
Proof. split; [done|]. intros i q H. by destruct i. Qed.

Lemma add_split_qubit_wf s br_a br_b parent_qubit parent_br qid s' :
  subsystem_wf s ->
  add_split_qubit s br_a br_b parent_qubit parent_br = Some (qid, s') ->
  subsystem_wf s' /\ qid = length (split_qubits s).
Proof.
  intros [Hn Hidx] H. unfold add_split_qubit in H.
  destruct parent_qubit as [pid|]; simpl in H.
  - destruct (split_qubits s !! pid) as [p|] eqn:Hp; simpl in H; [|done].
    inversion H; subst; clear H. split; [|done]. split; simpl.
    + rewrite length_app, length_insert. simpl. lia.
    + intros i q Hq.
      apply lookup_snoc_Some in Hq as [[Hl Hq]|[Hi <-]].
      * rewrite length_insert in Hl.
        destruct (decide (i = pid)) as [->|Hne].
        -- rewrite list_lookup_insert_eq in Hq by done.
           inversion Hq; subst. simpl. by apply Hidx.
        -- rewrite list_lookup_insert_ne in Hq by done. by apply Hidx.
      * rewrite length_insert in Hi. simpl. lia.
  - inversion H; subst; clear H. split; [|done]. split; simpl.
    + rewrite length_app. simpl. lia.
    + intros i q Hq.
      apply lookup_snoc_Some in Hq as [[Hl Hq]|[Hi <-]].
      * by apply Hidx.
      * simpl. lia.
Qed.

(** Every split keeps the qubits of every subsystem numbered by position:
    [add_split_qubit] gives the new qubit the next index of the circuit,
    which is its place in [split_qubits], and touches no index of the
    others. *)
Theorem create_split_qubit_keeps_numbering (m : QuantumSplitManager)
    (from_pos to_pos : Pos) (piece : Piece) (sid qid : nat)
    (m' : QuantumSplitManager) :
  Forall subsystem_wf (subsystems m) ->
  create_split_qubit m from_pos to_pos piece = Some (sid, qid, m') ->
  Forall subsystem_wf (subsystems m')
  /\ exists s', subsystems m' !! sid = Some s'
                /\ S qid = length (split_qubits s').
Proof.
  intros Hwf H. unfold create_split_qubit in H.
  destruct (global_position_map m !! from_pos) as [[[psid pq] pb]|].
  - destruct (subsystems m !! psid) as [s|] eqn:Hs; simpl in H; [|done].
    destruct (add_split_qubit _ _ _ _ _) as [[qid' s']|] eqn:Ha;
      simpl in H; [|done].
    inversion H; subst; clear H. simpl.
    pose proof (lookup_lt_Some _ _ _ Hs) as Hlt.
    assert (subsystem_wf s) as Hws
      by (eapply Forall_lookup_1; [exact Hwf|exact Hs]).
    pose proof Ha as Ha'. apply add_split_qubit_wf in Ha' as [Hws' ->]; [|done].
    split; [by apply Forall_insert|].
    exists s'. split; [by apply list_lookup_insert_eq|].
    destruct Hws' as [Hn' _]. destruct Hws as [Hn _].
    unfold add_split_qubit in Ha.
    destruct (split_qubits s !! pq); simpl in Ha; [|done].
    inversion Ha; subst. simpl. rewrite length_app, length_insert. simpl. lia.
  - simpl in H. inversion H; subst; clear H. simpl.
    rewrite insert_app_r_alt by done. rewrite Nat.sub_diag. simpl.
    split.
    + apply Forall_app. split; [done|]. constructor; [|constructor].
      split; [done|]. intros i q Hq. simpl in Hq.
      destruct i; [by inversion Hq|done].
    + eexists. split; [by apply list_lookup_middle|]. done.
Qed.

Lemma create_split_qubit_keeps_numbering_witness :
  Forall subsystem_wf (subsystems chained_manager)
  /\ exists s', subsystems chained_manager !! 0%nat = Some s'
                /\ 2%nat = length (split_qubits s').
Proof.
  apply (create_split_qubit_keeps_numbering
           (split_manager split_knight_game)
           (5, 2) (3, 3) (mkPiece White Knight) 0 1 chained_manager).
  - constructor; [|constructor]. split; [reflexivity|].
    intros [|i] q H; [|destruct i; discriminate H].
    vm_compute in H. inversion H. reflexivity.
  - vm_compute. reflexivity.
Defined.

Lemma read_outcomes_spec bits : forall qs k rm qs' rm',
  read_outcomes bits k qs rm = Some (qs', rm') ->
  (forall j, (j < k)%nat -> rm' !! j = rm !! j)
  /\ forall i q, qs !! i = Some q ->
       exists bit, bits !! qubit_index q = Some bit
                   /\ qs' !! i = Some (set_collapsed q (Some (outcome_of bit)))
                   /\ rm' !! (k + i)%nat = Some (outcome_of bit).
Proof.
  induction qs as [|q0 rest IH]; intros k rm qs' rm' H; simpl in H.
  - inversion H; subst. split; [done|]. intros i q Hq. by destruct i.
  - destruct (bits !! qubit_index q0) as [bit|] eqn:Hb; simpl in H; [|done].
    destruct (read_outcomes _ _ rest _) as [[rest' rm'']|] eqn:E; simpl in H;
      [|done].
    inversion H; subst; clear H.
    destruct (IH _ _ _ _ E) as [Hold Hnew]. split.
    + intros j Hj. rewrite Hold by lia. by rewrite lookup_insert_ne by lia.
    + intros [|i] q Hq; simpl in Hq.
      * inversion Hq; subst. exists bit. split; [done|]. split; [done|].
        rewrite Nat.add_0_r. rewrite Hold by lia. by rewrite lookup_insert_eq.
      * destruct (Hnew _ _ Hq) as (bit' & B1 & B2 & B3).
        exists bit'. split; [done|]. split; [done|].
        by replace (k + S i)%nat with (S k + i)%nat by lia.
Qed.

(** The first [collapse] of a subsystem whose qubits are numbered by
    position, with a backend that answers one bit per qubit: the call raises
    no exception, runs the backend once and marks the subsystem measured;
    qubit number [i] gets the outcome the [i]-th character from the right
    of the measured string stands for ('0' is 'a', '1' is 'b'), and the
    result map records the same outcome under that qubit. *)
Theorem collapse_reads_bits oracle (s : QuantumSubsystem) (calls : nat) :
  subsystem_wf s -> oracle_sized oracle -> measured s = false ->
  exists rm s',
    collapse oracle s calls = Some (rm, s', S calls)
    /\ measured s' = true /\ result_map s' = rm
    /\ length (split_qubits s') = length (split_qubits s)
    /\ forall i q, split_qubits s !! i = Some q ->
         exists bit,
           rev (oracle calls (mkCircuit (length (split_qubits s))
                                        (gates (qc s)))) !! i = Some bit
           /\ split_qubits s' !! i
              = Some (set_collapsed q (Some (outcome_of bit)))
           /\ rm !! i = Some (outcome_of bit).
Proof.
  intros [Hn Hidx] Hsized Hm. unfold collapse. rewrite Hm.
  set (bits := rev (oracle calls _)).
  assert (length bits = length (split_qubits s)) as Hlen.
  { subst bits. rewrite length_rev, Hsized. done. }
  destruct (read_outcomes_total bits 0 (split_qubits s) (result_map s))
    as [[qs' rm'] E].
  { apply Forall_lookup_2. intros i q Hq. rewrite (Hidx _ _ Hq), Hlen.
    by eapply lookup_lt_Some. }
  rewrite E. simpl. exists rm'. eexists. split; [done|]. simpl.
  split; [done|]. split; [done|].
  split; [by eapply read_outcomes_length|].
  intros i q Hq. apply read_outcomes_spec in E as [_ Hnew].
  destruct (Hnew _ _ Hq) as (bit & B1 & B2 & B3).
  rewrite (Hidx _ _ Hq) in B1. by exists bit.
Qed.

Lemma collapse_reads_bits_witness :
  exists rm s',
    collapse oracle_one one_qubit_subsystem 0 = Some (rm, s', 1%nat)
    /\ measured s' = true /\ result_map s' = rm
    /\ length (split_qubits s') = length (split_qubits one_qubit_subsystem)
    /\ forall i q, split_qubits one_qubit_subsystem !! i = Some q ->
         exists bit,
           rev (oracle_one 0 (mkCircuit
                                (length (split_qubits one_qubit_subsystem))
                                (gates (qc one_qubit_subsystem)))) !! i
           = Some bit
           /\ split_qubits s' !! i
              = Some (set_collapsed q (Some (outcome_of bit)))
           /\ rm !! i = Some (outcome_of bit).
Proof.
  apply (collapse_reads_bits oracle_one one_qubit_subsystem 0).
  - split; [reflexivity|].
    intros [|i] q H; [|destruct i; discriminate H].
    vm_compute in H. inversion H. reflexivity.
  - intros calls c. apply repeat_length.
  - reflexivity.
Defined.

(** * Collapsing every subsystem *)

Lemma collapse_total oracle s calls :
  subsystem_wf s -> oracle_sized oracle ->
  exists rm s', collapse oracle s calls
                = Some (rm, s', if measured s then calls else S calls).
Proof.
  intros [Hn Hidx] Hsized. unfold collapse.
  destruct (measured s); [by eauto|].
  destruct (read_outcomes_total
              (rev (oracle calls (mkCircuit (length (split_qubits s))
                                            (gates (qc s)))))
              0 (split_qubits s) (result_map s)) as [[qs' rm'] E].
  { apply Forall_lookup_2. intros i q Hq.
    rewrite (Hidx _ _ Hq), length_rev, Hsized. simpl.
    by eapply lookup_lt_Some. }
  rewrite E. simpl. eauto.
Qed.

Lemma collapse_wf oracle s calls rm s' calls' :
  subsystem_wf s -> collapse oracle s calls = Some (rm, s', calls') ->
  subsystem_wf s'.
Proof.
  intros [Hn Hidx] H. unfold collapse in H. destruct (measured s).
  { by inversion H; subst. }
  destruct (read_outcomes _ _ _ _) as [[qs' rm']|] eqn:E; simpl in H; [|done].
  inversion H; subst; clear H.
  pose proof (read_outcomes_length _ _ _ _ _ _ E) as Hlen.
  apply read_outcomes_same_branches in E as [Hb _].
  split; simpl; [lia|]. intros i q' Hq'.
  destruct (Forall2_lookup_r _ _ _ _ _ Hb Hq') as (q & Hq & r & ->).
  simpl. by apply Hidx.
Qed.

(** [collapse] of a measured subsystem, on the game: nothing changes. *)
Lemma subsystem_collapse_measured oracle sid g s :
  subsystems (split_manager g) !! sid = Some s -> measured s = true ->
  subsystem_collapse oracle sid g = Some (tt, g).
Proof.
  intros Hs Hm. unfold subsystem_collapse, bind, get_game, lift, put_game.
  rewrite Hs. simpl. rewrite collapse_measured by done. simpl.
  f_equal. f_equal. unfold set_subsystem. rewrite list_insert_id by done.
  destruct g as [? ? ? ? ? ? ? ? ? ? ? ? ? [] ?]. done.
Qed.

Section CollapseAll.

Variable oracle : nat -> Circuit -> list bool.
Hypothesis oracle_ok : oracle_sized oracle.

Lemma subsystem_collapse_step sid g :
  Forall subsystem_wf (subsystems (split_manager g)) ->
  (sid < length (subsystems (split_manager g)))%nat ->
  exists g' s',
    subsystem_collapse oracle sid g = Some (tt, g')
    /\ subsystems (split_manager g')
       = <[sid := s']> (subsystems (split_manager g))
    /\ measured s' = true
    /\ Forall subsystem_wf (subsystems (split_manager g'))
    /\ runs_match_measured g g'
    /\ board g' = board g
    /\ global_position_map (split_manager g')
       = global_position_map (split_manager g).
Proof.
  intros Hwf Hlt.
  destruct (lookup_lt_is_Some_2 _ _ Hlt) as [s Hs].
  assert (subsystem_wf s) as Hws
    by (eapply Forall_lookup_1; [exact Hwf|exact Hs]).
  destruct (collapse_total oracle s (oracle_calls g) Hws oracle_ok)
    as (rm & s' & Hc).
  unfold subsystem_collapse, bind, get_game, lift, put_game.
  rewrite Hs. simpl. rewrite Hc. simpl.
  eexists. exists s'. split; [done|]. simpl. split; [done|].
  split; [by apply collapse_sets_measured in Hc as [? _]|].
  split; [apply Forall_insert; [done|by eapply collapse_wf]|].
  split; [by eapply runs_match_measured_collapse|]. done.
Qed.

Lemma for_each_collapse (l : list nat) : forall g,
  Forall subsystem_wf (subsystems (split_manager g)) ->
  Forall (fun sid => (sid < length (subsystems (split_manager g)))%nat) l ->
  exists g',
    for_each l (subsystem_collapse oracle) g = Some (tt, g')
    /\ length (subsystems (split_manager g'))
       = length (subsystems (split_manager g))
    /\ Forall subsystem_wf (subsystems (split_manager g'))
    /\ (forall sid, measured_at (split_manager g) sid = true \/ sid ∈ l ->
                    measured_at (split_manager g') sid = true)
    /\ runs_match_measured g g'
    /\ board g' = board g
    /\ global_position_map (split_manager g')
       = global_position_map (split_manager g).
Proof.
  induction l as [|sid l IH]; intros g Hwf Hl; simpl.
  - exists g. split; [done|]. split; [done|]. split; [done|].
    split; [|split; [apply runs_match_measured_refl|done]].
    intros sid [H|H]; [done|]. by apply not_elem_of_nil in H.
  - inversion Hl as [|? ? Hsid Hrest]; subst.
    destruct (subsystem_collapse_step sid g Hwf Hsid)
      as (g1 & s' & H1 & Hsubs & Hm & Hwf1 & Hruns & Hb & Hi).
    rewrite (bind_Some _ _ _ _ _ H1).
    assert (length (subsystems (split_manager g1))
            = length (subsystems (split_manager g))) as Hlen
      by (by rewrite Hsubs, length_insert).
    destruct (IH g1 Hwf1) as (g' & H2 & Hlen' & Hwf' & Hmeas & Hruns' & Hb' & Hi').
    { eapply Forall_impl; [exact Hrest|]. intros x Hx. simpl in *. lia. }
    exists g'. split; [done|]. split; [lia|]. split; [done|].
    split; [|split; [by eapply runs_match_measured_trans|split; congruence]].
    intros sid0 H0. apply Hmeas.
    destruct (decide (sid0 = sid)) as [->|Hne].
    + left. unfold measured_at. rewrite Hsubs.
      by rewrite list_lookup_insert_eq.
    + destruct H0 as [H0|H0].
      * left. unfold measured_at in *. rewrite Hsubs.
        by rewrite list_lookup_insert_ne.
      * right. apply elem_of_cons in H0 as [?|?]; done.
Qed.

Lemma for_each_collapse_measured (l : list nat) g :
  (forall sid, sid ∈ l -> measured_at (split_manager g) sid = true) ->
  for_each l (subsystem_collapse oracle) g = Some (tt, g).
Proof.
  induction l as [|sid l IH]; intros H; simpl; [done|].
  assert (measured_at (split_manager g) sid = true) as Hm
    by (apply H, elem_of_cons; auto).
  unfold measured_at in Hm.
  destruct (subsystems (split_manager g) !! sid) as [s|] eqn:Hs; [|done].
  rewrite (bind_Some _ _ _ _ _ (subsystem_collapse_measured oracle sid g s
                                   Hs Hm)).
  apply IH. intros sid0 H0. apply H, elem_of_cons. auto.
Qed.

(** [collapse_all] on a manager whose qubits are numbered by position, with
    a backend that answers one bit per qubit: the call raises no exception;
    afterwards every subsystem is measured, the backend has run exactly
    once for every subsystem that was not, the board and the index are as
    before (nothing is folded), and a second [collapse_all] changes
    nothing. *)
Theorem collapse_all_measures_all (g : Game) :
  Forall subsystem_wf (subsystems (split_manager g)) ->
  exists g',
    collapse_all oracle g = Some (tt, g')
    /\ length (subsystems (split_manager g'))
       = length (subsystems (split_manager g))
    /\ (forall sid s', subsystems (split_manager g') !! sid = Some s' ->
                       measured s' = true)
    /\ runs_match_measured g g'
    /\ board g' = board g
    /\ global_position_map (split_manager g')
       = global_position_map (split_manager g)
    /\ collapse_all oracle g' = Some (tt, g').
Proof.
  intros Hwf. unfold collapse_all.
  destruct (for_each_collapse
              (seq 0 (length (subsystems (split_manager g)))) g Hwf)
    as (g' & H & Hlen & Hwf' & Hmeas & Hruns & Hb & Hi).
  { apply Forall_forall. intros sid Hsid.
    apply list_elem_of_In, in_seq in Hsid. lia. }
  assert (forall sid s', subsystems (split_manager g') !! sid = Some s' ->
                         measured s' = true) as Hall.
  { intros sid s' Hs'.
    assert (measured_at (split_manager g') sid = true) as Hm.
    { apply Hmeas. right. apply list_elem_of_In, in_seq.
      apply lookup_lt_Some in Hs'. lia. }
    unfold measured_at in Hm. by rewrite Hs' in Hm. }
  exists g'. rewrite (bind_Some _ _ g g g eq_refl).
  split; [done|]. split; [done|]. split; [done|]. split; [done|].
  split; [done|]. split; [done|].
  rewrite (bind_Some _ _ g' g' g' eq_refl).
  apply for_each_collapse_measured. intros sid Hsid.
  apply list_elem_of_In, in_seq in Hsid.
  destruct (lookup_lt_is_Some_2 (subsystems (split_manager g')) sid)
    as [s' Hs']; [lia|].
  unfold measured_at. rewrite Hs'. by eapply Hall.
Qed.

End CollapseAll.

Lemma collapse_all_measures_all_witness :
  exists g',
    collapse_all oracle_zero chained_game = Some (tt, g')
    /\ length (subsystems (split_manager g'))
       = length (subsystems (split_manager chained_game))
    /\ (forall sid s', subsystems (split_manager g') !! sid = Some s' ->
                       measured s' = true)
    /\ runs_match_measured chained_game g'
    /\ board g' = board chained_game
    /\ global_position_map (split_manager g')
       = global_position_map (split_manager chained_game)
    /\ collapse_all oracle_zero g' = Some (tt, g').
Proof.
  apply (collapse_all_measures_all oracle_zero).
  - intros calls c. apply repeat_length.
  - constructor; [|constructor]. split; [reflexivity|].
    intros [|[|i]] q H; vm_compute in H;
      first [discriminate H | inversion H; reflexivity].
Defined.

(** * Folding one measured qubit into the board *)

Lemma flat_map_bind {A B} (f : A -> list B) (l : list A) :
  flat_map f l = l ≫= f.
Proof. induction l as [|x l IH]; simpl; [done|]. by rewrite IH. Qed.

Lemma positions_of_NoDup m sid target : NoDup (positions_of m sid target).
Proof.
  unfold positions_of.
  eapply sublist_NoDup; [apply (NoDup_fst_map_to_list (global_position_map m))|].
  induction (map_to_list (global_position_map m)) as [|[p [[sub qid] tag]] l IH];
    simpl; [done|].
  destruct (bool_decide (sub = sid) && _); simpl.
  - by apply sublist_skip.
  - by apply sublist_cons.
Qed.

Lemma for_each_del_total (l : list Pos) : forall g,
  NoDup l ->
  (forall p, p ∈ l -> is_Some (global_position_map (split_manager g) !! p)) ->
  exists g', for_each l del_position g = Some (tt, g').
Proof.
  induction l as [|p l IH]; intros g Hnd Hin; simpl; [by eexists|].
  apply NoDup_cons in Hnd as [Hp Hnd].
  destruct (Hin p) as [e He]; [apply elem_of_cons; auto|].
  unfold bind at 1. unfold del_position at 1.
  unfold bind, get_game. rewrite He. unfold put_game.
  apply IH; [done|]. intros p' Hp'. simpl.
  rewrite lookup_delete_ne by (intros ->; done).
  apply Hin, elem_of_cons. auto.
Qed.

Section FoldOne.

Variable oracle : nat -> Circuit -> list bool.

Lemma apply_measured_target_total qubit q : forall sids g,
  lookup_qubit (split_manager g) qubit = Some q ->
  wf_board (board g) -> qubit_on_board q ->
  Forall (fun sid => (sid < length (subsystems (split_manager g)))%nat) sids ->
  exists l g', apply_measured oracle sids (Some qubit) g = Some (l, g').
Proof.
  induction sids as [|sid sids IH]; intros g Hq Hwf Hon Hs; simpl.
  - by eexists _, _.
  - inversion Hs as [|? ? Hsid Hrest]; subst.
    destruct (lookup_lt_is_Some_2 _ _ Hsid) as [s Es].
    rewrite (bind_Some _ _ g g g eq_refl).
    unfold bind at 1. unfold lift at 1. rewrite Es.
    destruct (measured s) eqn:Hm.
    + assert ((apply_to_board oracle sid (Some qubit) ;;;
               g0 <- get_game ;;
               ret (positions_of (split_manager g0) sid (Some qubit))) g
              = Some (positions_of (split_manager g) sid (Some qubit),
                      set_board g (fold_qubit (board g) q))) as Hhere.
      { by rewrite (bind_Some _ _ _ _ _
                      (apply_to_board_measured oracle sid qubit g s q Es Hm Hq
                         Hwf Hon)). }
      rewrite (bind_Some _ _ _ _ _ Hhere).
      destruct (IH (set_board g (fold_qubit (board g) q)))
        as (l & g' & Hmore); try done.
      * simpl. by apply wf_fold_qubit.
      * rewrite (bind_Some _ _ _ _ _ Hmore). by eexists _, _.
    + rewrite (bind_Some _ _ g [] g eq_refl).
      destruct (IH g) as (l & g' & Hmore); try done.
      rewrite (bind_Some _ _ _ _ _ Hmore). by eexists _, _.
Qed.

(** [apply_collapse_to_board] with a target qubit of a measured subsystem,
    on an 8x8 board that holds both branch squares: the call raises no
    exception; afterwards the piece stands on the square of the realised
    branch (branch 'a' when the outcome is 'a', branch 'b' otherwise) and
    the square of the other branch is empty, every square that is not a
    branch of the qubit is as before, and exactly the index entries of this
    qubit are gone. *)
Theorem apply_collapse_to_board_keeps_one_copy (g : Game) (sid qid : nat)
    (q : SplitQubit) :
  wf_board (board g) ->
  lookup_qubit (split_manager g) (sid, qid) = Some q ->
  measured_at (split_manager g) sid = true ->
  qubit_on_board q -> pos (branch_a q) <> pos (branch_b q) ->
  exists g',
    apply_collapse_to_board oracle (Some (sid, qid)) g = Some (tt, g')
    /\ (collapsed_result q = Some BrA ->
        cell (board g') (pos (branch_a q)).1 (pos (branch_a q)).2
        = Some (piece_type (branch_a q))
        /\ cell (board g') (pos (branch_b q)).1 (pos (branch_b q)).2 = None)
    /\ (collapsed_result q <> Some BrA ->
        cell (board g') (pos (branch_b q)).1 (pos (branch_b q)).2
        = Some (piece_type (branch_b q))
        /\ cell (board g') (pos (branch_a q)).1 (pos (branch_a q)).2 = None)
    /\ (forall r c, on_board r c = true ->
          (r, c) <> pos (branch_a q) -> (r, c) <> pos (branch_b q) ->
          cell (board g') r c = cell (board g) r c)
    /\ global_position_map (split_manager g')
       = without_qubit (global_position_map (split_manager g)) (sid, qid)
    /\ subsystems (split_manager g') = subsystems (split_manager g).
Proof.
  intros Hwf Hq Hmeas Hon Hne. unfold measured_at in Hmeas.
  destruct (subsystems (split_manager g) !! sid) as [s|] eqn:Hs; [|done].
  rename Hmeas into Hm.
  assert (exists g', apply_collapse_to_board oracle (Some (sid, qid)) g
                     = Some (tt, g')) as [g' H].
  { unfold apply_collapse_to_board. rewrite (bind_Some _ _ g g g eq_refl).
    destruct (apply_measured_target_total (sid, qid) q
                (seq 0 (length (subsystems (split_manager g)))) g Hq Hwf Hon)
      as (l & g1 & Hl).
    { apply Forall_forall. intros x Hx.
      apply list_elem_of_In, in_seq in Hx. lia. }
    rewrite (bind_Some _ _ _ _ _ Hl).
    pose proof Hl as Hl'.
    apply (apply_measured_target oracle (sid, qid) q) in Hl' as [Hg1 Hlist];
      try done.
    apply for_each_del_total.
    - rewrite Hlist, flat_map_bind. apply NoDup_bind.
      + intros x1 x2 p _ _ H1 H2.
        destruct (measured_at (split_manager g) x1); [|by apply not_elem_of_nil in H1].
        destruct (measured_at (split_manager g) x2); [|by apply not_elem_of_nil in H2].
        apply elem_of_positions_of in H1 as (_ & _ & <-).
        apply elem_of_positions_of in H2 as (_ & _ & <-). done.
      + intros x _. destruct (measured_at _ x); [|constructor].
        apply positions_of_NoDup.
      + apply NoDup_ListNoDup, seq_NoDup.
    - intros p Hp. rewrite Hlist in Hp.
      apply list_elem_of_In, in_flat_map in Hp as (x & _ & Hp).
      destruct (measured_at (split_manager g) x); [|done].
      apply list_elem_of_In, elem_of_positions_of in Hp as (tag & Hp & _).
      rewrite Hg1. simpl. by rewrite Hp. }
  exists g'. split; [done|].
  apply (apply_collapse_to_board_target oracle (sid, qid) q s) in H;
    try done.
  subst g'. simpl.
  destruct Hon as [Ha Hb].
  pose proof (cell_fold_qubit (board g) q) as Hcell.
  split; [|split; [|split; [|done]]].
  - intros Hres.
    rewrite !Hcell by (try done; by split). unfold real_branch. rewrite Hres.
    destruct (pos (branch_a q)) as [ar ac] eqn:Ea.
    destruct (pos (branch_b q)) as [br' bc] eqn:Eb. simpl.
    rewrite (bool_decide_eq_true_2 ((ar, ac) = (ar, ac))) by done.
    rewrite (bool_decide_eq_false_2 ((br', bc) = (ar, ac))) by congruence.
    rewrite bool_decide_eq_true_2 by auto. done.
  - intros Hres.
    assert (real_branch q = branch_b q) as Hreal.
    { unfold real_branch. by destruct (collapsed_result q) as [[]|]. }
    rewrite !Hcell by (try done; by split). rewrite Hreal.
    destruct (pos (branch_a q)) as [ar ac] eqn:Ea.
    destruct (pos (branch_b q)) as [br' bc] eqn:Eb. simpl.
    rewrite (bool_decide_eq_true_2 ((br', bc) = (br', bc))) by done.
    rewrite (bool_decide_eq_false_2 ((ar, ac) = (br', bc))) by congruence.
    rewrite bool_decide_eq_true_2 by auto. done.
  - intros r c Hrc Hna Hnb.
    rewrite Hcell by (try done; by split).
    rewrite bool_decide_eq_false_2.
    + rewrite bool_decide_eq_false_2; [done|tauto].
    + destruct (real_branch_cases q) as [->| ->]; done.
Qed.

End FoldOne.

Lemma apply_collapse_to_board_keeps_one_copy_witness :
  exists g',
    apply_collapse_to_board oracle_zero (Some (0%nat, 0%nat))
      (run (subsystem_collapse oracle_zero 0) split_knight_game)
    = Some (tt, g')
    /\ (collapsed_result (set_collapsed knight_qubit (Some BrA)) = Some BrA ->
        cell (board g') 7 1 = Some (mkPiece White Knight)
        /\ cell (board g') 5 2 = None)
    /\ (collapsed_result (set_collapsed knight_qubit (Some BrA)) <> Some BrA ->
        cell (board g') 5 2 = Some (mkPiece White Knight)
        /\ cell (board g') 7 1 = None)
    /\ (forall r c, on_board r c = true ->
          (r, c) <> (7, 1) -> (r, c) <> (5, 2) ->
          cell (board g') r c
          = cell (board (run (subsystem_collapse oracle_zero 0)
                            split_knight_game)) r c)
    /\ global_position_map (split_manager g')
       = without_qubit
           (global_position_map
              (split_manager (run (subsystem_collapse oracle_zero 0)
                                  split_knight_game)))
           (0%nat, 0%nat)
    /\ subsystems (split_manager g')
       = subsystems (split_manager (run (subsystem_collapse oracle_zero 0)
                                       split_knight_game)).
Proof.
  apply (apply_collapse_to_board_keeps_one_copy oracle_zero
           (run (subsystem_collapse oracle_zero 0) split_knight_game)
           0 0 (set_collapsed knight_qubit (Some BrA))).
  - vm_compute. split; [reflexivity|]. repeat constructor.
  - vm_compute. reflexivity.
  - vm_compute. reflexivity.
  - split; reflexivity.
  - discriminate.
Defined.

(** * Moving a split piece *)

Section SplitOrigin.

Variable oracle : nat -> Circuit -> list bool.

(** The block "Handle moving a split piece" of [make_move], for an origin
    that is in the index: the subsystem of its qubit is collapsed and the
    qubit folded into the board and out of the index, whatever the outcome.
    If the piece is really on the origin the move goes on with the piece of
    the realised branch, the origin being cleared for the move step to fill
    again.  If it is really on the other square the move is given up: the
    piece stays there, the origin is empty, the turn passes to the
    opponent and the end of the game is evaluated, with nothing captured
    and nothing added to the history. *)
Theorem handle_split_from_effect (g : Game) (from_row from_col : Z)
    (piece : Piece) (sid qid : nat) (tag : BranchTag) (q : SplitQubit)
    (step : Step Piece) (g' : Game) :
  wf_board (board g) ->
  global_position_map (split_manager g) !! (from_row, from_col)
  = Some (sid, qid, tag) ->
  lookup_qubit (split_manager g) (sid, qid) = Some q ->
  pos (branch_of tag q) = (from_row, from_col) ->
  qubit_on_board q ->
  handle_split_from oracle from_row from_col piece g = Some (step, g') ->
  exists q1 g1,
    collapsed_and_folded g sid qid q q1 g1
    /\ global_position_map (split_manager g1) !! (from_row, from_col) = None
    /\ (pos (real_branch q1) = (from_row, from_col) ->
        step = Continue (piece_type (real_branch q1))
        /\ g' = set_board g1 (board_set (board g1) from_row from_col None)
        /\ cell (board g') from_row from_col = None)
    /\ (pos (real_branch q1) <> (from_row, from_col) ->
        step = Return
        /\ cell (board g1) from_row from_col = None
        /\ cell (board g1) (pos (real_branch q1)).1 (pos (real_branch q1)).2
           = Some (piece_type (real_branch q1))
        /\ pass_turn oracle
             (set_board g1 (board_set (board g1) from_row from_col None))
           = Some (tt, g')
        /\ turn g' = opponent_of (turn g)
        /\ captured g' = captured g /\ history g' = history g).
Proof.
  intros Hwf Hidx Hq Hpos Hon H. unfold handle_split_from in H.
  rewrite (bind_Some _ _ g g g eq_refl) in H.
  unfold is_split_piece, get_qubit_for_position in H. rewrite Hidx in H.
  rewrite bool_decide_eq_true_2 in H by eauto.
  assert (on_board from_row from_col = true) as Hfrom.
  { destruct Hon as [Ha Hb]. destruct tag; simpl in Hpos;
      [by rewrite Hpos in Ha|by rewrite Hpos in Hb]. }
  apply bind_inv in H as ([] & gc & Hc & H).
  rewrite (bind_Some _ _ gc gc gc eq_refl) in H.
  apply bind_inv in H as (q1' & gc' & Hl & H). unfold lift in Hl.
  destruct (lookup_qubit (split_manager gc) (sid, qid)) as [q1''|] eqn:Hq1;
    [|done].
  inversion Hl; subst q1' gc'. clear Hl.
  assert (forall g1,
    apply_collapse_to_board oracle (Some (sid, qid)) gc = Some (tt, g1) ->
    collapsed_and_folded g sid qid q q1'' g1
    /\ wf_board (board g1)
    /\ global_position_map (split_manager g1) !! (from_row, from_col) = None
    /\ cell (board g1) from_row from_col
       = (if bool_decide (pos (real_branch q1'') = (from_row, from_col))
          then Some (piece_type (real_branch q1'')) else None)
    /\ cell (board g1) (pos (real_branch q1'')).1 (pos (real_branch q1'')).2
       = Some (piece_type (real_branch q1''))) as Hfold.
  { intros g1 Hf.
    destruct (collapse_then_fold oracle g sid qid q gc g1 Hwf Hq Hon Hc Hf)
      as (q1 & Hq1' & Hcf).
    rewrite Hq1 in Hq1'. inversion Hq1'; subst q1''.
    destruct (collapsed_and_folded_square g sid qid q q1 g1 tag
                (from_row, from_col) Hwf Hon Hidx Hpos Hcf) as (W & Hi & Hcell).
    split; [done|]. split; [done|]. split; [done|]. split; [done|].
    destruct Hcf as (_ & _ & Ha & Hb & _ & Hboard & _).
    rewrite Hboard.
    assert (qubit_on_board q1) as Hon1.
    { unfold qubit_on_board in *. by rewrite Ha, Hb. }
    pose proof (real_branch_on_board q1 Hon1) as Hr.
    rewrite cell_fold_qubit by done.
    rewrite bool_decide_eq_true_2; [done|].
    by destruct (pos (real_branch q1)). }
  destruct (bool_decide (pos (real_branch q1'') ≠ (from_row, from_col)))
    eqn:Hreal.
  - apply bool_decide_eq_true in Hreal.
    apply bind_inv in H as ([] & g1 & Hf & H).
    destruct (Hfold g1 Hf) as (Hcf & W & Hi & Hcell & Hcr).
    rewrite (bind_Some _ _ _ _ _ (write_board_ok from_row from_col None g1
                                     W Hfrom)) in H.
    apply bind_inv in H as ([] & g2 & Hp & H). inversion H; subst.
    exists q1'', g1. split; [done|]. split; [done|]. split; [done|].
    intros _. rewrite bool_decide_eq_false_2 in Hcell by done.
    split; [done|]. split; [done|]. split; [done|]. split; [done|].
    apply pass_turn_record in Hp as (Ht & Hcap & Hhist & _). simpl in *.
    destruct Hcf as (_ & _ & _ & _ & _ & _ & _ & Hrec & _).
    destruct Hrec as (A1 & A2 & A3 & A4 & _).
    repeat split; congruence.
  - apply bool_decide_eq_false in Hreal. apply dec_stable in Hreal.
    apply bind_inv in H as ([] & g1 & Hf & H).
    destruct (Hfold g1 Hf) as (Hcf & W & Hi & Hcell & Hcr).
    rewrite (bind_Some _ _ _ _ _ (write_board_ok from_row from_col None g1
                                     W Hfrom)) in H.
    inversion H; subst.
    exists q1'', g1. split; [done|]. split; [done|]. split; [|done].
    intros _. split; [done|]. split; [done|]. simpl.
    by apply cell_board_set_eq.
Qed.

End SplitOrigin.

Lemma handle_split_from_effect_witness :
  exists q1 g1,
    collapsed_and_folded knight_resplit_game 0 0 knight_qubit q1 g1
    /\ global_position_map (split_manager g1) !! (5, 2) = None
    /\ (pos (real_branch q1) = (5, 2) ->
        @Return Piece = Continue (piece_type (real_branch q1))
        /\ run (handle_split_from oracle_zero 5 2 (mkPiece White Knight))
               knight_resplit_game
           = set_board g1 (board_set (board g1) 5 2 None)
        /\ cell (board (run (handle_split_from oracle_zero 5 2
                               (mkPiece White Knight)) knight_resplit_game))
                5 2 = None)
    /\ (pos (real_branch q1) <> (5, 2) ->
        @Return Piece = Return
        /\ cell (board g1) 5 2 = None
        /\ cell (board g1) (pos (real_branch q1)).1 (pos (real_branch q1)).2
           = Some (piece_type (real_branch q1))
        /\ pass_turn oracle_zero (set_board g1 (board_set (board g1) 5 2 None))
           = Some (tt, run (handle_split_from oracle_zero 5 2
                              (mkPiece White Knight)) knight_resplit_game)
        /\ turn (run (handle_split_from oracle_zero 5 2
                        (mkPiece White Knight)) knight_resplit_game)
           = opponent_of (turn knight_resplit_game)
        /\ captured (run (handle_split_from oracle_zero 5 2
                            (mkPiece White Knight)) knight_resplit_game)
           = captured knight_resplit_game
        /\ history (run (handle_split_from oracle_zero 5 2
                           (mkPiece White Knight)) knight_resplit_game)
           = history knight_resplit_game).
Proof.
  apply (handle_split_from_effect oracle_zero knight_resplit_game 5 2
           (mkPiece White Knight) 0 0 BrB knight_qubit Return
           (run (handle_split_from oracle_zero 5 2 (mkPiece White Knight))
                knight_resplit_game)).
  - vm_compute. split; [reflexivity|]. repeat constructor.
  - vm_compute. reflexivity.
  - vm_compute. reflexivity.
  - reflexivity.
  - split; reflexivity.
  - vm_compute. reflexivity.
Defined.

(** * Moves outside split mode *)

Section PlainMove.

Variable oracle : nat -> Circuit -> list bool.

(** The game when [make_move] reaches the en-passant block, for a move
    whose two squares are not in the index and whose destination is empty
    or holds an enemy piece. *)
Lemma make_move_plain_steps (g : Game) (from_row from_col to_row to_col : Z)
    (piece : Piece) (g' : Game) :
  game_over g = false -> edit_mode g = false ->
  wf_board (board g) ->
  on_board from_row from_col = true -> on_board to_row to_col = true ->
  cell (board g) from_row from_col = Some piece ->
  global_position_map (split_manager g) !! (from_row, from_col) = None ->
  global_position_map (split_manager g) !! (to_row, to_col) = None ->
  (forall t, cell (board g) to_row to_col = Some t -> pcolor t <> turn g) ->
  make_move oracle from_row from_col to_row to_col g = Some (tt, g') ->
  complete_move oracle from_row from_col to_row to_col piece
    (cell (board g) to_row to_col)
    (bool_decide (pkind piece = Pawn)
     && bool_decide (Some (to_row, to_col) = en_passant g))
    (match cell (board g) to_row to_col with
     | Some t => record_capture (Some t) g
     | None => g
     end) = Some (tt, g').
Proof.
  intros Hover Hedit Hwf Hf Ht Hpiece Hif Hit Henemy H.
  unfold make_move in H.
  rewrite (bind_Some _ _ g g g eq_refl) in H.
  rewrite Hover, Hedit in H. cbn [orb] in H.
  rewrite (bind_Some _ _ _ _ _ (read_board_ok _ _ _ Hwf Hf)) in H.
  rewrite (bind_Some _ _ _ _ _ (read_board_ok _ _ _ Hwf Ht)) in H.
  rewrite Hpiece in H.
  rewrite (bind_Some _ _ g piece g eq_refl) in H.
  assert (handle_split_from oracle from_row from_col piece g
          = Some (Continue piece, g)) as H1.
  { unfold handle_split_from. rewrite (bind_Some _ _ g g g eq_refl).
    unfold is_split_piece. rewrite Hif.
    by rewrite bool_decide_eq_false_2 by (by intros [x Hx]). }
  rewrite (bind_Some _ _ _ _ _ H1) in H.
  assert (handle_target oracle to_row to_col (cell (board g) to_row to_col)
            (is_split_piece (split_manager g) (to_row, to_col)) g
          = Some (Continue tt,
                  match cell (board g) to_row to_col with
                  | Some t => record_capture (Some t) g
                  | None => g
                  end)) as H2.
  { unfold handle_target. rewrite (bind_Some _ _ g g g eq_refl).
    destruct (cell (board g) to_row to_col) as [t|] eqn:Et; [|done].
    rewrite bool_decide_eq_false_2 by (by apply Henemy).
    unfold is_split_piece. rewrite Hit.
    by rewrite bool_decide_eq_false_2 by (by intros [x Hx]). }
  by rewrite (bind_Some _ _ _ _ _ H2) in H.
Qed.

Lemma handle_castling_none g from_row from_col to_col piece :
  (pkind piece = King -> Z.abs (to_col - from_col) <> 2) ->
  handle_castling from_row from_col to_col piece g = Some (tt, g).
Proof.
  intros Hno. unfold handle_castling. rewrite (bind_Some _ _ g g g eq_refl).
  case_bool_decide as Ek; [|done].
  by rewrite (proj2 (Z.eqb_neq _ _) (Hno Ek)).
Qed.

(** What the end of a completed move leaves of the game [g3] that the
    castling block produced. *)
Lemma finish_move g3 from_row from_col to_row to_col piece target g' :
  wf_board (board g3) ->
  evaluate_end oracle
    (update_game_state from_row from_col to_row to_col piece target g3)
  = Some (tt, g') ->
  turn g' = opponent_of (turn g3)
  /\ history g'
     = history g3 ++ [(from_row, from_col, to_row, to_col, Some piece, target)]
  /\ en_passant g'
     = (if bool_decide (pkind piece = Pawn) && (Z.abs (to_row - from_row) =? 2)
        then Some (from_row + (to_row - from_row) / 2, from_col) else None)
  /\ captured g' = captured g3
  /\ promotion_pending g' = promotion_pending g3
  /\ split_mode g' = false
  /\ (in_check_now
        (update_game_state from_row from_col to_row to_col piece target g3)
      = false ->
      board g' = board g3 /\ split_manager g' = split_manager g3).
Proof.
  intros Hwf H.
  destruct (update_game_state_effect from_row from_col to_row to_col piece
              target g3) as (Hb4 & Hm4 & Hsm4 & Hc4 & Ht4).
  pose proof (same_record_evaluate_end oracle _ _ _ H)
    as (A1 & A2 & A3 & A4 & A5 & A6 & A7 & A8).
  rewrite A1, A2, A3, A4, A5, A8.
  split; [done|].
  split.
  { unfold update_game_state.
    destruct (bool_decide (pkind piece = Pawn) && _);
      destruct (bool_decide (pkind piece = King));
      destruct (bool_decide (pkind piece = Rook));
      destruct (from_col =? 0); destruct (from_col =? 7); done. }
  split.
  { unfold update_game_state.
    destruct (bool_decide (pkind piece = Pawn) && _);
      destruct (bool_decide (pkind piece = King));
      destruct (bool_decide (pkind piece = Rook));
      destruct (from_col =? 0); destruct (from_col =? 7); done. }
  split.
  { unfold update_game_state.
    destruct (bool_decide (pkind piece = Pawn) && _);
      destruct (bool_decide (pkind piece = King));
      destruct (bool_decide (pkind piece = Rook));
      destruct (from_col =? 0); destruct (from_col =? 7); done. }
  split.
  { unfold update_game_state.
    destruct (bool_decide (pkind piece = Pawn) && _);
      destruct (bool_decide (pkind piece = King));
      destruct (bool_decide (pkind piece = Rook));
      destruct (from_col =? 0); destruct (from_col =? 7); done. }
  split; [done|].
  intros Hnow. rewrite <- Hb4, <- Hm4.
  eapply evaluate_end_no_check; [| |exact Hnow|exact H].
  - by rewrite Hb4.
  - rewrite Hc4. by destruct (turn _).
Qed.


Lemma never_moved_shrinks_evaluate_end g g' :
  evaluate_end oracle g = Some (tt, g') -> never_moved_shrinks g g'.
Proof.
  apply keeps_evaluate_end;
    first [by apply never_moved_shrinks_refl
          | by apply never_moved_shrinks_flags
          | (intros; by apply never_moved_shrinks_same)
          | apply never_moved_shrinks_trans].
Qed.

(** The blocks of [make_move] from "Perform the move" on, outside split
    mode. *)
Lemma move_blocks_plain g1 from_row from_col to_row to_col piece target g' :
  split_mode g1 = false -> wf_board (board g1) ->
  on_board from_row from_col = true -> on_board to_row to_col = true ->
  (perform_move from_row from_col to_row to_col piece ;;;
   handle_castling from_row from_col to_col piece ;;;
   if bool_decide (pkind piece = Pawn) && ((to_row =? 0) || (to_row =? 7))
   then modify (fun g => set_promotion g true (Some (to_row, to_col)))
   else
     modify (update_game_state from_row from_col to_row to_col piece target) ;;;
     evaluate_end oracle) g1 = Some (tt, g') ->
  exists g3,
    handle_castling from_row from_col to_col piece
      (set_board g1
         (board_set (board_set (board g1) from_row from_col None)
            to_row to_col (Some piece))) = Some (tt, g3)
    /\ (stops_for_promotion piece to_row = true ->
        g' = set_promotion g3 true (Some (to_row, to_col)))
    /\ (stops_for_promotion piece to_row = false ->
        evaluate_end oracle
          (update_game_state from_row from_col to_row to_col piece target g3)
        = Some (tt, g')).
Proof.
  intros Hsm Hwf Hf Ht H.
  apply bind_inv in H as ([] & g2 & H2 & H).
  unfold perform_move in H2.
  rewrite (bind_Some _ _ g1 g1 g1 eq_refl) in H2.
  rewrite Hsm in H2. cbn [negb] in H2.
  rewrite (bind_Some _ _ _ _ _ (write_board_ok _ _ _ _ Hwf Hf)) in H2.
  rewrite (write_board_ok to_row to_col (Some piece) (set_board g1 _)
             (wf_board_set _ _ _ _ Hwf) Ht) in H2.
  inversion H2; subst g2. clear H2.
  apply bind_inv in H as ([] & g3 & H3 & H).
  exists g3. split; [exact H3|].
  fold (stops_for_promotion piece to_row) in H.
  destruct (stops_for_promotion piece to_row).
  - inversion H; subst g'. by split.
  - apply bind_inv in H as ([] & g4 & H4 & H). inversion H4; subst g4.
    by split.
Qed.

(** What the two writes of a move leave on the board. *)
Lemma moved_cells b from_row from_col to_row to_col piece :
  wf_board b ->
  on_board from_row from_col = true -> on_board to_row to_col = true ->
  (from_row, from_col) <> (to_row, to_col) ->
  let b' := board_set (board_set b from_row from_col None)
              to_row to_col (Some piece) in
  cell b' from_row from_col = None
  /\ cell b' to_row to_col = Some piece
  /\ (forall r c, on_board r c = true -> (r, c) <> (from_row, from_col) ->
        (r, c) <> (to_row, to_col) -> cell b' r c = cell b r c).
Proof.
  intros Hwf Hf Ht Hne b'. subst b'.
  split; [|split].
  - rewrite cell_board_set_ne;
      first [by apply cell_board_set_eq|by apply wf_board_set|congruence].
  - apply cell_board_set_eq; [by apply wf_board_set|done].
  - intros r c Hrc H1 H2.
    rewrite cell_board_set_ne;
      first [by apply wf_board_set|congruence|done|idtac].
    by rewrite cell_board_set_ne by (done || congruence).
Qed.

(** Outside split mode, a move between two different squares that are not
    in the global position map, to an empty square or onto an enemy piece,
    that is neither an en-passant capture nor a king moving two columns:
    the origin is emptied and the piece is written on the destination,
    every other square and the split manager are left alone, and a piece
    that stood on the destination is appended to the mover's capture list.
    If the piece is a pawn reaching row 0 or 7 the method returns with the
    promotion pending on the destination: the turn, the history and the
    en-passant square are as before.  Otherwise the turn passes, the move
    is appended to the history, the en-passant square becomes the square a
    pawn skipped in a two-row step and is cleared for any other move, and
    the end of the game is evaluated, which leaves the board and the
    manager alone when the side now to move is not in check. *)
Theorem make_move_ordinary (g : Game) (from_row from_col to_row to_col : Z)
    (piece : Piece) (g' : Game) :
  game_over g = false -> edit_mode g = false -> split_mode g = false ->
  wf_board (board g) ->
  on_board from_row from_col = true -> on_board to_row to_col = true ->
  (from_row, from_col) <> (to_row, to_col) ->
  cell (board g) from_row from_col = Some piece ->
  global_position_map (split_manager g) !! (from_row, from_col) = None ->
  global_position_map (split_manager g) !! (to_row, to_col) = None ->
  (forall t, cell (board g) to_row to_col = Some t -> pcolor t <> turn g) ->
  (pkind piece = Pawn -> en_passant g <> Some (to_row, to_col)) ->
  (pkind piece = King -> Z.abs (to_col - from_col) <> 2) ->
  make_move oracle from_row from_col to_row to_col g = Some (tt, g') ->
  exists gm,
    cell (board gm) from_row from_col = None
    /\ cell (board gm) to_row to_col = Some piece
    /\ (forall r c, on_board r c = true -> (r, c) <> (from_row, from_col) ->
          (r, c) <> (to_row, to_col) ->
          cell (board gm) r c = cell (board g) r c)
    /\ split_manager gm = split_manager g
    /\ captured g'
       = match cell (board g) to_row to_col with
         | Some t => pc_set (captured g) (turn g)
                       (pc_get (captured g) (turn g) ++ [Some t])
         | None => captured g
         end
    /\ (stops_for_promotion piece to_row = true ->
        g' = set_promotion gm true (Some (to_row, to_col))
        /\ turn gm = turn g /\ history gm = history g
        /\ en_passant gm = en_passant g)
    /\ (stops_for_promotion piece to_row = false ->
        evaluate_end oracle gm = Some (tt, g')
        /\ turn g' = opponent_of (turn g)
        /\ history g'
           = history g ++ [(from_row, from_col, to_row, to_col, Some piece,
                            cell (board g) to_row to_col)]
        /\ en_passant g'
           = (if bool_decide (pkind piece = Pawn)
                 && (Z.abs (to_row - from_row) =? 2)
              then Some (from_row + (to_row - from_row) / 2, from_col)
              else None)
        /\ split_mode g' = false
        /\ (in_check_now gm = false ->
            board g' = board gm /\ split_manager g' = split_manager g)).
Proof.
  intros Hover Hedit Hsm Hwf Hf Ht Hne Hpiece Hif Hit Henemy Hnoep Hnocastle H.
  apply (make_move_plain_steps g from_row from_col to_row to_col piece g'
           Hover Hedit Hwf Hf Ht Hpiece Hif Hit Henemy) in H.
  set (target := cell (board g) to_row to_col) in *.
  set (g0 := match target with
             | Some t => record_capture (Some t) g
             | None => g
             end) in *.
  assert (board g0 = board g /\ split_manager g0 = split_manager g
          /\ turn g0 = turn g /\ history g0 = history g
          /\ en_passant g0 = en_passant g /\ split_mode g0 = split_mode g
          /\ captured g0
             = match target with
               | Some t => pc_set (captured g) (turn g)
                             (pc_get (captured g) (turn g) ++ [Some t])
               | None => captured g
               end)
    as (Hb0 & Hm0 & Ht0 & Hh0 & He0 & Hsm0 & Hc0)
    by (subst g0; by destruct target).
  assert (bool_decide (pkind piece = Pawn)
          && bool_decide (Some (to_row, to_col) = en_passant g) = false) as Hep.
  { case_bool_decide as Ep; [|done]. cbn [andb].
    apply bool_decide_eq_false_2. intros E. by apply (Hnoep Ep). }
  rewrite Hep in H. unfold complete_move in H.
  unfold handle_en_passant in H at 1.
  rewrite (bind_Some _ _ g0 tt g0 eq_refl) in H.
  apply move_blocks_plain in H as (g3 & H3 & Hstop & Hgo);
    [|congruence|by rewrite Hb0|done|done].
  rewrite (handle_castling_none _ _ _ _ _ Hnocastle) in H3.
  inversion H3; subst g3. clear H3.
  destruct (moved_cells (board g0) from_row from_col to_row to_col piece)
    as (C1 & C2 & C3); [by rewrite Hb0|done..|].
  destruct (stops_for_promotion piece to_row) eqn:Es.
  - exists (set_board g0
              (board_set (board_set (board g0) from_row from_col None)
                 to_row to_col (Some piece))).
    split; [exact C1|]. split; [exact C2|].
    split; [intros r c ? ? ?; rewrite <- Hb0; by apply C3|].
    split; [exact Hm0|].
    split; [rewrite (Hstop eq_refl); exact Hc0|].
    split; [|done]. intros _. by rewrite (Hstop eq_refl).
  - specialize (Hgo eq_refl).
    destruct (update_game_state_effect from_row from_col to_row to_col piece
                target (set_board g0
                          (board_set (board_set (board g0) from_row from_col
                                        None) to_row to_col (Some piece))))
      as (Hb4 & Hm4 & _).
    assert (wf_board (board g0)) as Hwf0 by (by rewrite Hb0).
    destruct (finish_move
                (set_board g0
                   (board_set (board_set (board g0) from_row from_col None)
                      to_row to_col (Some piece))) _ _ _ _ _ _ _
                (wf_board_set _ _ _ _ (wf_board_set _ _ _ _ Hwf0)) Hgo)
      as (F1 & F2 & F3 & F4 & F5 & F6 & F7).
    exists (update_game_state from_row from_col to_row to_col piece target
              (set_board g0
                 (board_set (board_set (board g0) from_row from_col None)
                    to_row to_col (Some piece)))).
    rewrite Hb4.
    split; [exact C1|]. split; [exact C2|].
    split; [intros r c ? ? ?; rewrite <- Hb0; by apply C3|].
    split; [by rewrite Hm4|].
    split; [rewrite F4; exact Hc0|].
    split; [done|]. intros _.
    split; [exact Hgo|].
    split; [exact (eq_trans F1 (f_equal opponent_of Ht0))|].
    split.
    { etrans; [exact F2|]. change (history g0 ++ [(from_row, from_col, to_row, to_col, Some piece, target)]
              = history g ++ [(from_row, from_col, to_row, to_col, Some piece, target)]).
      by rewrite Hh0. }
    split; [exact F3|]. split; [exact F6|].
    intros Hnow. destruct (F7 Hnow) as [G1 G2].
    split; [exact G1|]. etrans; [exact G2|exact Hm0].
Qed.


Lemma king_move_clears_rights g3 from_row from_col to_row to_col piece target :
  pkind piece = King ->
  let gm := update_game_state from_row from_col to_row to_col piece target g3 in
  c_king_nm (pc_get (castling gm) (turn g3)) = false
  /\ c_queen_nm (pc_get (castling gm) (turn g3)) = false.
Proof.
  intros Hk. unfold update_game_state.
  rewrite (bool_decide_eq_true_2 _ Hk).
  rewrite (bool_decide_eq_false_2 (pkind piece = Pawn)) by congruence.
  rewrite (bool_decide_eq_false_2 (pkind piece = Rook)) by congruence.
  cbn [andb]. unfold clear_never_moved. simpl. by destruct (turn g3).
Qed.

(** Castling as [make_move] carries it out.  Outside split mode, a king
    on the e-file that is moved two columns aside on its row (both squares
    out of the global position map, the destination empty or with an enemy
    piece on it) leaves the e-file square empty and stands on the
    destination; the corner square of that side is emptied and a rook of
    the colour of the side to move is written on the square the king
    passed, whatever the corner and that square held; every other square
    and the split manager are as before.  The move is completed: the turn
    passes, and both never-moved flags of the mover are cleared and stay
    cleared through the evaluation of the end of the game. *)
Theorem make_move_castles (g : Game) (row to_col : Z) (piece : Piece)
    (g' : Game) :
  game_over g = false -> edit_mode g = false -> split_mode g = false ->
  wf_board (board g) -> on_board row 4 = true ->
  to_col = 6 \/ to_col = 2 ->
  cell (board g) row 4 = Some piece -> pkind piece = King ->
  global_position_map (split_manager g) !! (row, 4) = None ->
  global_position_map (split_manager g) !! (row, to_col) = None ->
  (forall t, cell (board g) row to_col = Some t -> pcolor t <> turn g) ->
  make_move oracle row 4 row to_col g = Some (tt, g') ->
  exists gm,
    evaluate_end oracle gm = Some (tt, g')
    /\ cell (board gm) row 4 = None
    /\ cell (board gm) row to_col = Some piece
    /\ (to_col = 6 ->
        cell (board gm) row 7 = None
        /\ cell (board gm) row 5 = Some (mkPiece (turn g) Rook)
        /\ forall r c, on_board r c = true -> r <> row \/ c < 4 ->
             cell (board gm) r c = cell (board g) r c)
    /\ (to_col = 2 ->
        cell (board gm) row 0 = None
        /\ cell (board gm) row 3 = Some (mkPiece (turn g) Rook)
        /\ forall r c, on_board r c = true -> r <> row \/ c = 1 \/ 4 < c ->
             cell (board gm) r c = cell (board g) r c)
    /\ split_manager gm = split_manager g
    /\ turn g' = opponent_of (turn g)
    /\ c_king_nm (pc_get (castling g') (turn g)) = false
    /\ c_queen_nm (pc_get (castling g') (turn g)) = false
    /\ (in_check_now gm = false ->
        board g' = board gm /\ split_manager g' = split_manager g).
Proof.
  intros Hover Hedit Hsm Hwf Hf Hside Hpiece Hk Hif Hit Henemy H.
  assert (forall c, 0 <= c < 8 -> on_board row c = true) as Hon.
  { intros c Hc. apply on_board_range in Hf. apply on_board_range. lia. }
  assert (on_board row to_col = true) as Ht
    by (apply Hon; destruct Hside; lia).
  apply (make_move_plain_steps g row 4 row to_col piece g'
           Hover Hedit Hwf Hf Ht Hpiece Hif Hit Henemy) in H.
  set (target := cell (board g) row to_col) in *.
  set (g0 := match target with
             | Some t => record_capture (Some t) g
             | None => g
             end) in *.
  assert (board g0 = board g /\ split_manager g0 = split_manager g
          /\ turn g0 = turn g /\ split_mode g0 = split_mode g)
    as (Hb0 & Hm0 & Ht0 & Hsm0)
    by (subst g0; by destruct target).
  rewrite (bool_decide_eq_false_2 (pkind piece = Pawn)) in H by congruence.
  cbn [andb] in H. unfold complete_move in H.
  unfold handle_en_passant in H at 1.
  rewrite (bind_Some _ _ g0 tt g0 eq_refl) in H.
  assert (wf_board (board g0)) as Hwf0 by (by rewrite Hb0).
  apply move_blocks_plain in H as (g3 & H3 & _ & Hgo);
    [|congruence|done|done|done].
  assert (stops_for_promotion piece row = false) as Es.
  { unfold stops_for_promotion.
    by rewrite (bool_decide_eq_false_2 (pkind piece = Pawn)) by congruence. }
  specialize (Hgo Es).
  set (b2 := board_set (board_set (board g0) row 4 None) row to_col
               (Some piece)) in *.
  assert (wf_board b2) as Hwf2 by (by do 2 apply wf_board_set).
  unfold handle_castling in H3.
  rewrite (bind_Some _ _ _ _ _ eq_refl) in H3.
  rewrite (bool_decide_eq_true_2 _ Hk) in H3.
  assert (turn (set_board g0 b2) = turn g) as Ht2 by exact Ht0.
  rewrite Ht2 in H3.
  assert (exists b3, g3 = set_board g0 b3 /\ wf_board b3
            /\ cell b3 row 4 = None /\ cell b3 row to_col = Some piece
            /\ (to_col = 6 ->
                cell b3 row 7 = None
                /\ cell b3 row 5 = Some (mkPiece (turn g) Rook)
                /\ forall r c, on_board r c = true -> r <> row \/ c < 4 ->
                     cell b3 r c = cell (board g) r c)
            /\ (to_col = 2 ->
                cell b3 row 0 = None
                /\ cell b3 row 3 = Some (mkPiece (turn g) Rook)
                /\ forall r c, on_board r c = true ->
                     r <> row \/ c = 1 \/ 4 < c ->
                     cell b3 r c = cell (board g) r c))
    as (b3 & -> & Hwf3 & C4 & Cto & C6 & C2).
  { destruct Hside as [-> | ->]; cbn [Z.sub Z.abs Z.eqb Z.ltb andb] in H3;
      simpl in H3.
    - rewrite (bind_Some _ _ _ _ _
                 (write_board_ok row 7 None (set_board g0 b2) Hwf2
                    (Hon 7 ltac:(lia)))) in H3.
      rewrite (write_board_ok row 5 _ (set_board (set_board g0 b2) _)
                 (wf_board_set _ _ _ _ Hwf2) (Hon 5 ltac:(lia))) in H3.
      inversion H3; subst g3. clear H3.
      eexists. split; [reflexivity|].
      split; [by do 2 apply wf_board_set|].
      subst b2. rewrite <- Hb0.
      split; [|split; [|split; [|done]]].
      + rewrite !cell_board_set
          by first [done | (repeat apply wf_board_set; done) | (apply Hon; lia)].
        repeat (case_bool_decide; simplify_eq); done.
      + rewrite !cell_board_set
          by first [done | (repeat apply wf_board_set; done) | (apply Hon; lia)].
        repeat (case_bool_decide; simplify_eq); done.
      + intros _. split; [|split].
        * rewrite !cell_board_set
            by first [done | (repeat apply wf_board_set; done)
                     | (apply Hon; lia)].
          repeat (case_bool_decide; simplify_eq); done.
        * rewrite !cell_board_set
            by first [done | (repeat apply wf_board_set; done)
                     | (apply Hon; lia)].
          repeat (case_bool_decide; simplify_eq); done.
        * intros r c Hrc Hfar.
          rewrite !cell_board_set
            by first [done | (repeat apply wf_board_set; done)
                     | (apply Hon; lia)].
          repeat (case_bool_decide; simplify_eq); first [done | lia].
    - rewrite (bind_Some _ _ _ _ _
                 (write_board_ok row 0 None (set_board g0 b2) Hwf2
                    (Hon 0 ltac:(lia)))) in H3.
      rewrite (write_board_ok row 3 _ (set_board (set_board g0 b2) _)
                 (wf_board_set _ _ _ _ Hwf2) (Hon 3 ltac:(lia))) in H3.
      inversion H3; subst g3. clear H3.
      eexists. split; [reflexivity|].
      split; [by do 2 apply wf_board_set|].
      subst b2. rewrite <- Hb0.
      split; [|split; [|split; [done|]]].
      + rewrite !cell_board_set
          by first [done | (repeat apply wf_board_set; done) | (apply Hon; lia)].
        repeat (case_bool_decide; simplify_eq); done.
      + rewrite !cell_board_set
          by first [done | (repeat apply wf_board_set; done) | (apply Hon; lia)].
        repeat (case_bool_decide; simplify_eq); done.
      + intros _. split; [|split].
        * rewrite !cell_board_set
            by first [done | (repeat apply wf_board_set; done)
                     | (apply Hon; lia)].
          repeat (case_bool_decide; simplify_eq); done.
        * rewrite !cell_board_set
            by first [done | (repeat apply wf_board_set; done)
                     | (apply Hon; lia)].
          repeat (case_bool_decide; simplify_eq); done.
        * intros r c Hrc Hfar.
          rewrite !cell_board_set
            by first [done | (repeat apply wf_board_set; done)
                     | (apply Hon; lia)].
          repeat (case_bool_decide; simplify_eq); first [done | lia]. }
  destruct (update_game_state_effect row 4 row to_col piece target
              (set_board g0 b3)) as (Hb4 & Hm4 & _).
  destruct (finish_move (set_board g0 b3) _ _ _ _ _ _ _ Hwf3 Hgo)
    as (F1 & _ & _ & _ & _ & _ & F7).
  destruct (king_move_clears_rights (set_board g0 b3) row 4 row to_col piece
              target Hk) as [K1 K2].
  pose proof (never_moved_shrinks_evaluate_end _ _ Hgo (turn g)) as [N1 N2].
  exists (update_game_state row 4 row to_col piece target (set_board g0 b3)).
  rewrite Hb4.
  split; [exact Hgo|]. split; [exact C4|]. split; [exact Cto|].
  split; [exact C6|]. split; [exact C2|].
  split; [etrans; [exact Hm4|exact Hm0]|].
  split; [exact (eq_trans F1 (f_equal opponent_of Ht0))|].
  change (turn (set_board g0 b3)) with (turn g0) in K1, K2.
  rewrite Ht0 in K1, K2.
  split.
  { destruct (c_king_nm (pc_get (castling g') (turn g))) eqn:E; [|done].
    rewrite <- K1. symmetry. by apply N1. }
  split.
  { destruct (c_queen_nm (pc_get (castling g') (turn g))) eqn:E; [|done].
    rewrite <- K2. symmetry. by apply N2. }
  intros Hnow. destruct (F7 Hnow) as [G1 G2].
  split; [exact G1|]. etrans; [exact G2|exact Hm0].
Qed.


(** The en-passant capture as [make_move] carries it out.  Outside split
    mode, a pawn moved onto the en-passant square (empty, out of the global
    position map, as are the origin and the square behind the destination
    for the side to move): whatever stands on that square behind the
    destination is appended to the mover's capture list, also when the
    square is empty, and the square is emptied; the origin is emptied and
    the pawn is written on the destination; every other square and the
    split manager are as before.  The history entry of the move records
    the empty destination as its target, not the pawn taken. *)
Theorem make_move_en_passant (g : Game) (from_row from_col to_row to_col : Z)
    (piece : Piece) (capture_row : Z) (g' : Game) :
  capture_row = to_row + (match turn g with White => 1 | Black => -1 end) ->
  game_over g = false -> edit_mode g = false -> split_mode g = false ->
  wf_board (board g) ->
  on_board from_row from_col = true -> on_board to_row to_col = true ->
  on_board capture_row to_col = true ->
  (from_row, from_col) <> (to_row, to_col) ->
  cell (board g) from_row from_col = Some piece -> pkind piece = Pawn ->
  en_passant g = Some (to_row, to_col) ->
  cell (board g) to_row to_col = None ->
  global_position_map (split_manager g) !! (from_row, from_col) = None ->
  global_position_map (split_manager g) !! (to_row, to_col) = None ->
  global_position_map (split_manager g) !! (capture_row, to_col) = None ->
  make_move oracle from_row from_col to_row to_col g = Some (tt, g') ->
  exists gm,
    cell (board gm) capture_row to_col = None
    /\ cell (board gm) from_row from_col = None
    /\ cell (board gm) to_row to_col = Some piece
    /\ (forall r c, on_board r c = true -> (r, c) <> (from_row, from_col) ->
          (r, c) <> (to_row, to_col) -> (r, c) <> (capture_row, to_col) ->
          cell (board gm) r c = cell (board g) r c)
    /\ split_manager gm = split_manager g
    /\ captured g'
       = pc_set (captured g) (turn g)
           (pc_get (captured g) (turn g)
              ++ [cell (board g) capture_row to_col])
    /\ (stops_for_promotion piece to_row = true ->
        g' = set_promotion gm true (Some (to_row, to_col)))
    /\ (stops_for_promotion piece to_row = false ->
        evaluate_end oracle gm = Some (tt, g')
        /\ turn g' = opponent_of (turn g)
        /\ history g'
           = history g ++ [(from_row, from_col, to_row, to_col, Some piece,
                            None)]
        /\ (Z.abs (to_row - from_row) <> 2 -> en_passant g' = None)
        /\ (in_check_now gm = false ->
            board g' = board gm /\ split_manager g' = split_manager g)).
Proof.
  intros Hrow Hover Hedit Hsm Hwf Hf Ht Hc Hne Hpiece Hp Hep Hempty
    Hif Hit Hic H.
  subst capture_row.
  set (capture_row :=
         to_row + (match turn g with White => 1 | Black => -1 end)) in *.
  apply (make_move_plain_steps g from_row from_col to_row to_col piece g'
           Hover Hedit Hwf Hf Ht Hpiece Hif Hit) in H;
    [|intros t E; congruence].
  rewrite Hempty in H.
  rewrite (bool_decide_eq_true_2 _ Hp) in H.
  rewrite (bool_decide_eq_true_2 (Some (to_row, to_col) = en_passant g))
    in H by done.
  cbn [andb] in H. unfold complete_move in H.
  apply bind_inv in H as ([] & g1 & H1 & H).
  assert (g1 = set_board
                 (record_capture (cell (board g) capture_row to_col) g)
                 (board_set (board g) capture_row to_col None)) as ->.
  { unfold handle_en_passant in H1.
    rewrite (bind_Some _ _ g g g eq_refl) in H1.
    fold capture_row in H1.
    rewrite (bind_Some _ _ _ _ _ (read_board_ok _ _ _ Hwf Hc)) in H1.
    unfold is_split_piece in H1. rewrite Hic in H1.
    rewrite bool_decide_eq_false_2 in H1 by (by intros [x Hx]).
    rewrite (bind_Some _ _ g tt
               (record_capture (cell (board g) capture_row to_col) g)
               eq_refl) in H1.
    rewrite (write_board_ok capture_row to_col None (record_capture _ g)
               Hwf Hc) in H1.
    by inversion H1. }
  clear H1.
  set (g1 := set_board (record_capture (cell (board g) capture_row to_col) g)
               (board_set (board g) capture_row to_col None)) in *.
  assert (wf_board (board g1)) as Hwf1 by (by apply wf_board_set).
  apply move_blocks_plain in H as (g3 & H3 & Hstop & Hgo);
    [|done|done|done|done].
  rewrite handle_castling_none in H3 by congruence.
  inversion H3; subst g3. clear H3.
  set (b2 := board_set (board_set (board g1) from_row from_col None)
               to_row to_col (Some piece)) in *.
  assert (wf_board b2) as Hwf2 by (by do 2 apply wf_board_set).
  assert ((capture_row, to_col) <> (to_row, to_col)) as Hcne.
  { subst capture_row. intros [= E]. destruct (turn g); lia. }
  assert (cell b2 capture_row to_col = None
          /\ cell b2 from_row from_col = None
          /\ cell b2 to_row to_col = Some piece
          /\ (forall r c, on_board r c = true ->
                (r, c) <> (from_row, from_col) ->
                (r, c) <> (to_row, to_col) -> (r, c) <> (capture_row, to_col) ->
                cell b2 r c = cell (board g) r c))
    as (C1 & C2 & C3 & C4).
  { subst b2 g1. cbn [board set_board].
    split; [|split; [|split]].
    - rewrite !cell_board_set
        by first [done | (repeat apply wf_board_set; done)].
      repeat (case_bool_decide; simplify_eq); done.
    - rewrite !cell_board_set
        by first [done | (repeat apply wf_board_set; done)].
      repeat (case_bool_decide; simplify_eq); done.
    - rewrite !cell_board_set
        by first [done | (repeat apply wf_board_set; done)].
      repeat (case_bool_decide; simplify_eq); done.
    - intros r c Hrc N1 N2 N3.
      rewrite !cell_board_set
        by first [done | (repeat apply wf_board_set; done)].
      repeat (case_bool_decide; simplify_eq); done. }
  destruct (stops_for_promotion piece to_row) eqn:Es.
  - exists (set_board g1 b2).
    split; [exact C1|]. split; [exact C2|]. split; [exact C3|].
    split; [exact C4|]. split; [done|].
    split; [by rewrite (Hstop eq_refl)|].
    split; [|done]. intros _. exact (Hstop eq_refl).
  - specialize (Hgo eq_refl).
    destruct (update_game_state_effect from_row from_col to_row to_col piece
                None (set_board g1 b2)) as (Hb4 & Hm4 & _).
    destruct (finish_move (set_board g1 b2) _ _ _ _ _ _ _ Hwf2 Hgo)
      as (F1 & F2 & F3 & F4 & F5 & F6 & F7).
    exists (update_game_state from_row from_col to_row to_col piece None
              (set_board g1 b2)).
    rewrite Hb4.
    split; [exact C1|]. split; [exact C2|]. split; [exact C3|].
    split; [exact C4|]. split; [exact Hm4|].
    split; [exact F4|].
    split; [done|]. intros _.
    split; [exact Hgo|]. split; [exact F1|]. split; [exact F2|].
    split.
    { intros Hno. rewrite F3.
      by rewrite (proj2 (Z.eqb_neq _ _) Hno), andb_false_r. }
    intros Hnow. destruct (F7 Hnow) as [G1 G2]. by split.
Qed.

End PlainMove.

Lemma make_move_ordinary_witness :
  exists gm,
    cell (board gm) 6 3 = None
    /\ cell (board gm) 7 4 = Some (mkPiece Black Pawn)
    /\ (forall r c, on_board r c = true -> (r, c) <> (6, 3) ->
          (r, c) <> (7, 4) ->
          cell (board gm) r c = cell (board pawn_takes_king_start) r c)
    /\ split_manager gm = split_manager pawn_takes_king_start
    /\ captured (run (make_move oracle_zero 6 3 7 4) pawn_takes_king_start)
       = match cell (board pawn_takes_king_start) 7 4 with
         | Some t => pc_set (captured pawn_takes_king_start)
                       (turn pawn_takes_king_start)
                       (pc_get (captured pawn_takes_king_start)
                          (turn pawn_takes_king_start) ++ [Some t])
         | None => captured pawn_takes_king_start
         end
    /\ (stops_for_promotion (mkPiece Black Pawn) 7 = true ->
        run (make_move oracle_zero 6 3 7 4) pawn_takes_king_start
        = set_promotion gm true (Some (7, 4))
        /\ turn gm = turn pawn_takes_king_start
        /\ history gm = history pawn_takes_king_start
        /\ en_passant gm = en_passant pawn_takes_king_start)
    /\ (stops_for_promotion (mkPiece Black Pawn) 7 = false ->
        evaluate_end oracle_zero gm
        = Some (tt, run (make_move oracle_zero 6 3 7 4) pawn_takes_king_start)
        /\ turn (run (make_move oracle_zero 6 3 7 4) pawn_takes_king_start)
           = opponent_of (turn pawn_takes_king_start)
        /\ history (run (make_move oracle_zero 6 3 7 4) pawn_takes_king_start)
           = history pawn_takes_king_start
               ++ [(6, 3, 7, 4, Some (mkPiece Black Pawn),
                    cell (board pawn_takes_king_start) 7 4)]
        /\ en_passant (run (make_move oracle_zero 6 3 7 4)
                         pawn_takes_king_start)
           = (if bool_decide (pkind (mkPiece Black Pawn) = Pawn)
                 && (Z.abs (7 - 6) =? 2)
              then Some (6 + (7 - 6) / 2, 3)
              else None)
        /\ split_mode (run (make_move oracle_zero 6 3 7 4)
                         pawn_takes_king_start) = false
        /\ (in_check_now gm = false ->
            board (run (make_move oracle_zero 6 3 7 4) pawn_takes_king_start)
            = board gm
            /\ split_manager (run (make_move oracle_zero 6 3 7 4)
                                pawn_takes_king_start)
               = split_manager pawn_takes_king_start)).
Proof.
  apply (make_move_ordinary oracle_zero pawn_takes_king_start 6 3 7 4
           (mkPiece Black Pawn)).
  - reflexivity.
  - reflexivity.
  - reflexivity.
  - vm_compute. split; [reflexivity|]. repeat constructor.
  - reflexivity.
  - reflexivity.
  - discriminate.
  - vm_compute. reflexivity.
  - vm_compute. reflexivity.
  - vm_compute. reflexivity.
  - intros t E. vm_compute in E. inversion E. discriminate.
  - intros _. discriminate.
  - discriminate.
  - vm_compute. reflexivity.
Defined.

Lemma make_move_castles_witness :
  exists gm,
    evaluate_end oracle_zero gm
    = Some (tt, run (make_move oracle_zero 7 4 7 6) king_side_open_game)
    /\ cell (board gm) 7 4 = None
    /\ cell (board gm) 7 6 = Some (mkPiece White King)
    /\ (6 = 6 ->
        cell (board gm) 7 7 = None
        /\ cell (board gm) 7 5 = Some (mkPiece (turn king_side_open_game) Rook)
        /\ forall r c, on_board r c = true -> r <> 7 \/ c < 4 ->
             cell (board gm) r c = cell (board king_side_open_game) r c)
    /\ (6 = 2 ->
        cell (board gm) 7 0 = None
        /\ cell (board gm) 7 3 = Some (mkPiece (turn king_side_open_game) Rook)
        /\ forall r c, on_board r c = true -> r <> 7 \/ c = 1 \/ 4 < c ->
             cell (board gm) r c = cell (board king_side_open_game) r c)
    /\ split_manager gm = split_manager king_side_open_game
    /\ turn (run (make_move oracle_zero 7 4 7 6) king_side_open_game)
       = opponent_of (turn king_side_open_game)
    /\ c_king_nm (pc_get (castling (run (make_move oracle_zero 7 4 7 6)
                                      king_side_open_game))
                    (turn king_side_open_game)) = false
    /\ c_queen_nm (pc_get (castling (run (make_move oracle_zero 7 4 7 6)
                                       king_side_open_game))
                     (turn king_side_open_game)) = false
    /\ (in_check_now gm = false ->
        board (run (make_move oracle_zero 7 4 7 6) king_side_open_game)
        = board gm
        /\ split_manager (run (make_move oracle_zero 7 4 7 6)
                            king_side_open_game)
           = split_manager king_side_open_game).
Proof.
  apply (make_move_castles oracle_zero king_side_open_game 7 6
           (mkPiece White King)).
  - reflexivity.
  - reflexivity.
  - reflexivity.
  - vm_compute. split; [reflexivity|]. repeat constructor.
  - reflexivity.
  - left. reflexivity.
  - vm_compute. reflexivity.
  - reflexivity.
  - vm_compute. reflexivity.
  - vm_compute. reflexivity.
  - intros t E. vm_compute in E. discriminate.
  - vm_compute. reflexivity.
Defined.

Lemma make_move_en_passant_witness :
  exists gm,
    cell (board gm) 3 3 = None
    /\ cell (board gm) 3 4 = None
    /\ cell (board gm) 2 3 = Some (mkPiece White Pawn)
    /\ (forall r c, on_board r c = true -> (r, c) <> (3, 4) ->
          (r, c) <> (2, 3) -> (r, c) <> (3, 3) ->
          cell (board gm) r c = cell (board en_passant_game) r c)
    /\ split_manager gm = split_manager en_passant_game
    /\ captured (run (make_move oracle_zero 3 4 2 3) en_passant_game)
       = pc_set (captured en_passant_game) (turn en_passant_game)
           (pc_get (captured en_passant_game) (turn en_passant_game)
              ++ [cell (board en_passant_game) 3 3])
    /\ (stops_for_promotion (mkPiece White Pawn) 2 = true ->
        run (make_move oracle_zero 3 4 2 3) en_passant_game
        = set_promotion gm true (Some (2, 3)))
    /\ (stops_for_promotion (mkPiece White Pawn) 2 = false ->
        evaluate_end oracle_zero gm
        = Some (tt, run (make_move oracle_zero 3 4 2 3) en_passant_game)
        /\ turn (run (make_move oracle_zero 3 4 2 3) en_passant_game)
           = opponent_of (turn en_passant_game)
        /\ history (run (make_move oracle_zero 3 4 2 3) en_passant_game)
           = history en_passant_game
               ++ [(3, 4, 2, 3, Some (mkPiece White Pawn), None)]
        /\ (Z.abs (2 - 3) <> 2 ->
            en_passant (run (make_move oracle_zero 3 4 2 3) en_passant_game)
            = None)
        /\ (in_check_now gm = false ->
            board (run (make_move oracle_zero 3 4 2 3) en_passant_game)
            = board gm
            /\ split_manager (run (make_move oracle_zero 3 4 2 3)
                                en_passant_game)
               = split_manager en_passant_game)).
Proof.
  apply (make_move_en_passant oracle_zero en_passant_game 3 4 2 3
           (mkPiece White Pawn) 3).
  - vm_compute. reflexivity.
  - vm_compute. reflexivity.
  - vm_compute. reflexivity.
  - vm_compute. reflexivity.
  - vm_compute. split; [reflexivity|]. repeat constructor.
  - reflexivity.
  - reflexivity.
  - reflexivity.
  - discriminate.
  - vm_compute. reflexivity.
  - reflexivity.
  - vm_compute. reflexivity.
  - vm_compute. reflexivity.
  - vm_compute. reflexivity.
  - vm_compute. reflexivity.
  - vm_compute. reflexivity.
  - vm_compute. reflexivity.
Defined.

(** * A confirmed check ends every superposition *)

Lemma elem_of_positions_of_all m sid p :
  p ∈ positions_of m sid None
  <-> exists qid tag, global_position_map m !! p = Some (sid, qid, tag).
Proof.
  unfold positions_of. rewrite list_elem_of_omap. split.
  - intros ([p' [[sub qid] tag]] & Hin & H).
    apply elem_of_map_to_list in Hin.
    destruct (bool_decide (sub = sid)) eqn:E1; simpl in H; [|done].
    inversion H; subst p'. apply bool_decide_eq_true in E1. subst. eauto.
  - intros (qid & tag & Hp). exists (p, (sid, qid, tag)).
    split; [by apply elem_of_map_to_list|].
    by rewrite bool_decide_eq_true_2.
Qed.

Section CheckCollapses.

Variable oracle : nat -> Circuit -> list bool.

(** The loop of [is_in_check] over the subsystems. *)
Lemma for_each_collapse_unmeasured (l : list nat) : forall g g',
  for_each l
    (fun sid =>
       g <- get_game ;;
       s <- lift (subsystems (split_manager g) !! sid) ;;
       if negb (measured s) then subsystem_collapse oracle sid else ret tt)
    g = Some (tt, g') ->
  length (subsystems (split_manager g')) = length (subsystems (split_manager g))
  /\ (forall sid, measured_at (split_manager g) sid = true \/ sid ∈ l ->
        measured_at (split_manager g') sid = true)
  /\ global_position_map (split_manager g')
     = global_position_map (split_manager g).
Proof.
  induction l as [|sid l IH]; intros g g' H; simpl in H.
  - inversion H; subst. split; [done|]. split; [|done].
    intros sid [Hm|Hin]; [done|]. by apply not_elem_of_nil in Hin.
  - apply bind_inv in H as ([] & g1 & H1 & H).
    rewrite (bind_Some _ _ g g g eq_refl) in H1.
    apply bind_inv in H1 as (s & ga & Hs & H1). unfold lift in Hs.
    destruct (subsystems (split_manager g) !! sid) as [s0|] eqn:Es; [|done].
    inversion Hs; subst s0 ga. clear Hs.
    destruct (IH _ _ H) as (Hlen & Hmeas & Hidx).
    assert (length (subsystems (split_manager g1))
            = length (subsystems (split_manager g))
            /\ (forall sid0, measured_at (split_manager g) sid0 = true
                             \/ sid0 = sid ->
                  measured_at (split_manager g1) sid0 = true)
            /\ global_position_map (split_manager g1)
               = global_position_map (split_manager g)) as (Hlen1 & Hm1 & Hi1).
    { destruct (measured s) eqn:Em; cbn [negb] in H1.
      - inversion H1; subst g1. split; [done|]. split; [|done].
        intros sid0 [Hm| ->]; [done|]. unfold measured_at. by rewrite Es.
      - apply subsystem_collapse_effect in H1
          as (s1 & s' & Es1 & Hsubs & Hi & _ & Hm' & _).
        pose proof (lookup_lt_Some _ _ _ Es) as Hlt.
        split; [by rewrite Hsubs, length_insert|]. split; [|done].
        intros sid0 Hsid0. unfold measured_at. rewrite Hsubs.
        destruct (decide (sid0 = sid)) as [->|Hne].
        + by rewrite list_lookup_insert_eq.
        + rewrite list_lookup_insert_ne by done.
          destruct Hsid0 as [Hm|Hm]; [exact Hm|done]. }
    split; [congruence|]. split; [|congruence].
    intros sid0 [Hm|Hin].
    + apply Hmeas. left. apply Hm1. by left.
    + apply elem_of_cons in Hin as [->|Hin].
      * apply Hmeas. left. apply Hm1. by right.
      * apply Hmeas. by right.
Qed.

(** [apply_collapse_to_board] without a target, when every subsystem is
    measured and every entry of the index names a subsystem: the index is
    emptied and the subsystems stay as they are. *)
Lemma apply_collapse_to_board_all g g' :
  (forall sid, (sid < length (subsystems (split_manager g)))%nat ->
     measured_at (split_manager g) sid = true) ->
  (forall p sid qid tag,
     global_position_map (split_manager g) !! p = Some (sid, qid, tag) ->
     (sid < length (subsystems (split_manager g)))%nat) ->
  apply_collapse_to_board oracle None g = Some (tt, g') ->
  subsystems (split_manager g') = subsystems (split_manager g)
  /\ global_position_map (split_manager g') = ∅.
Proof.
  intros Hall Hidx H. unfold apply_collapse_to_board in H.
  rewrite (bind_Some _ _ g g g eq_refl) in H.
  apply bind_inv in H as (l & g1 & Hl & H).
  apply apply_measured_manager in Hl as [Hm1 ->].
  apply for_each_del_position in H. subst g'. simpl.
  rewrite Hm1. split; [done|].
  apply map_eq. intros p. rewrite lookup_fold_delete, lookup_empty.
  case_bool_decide as Hin; [done|].
  destruct (global_position_map (split_manager g) !! p)
    as [[[sid qid] tag]|] eqn:Ep; [|done].
  exfalso. apply Hin. apply list_elem_of_In, in_flat_map.
  exists sid. split.
  - apply in_seq. pose proof (Hidx _ _ _ _ Ep). lia.
  - rewrite (Hall sid (Hidx _ _ _ _ Ep)).
    apply list_elem_of_In, elem_of_positions_of_all. eauto.
Qed.

(** When a non-simple [is_in_check] finds the king attacked (nothing being
    cached for the colour), in a game whose index names only subsystems
    of the manager, every subsystem is measured when it returns, the
    global position map is empty, the oracle has run exactly once for each
    subsystem that was not measured before, and the cache holds [true] for
    the colour and nothing for the other colour. *)
Theorem is_in_check_collapses_all (g : Game) (color : Color) (g' : Game) :
  pc_get (check_cache g) color = None ->
  (forall p sid qid tag,
     global_position_map (split_manager g) !! p = Some (sid, qid, tag) ->
     (sid < length (subsystems (split_manager g)))%nat) ->
  is_in_check oracle color false g = Some (true, g') ->
  Forall (fun s => measured s = true) (subsystems (split_manager g'))
  /\ length (subsystems (split_manager g'))
     = length (subsystems (split_manager g))
  /\ global_position_map (split_manager g') = ∅
  /\ runs_match_measured g g'
  /\ check_cache g' = pc_set (mkPerColor None None) color (Some true).
Proof.
  intros Hc Hidx H.
  assert (runs_match_measured g g') as Hruns.
  { revert H. apply keeps_is_in_check;
      first [by apply runs_match_measured_refl
            | (intros; by eapply runs_match_measured_collapse)
            | (intros; by apply runs_match_measured_same)
            | apply runs_match_measured_trans]. }
  unfold is_in_check in H. rewrite (bind_Some _ _ g g g eq_refl) in H.
  cbn [negb] in H. rewrite Hc in H.
  destruct (find_king (board g) color) as [king_pos|]; [|done].
  destruct (is_square_attacked g king_pos.1 king_pos.2 color false) eqn:Ea.
  2:{ apply bind_inv in H as (u & g1 & _ & H).
      apply bind_inv in H as (u' & g2 & _ & H). by inversion H. }
  cbn [negb andb] in H.
  apply bind_inv in H as ([] & g3 & H3 & H).
  apply bind_inv in H3 as ([] & g1 & H1 & H3).
  apply bind_inv in H3 as ([] & g2 & H2 & H3).
  inversion H3; subst g3. clear H3.
  apply bind_inv in H as ([] & g4 & H4 & H).
  inversion H4; subst g4. inversion H; subst g'. clear H4 H.
  apply for_each_collapse_unmeasured in H1 as (Hlen1 & Hm1 & Hi1).
  apply apply_collapse_to_board_all in H2 as [Hs2 Hi2].
  - simpl. rewrite Hs2, Hi2, Hlen1.
    split; [|by repeat split].
    apply Forall_lookup_2. intros sid s Hs.
    pose proof (lookup_lt_Some _ _ _ Hs) as Hlt.
    assert (sid ∈ seq 0 (length (subsystems (split_manager g)))) as Hin
      by (apply elem_of_seq; lia).
    specialize (Hm1 sid (or_intror Hin)).
    unfold measured_at in Hm1. by rewrite Hs in Hm1.
  - intros sid Hlt. apply Hm1. right. apply elem_of_seq. lia.
  - intros p sid qid tag Hp. rewrite Hi1 in Hp. rewrite Hlen1. eauto.
Qed.

End CheckCollapses.

Lemma is_in_check_collapses_all_witness :
  Forall (fun s => measured s = true)
    (subsystems (split_manager
                   (run (is_in_check oracle_zero White false) rook_split_game)))
  /\ length (subsystems (split_manager
                           (run (is_in_check oracle_zero White false)
                              rook_split_game)))
     = length (subsystems (split_manager rook_split_game))
  /\ global_position_map
       (split_manager (run (is_in_check oracle_zero White false)
                         rook_split_game)) = ∅
  /\ runs_match_measured rook_split_game
       (run (is_in_check oracle_zero White false) rook_split_game)
  /\ check_cache (run (is_in_check oracle_zero White false) rook_split_game)
     = pc_set (mkPerColor None None) White (Some true).
Proof.
  apply (is_in_check_collapses_all oracle_zero rook_split_game White).
  - reflexivity.
  - intros p sid qid tag H. apply elem_of_map_to_list in H.
    vm_compute in H.
    inversion H as [|? ? ? H1]; subst; [vm_compute; lia|].
    inversion H1 as [|? ? ? H2]; subst; [vm_compute; lia|].
    inversion H2.
  - vm_compute. reflexivity.
Defined.

(** * Checkmate and stalemate *)

Section EndStates.

Variable oracle : nat -> Circuit -> list bool.

Lemma wf_is_in_check color simple g x g' :
  wf_board (board g) ->
  is_in_check oracle color simple g = Some (x, g') -> wf_board (board g').
Proof.
  intros Hwf H. revert Hwf. change (keeps_board_shape g g'). revert H.
  apply keeps_is_in_check;
    first [by apply keeps_board_shape_refl | by apply keeps_board_shape_put
          | (intros; by apply keeps_board_shape_same)
          | apply keeps_board_shape_trans].
Qed.

(** A non-simple check query that answers [false] has the answer in the
    cache, or found no king and changed nothing. *)
Lemma is_in_check_false_inv g color g' :
  is_in_check oracle color false g = Some (false, g') ->
  pc_get (check_cache g') color = Some false
  \/ (g' = g /\ pc_get (check_cache g) color = None
      /\ find_king (board g) color = None).
Proof.
  unfold is_in_check. rewrite (bind_Some _ _ g g g eq_refl). cbn [negb].
  destruct (pc_get (check_cache g) color) as [cached|] eqn:Hc.
  { intros H; inversion H; subst. by left. }
  destruct (find_king (board g) color) as [king_pos|].
  2:{ intros H; inversion H; subst. by right. }
  destruct (is_square_attacked g king_pos.1 king_pos.2 color false) eqn:Ea.
  { intros H. apply bind_inv in H as (u & g1 & _ & H).
    apply bind_inv in H as (u' & g2 & _ & H). by inversion H. }
  intros H. apply bind_inv in H as (u & g1 & _ & H).
  apply bind_inv in H as (u' & g2 & H2 & H).
  cbn [negb] in H2. unfold modify in H2. inversion H2; subst.
  inversion H; subst. left. unfold set_cached.
  cbn [check_cache set_check_cache]. by destruct color.
Qed.

(** A position is not both checkmate and stalemate: when [is_checkmate]
    answers [True] for a colour, [is_stalemate] asked next for the same
    colour answers [False] and changes nothing (the check found by the
    first query is in the cache). *)
Theorem checkmate_excludes_stalemate (g : Game) (color : Color) (g1 : Game) :
  wf_board (board g) ->
  is_checkmate oracle color g = Some (true, g1) ->
  is_stalemate oracle color g1 = Some (false, g1).
Proof.
  intros Hwf H. unfold is_checkmate in H.
  apply bind_inv in H as (ic & ga & Hic & H).
  destruct ic; cbn [negb] in H; [|by inversion H].
  apply bind_inv in H as (found & gb & Hfound & H).
  inversion H; subst gb. clear H.
  pose proof (is_in_check_true_cached _ _ _ _ Hic) as Hcache.
  pose proof (wf_is_in_check _ _ _ _ _ Hwf Hic) as Hwfa.
  apply quiet_has_legal_move in Hfound as [cs ->]; [|done].
  unfold is_stalemate.
  by rewrite (bind_Some _ _ _ _ _
                (is_in_check_cached oracle (set_castling ga cs) color true
                   Hcache)).
Qed.

(** And the other way round: when [is_stalemate] answers [True] for a
    colour, [is_checkmate] asked next for the same colour answers [False]
    and changes nothing. *)
Theorem stalemate_excludes_checkmate (g : Game) (color : Color) (g1 : Game) :
  wf_board (board g) ->
  is_stalemate oracle color g = Some (true, g1) ->
  is_checkmate oracle color g1 = Some (false, g1).
Proof.
  intros Hwf H. unfold is_stalemate in H.
  apply bind_inv in H as (ic & ga & Hic & H).
  destruct ic; [by inversion H|].
  apply bind_inv in H as (found & gb & Hfound & H).
  inversion H; subst gb. clear H.
  pose proof (wf_is_in_check _ _ _ _ _ Hwf Hic) as Hwfa.
  apply quiet_has_legal_move in Hfound as [cs ->]; [|done].
  unfold is_checkmate.
  assert (is_in_check oracle color false (set_castling ga cs)
          = Some (false, set_castling ga cs)) as Hagain.
  { destruct (is_in_check_false_inv _ _ _ Hic) as [Hcache|(-> & Hc & Hk)].
    - by apply is_in_check_cached.
    - unfold is_in_check. rewrite (bind_Some _ _ _ _ _ eq_refl).
      cbn [negb]. simpl. by rewrite Hc, Hk. }
  by rewrite (bind_Some _ _ _ _ _ Hagain).
Qed.

End EndStates.

Lemma checkmate_excludes_stalemate_witness :
  is_stalemate oracle_zero White
    (run (is_checkmate oracle_zero White) mate_game)
  = Some (false, run (is_checkmate oracle_zero White) mate_game).
Proof.
  apply (checkmate_excludes_stalemate oracle_zero mate_game White).
  - vm_compute. split; [reflexivity|]. repeat constructor.
  - vm_compute. reflexivity.
Defined.

Lemma stalemate_excludes_checkmate_witness :
  is_checkmate oracle_zero White
    (run (is_stalemate oracle_zero White) stalemate_game)
  = Some (false, run (is_stalemate oracle_zero White) stalemate_game).
Proof.
  apply (stalemate_excludes_checkmate oracle_zero stalemate_game White).
  - vm_compute. split; [reflexivity|]. repeat constructor.
  - vm_compute. reflexivity.
Defined.

(** * The squares and buttons under the mouse *)

Section Geometry.

Variable SQUARE_SIZE : Z.
Hypothesis SQUARE_SIZE_min : 50 <= SQUARE_SIZE.

(** [get_square] inverts the placement of the squares by [draw_board]: for
    a position with non-negative coordinates and a game that is not over,
    the answer is the square [(col, row)] exactly when that square is on
    the board and the position lies in the rectangle [draw_board] fills for
    it, whichever side is to move (the board is drawn turned round for
    Black). *)
Theorem get_square_inverts_drawing (g : Game) (row col x y : Z) :
  game_over g = false -> 0 <= x -> 0 <= y ->
  get_square SQUARE_SIZE g (x, y) = Some (col, row)
  <-> on_board row col = true
      /\ in_rect (square_rect SQUARE_SIZE g row col) x y = true.
Proof.
  intros Hover Hx Hy. unfold get_square, square_rect, in_rect, BOARD_SIZE.
  rewrite Hover. cbn [negb]. rewrite andb_true_r.
  rewrite on_board_range.
  split.
  - destruct (_ && _) eqn:E; [|done].
    apply andb_true_iff in E as [E1 E2].
    apply Z.ltb_lt in E1, E2. intros H.
    assert (0 <= x / SQUARE_SIZE < 8 /\ 0 <= y / SQUARE_SIZE < 8) as [Hc Hr].
    { split; (split; [apply Z.div_pos; lia
                     |apply Z.div_lt_upper_bound; lia]). }
    pose proof (Z.mul_div_le x SQUARE_SIZE ltac:(lia)) as Hx1.
    pose proof (Z.mul_succ_div_gt x SQUARE_SIZE ltac:(lia)) as Hx2.
    pose proof (Z.mul_div_le y SQUARE_SIZE ltac:(lia)) as Hy1.
    pose proof (Z.mul_succ_div_gt y SQUARE_SIZE ltac:(lia)) as Hy2.
    destruct (bool_decide (turn g = Black)); inversion H; subst row col;
      (split; [lia|]);
      rewrite !andb_true_iff, !Z.leb_le, !Z.ltb_lt; nia.
  - intros [[Hr Hc] Hin].
    rewrite !andb_true_iff, !Z.leb_le, !Z.ltb_lt in Hin.
    destruct Hin as [[[X1 X2] Y1] Y2].
    destruct (bool_decide (turn g = Black)).
    + assert (x / SQUARE_SIZE = 7 - col) as ->
        by (symmetry; apply (Z.div_unique_pos x SQUARE_SIZE (7 - col)
                               (x - (7 - col) * SQUARE_SIZE)); lia).
      assert (y / SQUARE_SIZE = 7 - row) as ->
        by (symmetry; apply (Z.div_unique_pos y SQUARE_SIZE (7 - row)
                               (y - (7 - row) * SQUARE_SIZE)); lia).
      rewrite (proj2 (Z.ltb_lt _ _)) by nia.
      rewrite (proj2 (Z.ltb_lt _ _)) by nia.
      cbn [andb]. do 2 f_equal; lia.
    + assert (x / SQUARE_SIZE = col) as ->
        by (symmetry; apply (Z.div_unique_pos x SQUARE_SIZE col
                               (x - col * SQUARE_SIZE)); lia).
      assert (y / SQUARE_SIZE = row) as ->
        by (symmetry; apply (Z.div_unique_pos y SQUARE_SIZE row
                               (y - row * SQUARE_SIZE)); lia).
      rewrite (proj2 (Z.ltb_lt _ _)) by nia.
      rewrite (proj2 (Z.ltb_lt _ _)) by nia.
      done.
Qed.


Lemma button_top_mono first_top i j :
  0 <= i <= j -> button_top SQUARE_SIZE first_top i
                 <= button_top SQUARE_SIZE first_top j.
Proof.
  intros H. unfold button_top.
  assert (i * SQUARE_SIZE / 2 <= j * SQUARE_SIZE / 2); [|lia].
  apply Z.div_le_mono; nia.
Qed.

Lemma button_bottom_next first_top i :
  button_top SQUARE_SIZE first_top i + SQUARE_SIZE / 2
  <= button_top SQUARE_SIZE first_top (i + 1).
Proof.
  unfold button_top.
  assert (i * SQUARE_SIZE / 2 + SQUARE_SIZE / 2 <= (i + 1) * SQUARE_SIZE / 2);
    [|lia].
  replace ((i + 1) * SQUARE_SIZE) with (i * SQUARE_SIZE + SQUARE_SIZE) by lia.
  pose proof (Z.div_mod (i * SQUARE_SIZE) 2 ltac:(lia)).
  pose proof (Z.mod_pos_bound (i * SQUARE_SIZE) 2 ltac:(lia)).
  pose proof (Z.div_mod SQUARE_SIZE 2 ltac:(lia)).
  pose proof (Z.mod_pos_bound SQUARE_SIZE 2 ltac:(lia)).
  apply Z.div_le_lower_bound; lia.
Qed.

(** The loop over a column of buttons answers with a button whose range,
    both ends included, holds [y]. *)
Lemma pick_button_sound {A} first_top (options : list A) y o : forall i,
  pick_button SQUARE_SIZE first_top i options y = Some o ->
  exists n : nat,
    options !! n = Some o
    /\ button_top SQUARE_SIZE first_top (i + Z.of_nat n) <= y
       <= button_top SQUARE_SIZE first_top (i + Z.of_nat n) + SQUARE_SIZE / 2.
Proof.
  induction options as [|o' options IH]; intros i H; simpl in H; [done|].
  destruct (_ && _) eqn:E.
  - inversion H; subst o'. exists 0%nat. split; [done|].
    apply andb_true_iff in E as [E1 E2]. apply Z.leb_le in E1, E2.
    by rewrite Z.add_0_r.
  - destruct (IH _ H) as (n & Hn & Hy). exists (S n). split; [done|].
    by replace (i + Z.of_nat (S n)) with (i + 1 + Z.of_nat n) by lia.
Qed.

(** A position below the top of a button, down to its bottom included,
    picks that button. *)
Lemma pick_button_hit {A} first_top (options : list A) y o : forall (n : nat) i,
  0 <= i -> options !! n = Some o ->
  button_top SQUARE_SIZE first_top (i + Z.of_nat n) < y
  <= button_top SQUARE_SIZE first_top (i + Z.of_nat n) + SQUARE_SIZE / 2 ->
  pick_button SQUARE_SIZE first_top i options y = Some o.
Proof.
  induction options as [|o' options IH]; intros n i Hi Hn Hy; [done|].
  simpl. destruct n as [|n].
  - inversion Hn; subst o'. rewrite Z.add_0_r in Hy.
    rewrite (proj2 (Z.leb_le _ _)) by lia.
    by rewrite (proj2 (Z.leb_le _ _)) by lia.
  - simpl in Hn.
    assert ((button_top SQUARE_SIZE first_top i <=? y)
            && (y <=? button_top SQUARE_SIZE first_top i + SQUARE_SIZE / 2)
            = false) as ->.
    { apply andb_false_iff. right. apply Z.leb_gt.
      pose proof (button_bottom_next first_top i).
      pose proof (button_top_mono first_top (i + 1) (i + Z.of_nat (S n))
                    ltac:(lia)).
      lia. }
    apply (IH n); [lia|done|].
    by replace (i + 1 + Z.of_nat n) with (i + Z.of_nat (S n)) by lia.
Qed.

(** In edit mode, a position in the column of the buttons, below the top
    of the button of an entry of [piece_options] and down to its bottom
    included, selects that entry.  (The bottom of a button is the top of
    the next when [SQUARE_SIZE] is even: that line belongs to the upper
    button.) *)
Theorem get_edit_choice_button (g : Game) (x y : Z) (n : nat)
    (o : PieceOption) :
  edit_mode g = true ->
  in_button_column SQUARE_SIZE x = true ->
  piece_options !! n = Some o ->
  button_top SQUARE_SIZE (SQUARE_SIZE * 2) (Z.of_nat n) < y
  <= button_top SQUARE_SIZE (SQUARE_SIZE * 2) (Z.of_nat n) + SQUARE_SIZE / 2 ->
  get_edit_choice SQUARE_SIZE g (x, y) = Some (Choose o).
Proof.
  intros Hedit Hx Hn Hy. unfold get_edit_choice. rewrite Hx, Hedit.
  pose proof (button_top_mono (SQUARE_SIZE * 2) 0 (Z.of_nat n) ltac:(lia))
    as Hmono.
  unfold button_top in Hmono at 1. rewrite Z.mul_0_l, Z.div_0_l in Hmono by lia.
  assert (SQUARE_SIZE / 4 + SQUARE_SIZE / 2 < SQUARE_SIZE * 2) as Hgap.
  { pose proof (Z.div_le_upper_bound SQUARE_SIZE 4 SQUARE_SIZE ltac:(lia)
                  ltac:(lia)).
    pose proof (Z.div_lt_upper_bound SQUARE_SIZE 2 SQUARE_SIZE ltac:(lia)
                  ltac:(lia)).
    lia. }
  assert ((SQUARE_SIZE / 4 <=? y) && (y <=? SQUARE_SIZE / 4 + SQUARE_SIZE / 2)
          = false) as ->.
  { apply andb_false_iff. right. apply Z.leb_gt. lia. }
  by rewrite (pick_button_hit (SQUARE_SIZE * 2) piece_options y o n 0
                ltac:(lia) Hn Hy).
Qed.

(** No position above the bottom edge of the window ([y < BOARD_SIZE], the
    height of the window) selects ['delete']: the top of its button, the
    thirteenth of the column, is [BOARD_SIZE]. *)
Theorem get_edit_choice_never_delete (g : Game) (x y : Z) :
  y < BOARD_SIZE SQUARE_SIZE ->
  get_edit_choice SQUARE_SIZE g (x, y) <> Some (Choose DeletePiece).
Proof.
  intros Hy H. unfold get_edit_choice in H.
  destruct (in_button_column SQUARE_SIZE x); [|done].
  destruct (_ && _); [done|].
  destruct (edit_mode g); [|done].
  destruct (pick_button SQUARE_SIZE (SQUARE_SIZE * 2) 0 piece_options y)
    as [o|] eqn:Hp; [|done].
  inversion H; subst o. clear H.
  apply pick_button_sound in Hp as (n & Hn & Hy1 & _).
  assert (n = 12%nat) as ->.
  { do 13 (destruct n as [|n]; [by (done || inversion Hn)|]).
    by destruct n. }
  unfold button_top, BOARD_SIZE in *.
  replace (0 + Z.of_nat 12) with 12 in Hy1 by lia.
  replace (12 * SQUARE_SIZE) with (6 * SQUARE_SIZE * 2) in Hy1 by lia.
  rewrite Z.div_mul in Hy1 by lia. lia.
Qed.

(** While a promotion is pending, a position in the column of the
    buttons, below the top of the button of an entry of
    [promotion_options] and down to its bottom included, chooses that
    entry; the four buttons fill the two squares above the bottom edge of
    the window. *)
Theorem get_promotion_choice_button (g : Game) (x y : Z) (n : nat)
    (k : Kind) :
  promotion_pending g = true -> game_over g = false ->
  in_button_column SQUARE_SIZE x = true ->
  promotion_options !! n = Some k ->
  button_top SQUARE_SIZE (6 * SQUARE_SIZE) (Z.of_nat n) < y
  <= button_top SQUARE_SIZE (6 * SQUARE_SIZE) (Z.of_nat n) + SQUARE_SIZE / 2 ->
  get_promotion_choice SQUARE_SIZE g (x, y) = Some k.
Proof.
  intros Hp Hover Hx Hn Hy. unfold get_promotion_choice.
  rewrite Hp, Hover, Hx. cbn [negb orb].
  assert (BOARD_SIZE SQUARE_SIZE - 4 * SQUARE_SIZE / 2 = 6 * SQUARE_SIZE)
    as ->.
  { unfold BOARD_SIZE.
    replace (4 * SQUARE_SIZE) with (2 * SQUARE_SIZE * 2) by lia.
    rewrite Z.div_mul by lia. lia. }
  by apply (pick_button_hit (6 * SQUARE_SIZE) promotion_options y k n 0).
Qed.

End Geometry.

Lemma get_square_inverts_drawing_witness :
  get_square 50 (set_turn initial_game Black) (120, 330) = Some (5, 1)
  <-> on_board 1 5 = true
      /\ in_rect (square_rect 50 (set_turn initial_game Black) 1 5) 120 330
         = true.
Proof.
  apply (get_square_inverts_drawing 50 ltac:(lia)
           (set_turn initial_game Black) 1 5 120 330).
  - reflexivity.
  - lia.
  - lia.
Defined.

Lemma get_edit_choice_button_witness :
  get_edit_choice 50 (set_edit_mode initial_game true) (420, 180)
  = Some (Choose (PlacePiece (mkPiece White Rook))).
Proof.
  apply (get_edit_choice_button 50 ltac:(lia)
           (set_edit_mode initial_game true) 420 180 3).
  - reflexivity.
  - reflexivity.
  - reflexivity.
  - vm_compute. split; [reflexivity|discriminate].
Defined.

Lemma get_edit_choice_never_delete_witness :
  get_edit_choice 50 (set_edit_mode initial_game true) (420, 399)
  <> Some (Choose DeletePiece).
Proof.
  apply (get_edit_choice_never_delete 50
           (set_edit_mode initial_game true) 420 399).
  vm_compute. reflexivity.
Defined.

Lemma get_promotion_choice_button_witness :
  get_promotion_choice 50 (set_promotion initial_game true (Some (0, 0)))
    (420, 310) = Some Queen.
Proof.
  apply (get_promotion_choice_button 50 ltac:(lia)
           (set_promotion initial_game true (Some (0, 0))) 420 310 0).
  - reflexivity.
  - reflexivity.
  - reflexivity.
  - reflexivity.
  - vm_compute. split; [reflexivity|discriminate].
Defined.

(** * Clicks *)

Section Clicks.

Variable SQUARE_SIZE : Z.
Variable oracle : nat -> Circuit -> list bool.

Lemma set_branch_piece_lookup m sid qid tag p m' :
  set_branch_piece m sid qid tag p = Some m' ->
  global_position_map m' = global_position_map m
  /\ exists q q',
       lookup_qubit m (sid, qid) = Some q
       /\ lookup_qubit m' (sid, qid) = Some q'
       /\ branch_of tag q' = mkBranch (pos (branch_of tag q)) p
       /\ collapsed_result q' = collapsed_result q
       /\ match tag with
          | BrA => branch_b q' = branch_b q
          | BrB => branch_a q' = branch_a q
          end.
Proof.
  unfold set_branch_piece, lookup_qubit. simpl.
  destruct (subsystems m !! sid) as [s|] eqn:Hs; [|done]. simpl.
  destruct (split_qubits s !! qid) as [q|] eqn:Hq; [|done]. simpl.
  intros H. inversion H; subst m'. clear H. simpl. split; [done|].
  rewrite list_lookup_insert_eq by (by eapply lookup_lt_Some). simpl.
  rewrite list_lookup_insert_eq by (by eapply lookup_lt_Some).
  eexists _, _. split; [done|]. split; [done|]. by destruct tag.
Qed.

(** The click that chooses the piece of a pending promotion (not in edit
    mode, the promotion square on the board).  The chosen piece, in the
    colour of the side to move, is written on the promotion square; if the
    square is in the global position map, the branch of the qubit that
    stands there gets the new piece and the qubit's other branch keeps the
    old one.  No other square changes.  Then the promotion and the
    en-passant square are cleared, the turn passes, the selection is
    dropped and the end of the game is evaluated on the game [gm] so
    obtained.  The move is not
    appended to the history (neither here nor by [make_move], which
    returned early), and the split mode stays as it was. *)
Theorem handle_click_promotes (u u' : Ui) (p : Z * Z) (choice : Kind)
    (row col : Z) :
  game_over (game u) = false -> edit_mode (game u) = false ->
  get_edit_choice SQUARE_SIZE (game u) p = None ->
  promotion_pending (game u) = true ->
  promotion_pos (game u) = Some (row, col) -> on_board row col = true ->
  wf_board (board (game u)) ->
  get_promotion_choice SQUARE_SIZE (game u) p = Some choice ->
  handle_click SQUARE_SIZE oracle p u = Some u' ->
  exists gm,
    evaluate_end oracle gm = Some (tt, game u')
    /\ cell (board gm) row col = Some (mkPiece (turn (game u)) choice)
    /\ (forall r c, on_board r c = true -> (r, c) <> (row, col) ->
          cell (board gm) r c = cell (board (game u)) r c)
    /\ global_position_map (split_manager gm)
       = global_position_map (split_manager (game u))
    /\ match global_position_map (split_manager (game u)) !! (row, col) with
       | None => split_manager gm = split_manager (game u)
       | Some (sid, qid, tag) =>
           exists q q',
             lookup_qubit (split_manager (game u)) (sid, qid) = Some q
             /\ lookup_qubit (split_manager gm) (sid, qid) = Some q'
             /\ branch_of tag q'
                = mkBranch (pos (branch_of tag q))
                    (mkPiece (turn (game u)) choice)
             /\ collapsed_result q' = collapsed_result q
             /\ match tag with
                | BrA => branch_b q' = branch_b q
                | BrB => branch_a q' = branch_a q
                end
       end
    /\ turn (game u') = opponent_of (turn (game u))
    /\ promotion_pending (game u') = false
    /\ promotion_pos (game u') = None
    /\ en_passant (game u') = None
    /\ history (game u') = history (game u)
    /\ captured (game u') = captured (game u)
    /\ split_mode (game u') = split_mode (game u)
    /\ selected u' = None /\ valid_moves u' = [].
Proof.
  intros Hover Hedit Hchoice Hpend Hpos Hon Hwf Hpromo H.
  unfold handle_click in H.
  rewrite Hover, Hchoice, Hedit, Hpend, Hpromo in H.
  unfold promote in H. rewrite Hpos in H. simpl in H.
  rewrite (write_board_ok row col _ (game u) Hwf Hon) in H. simpl in H.
  set (new_piece := mkPiece (turn (game u)) choice) in *.
  set (g1 := set_board (game u)
               (board_set (board (game u)) row col (Some new_piece))) in *.
  change (split_manager g1) with (split_manager (game u)) in H.
  assert (exists g2,
            match get_qubit_for_position (split_manager (game u)) (row, col)
            with
            | Some (sid, qid, tag) =>
                m ← set_branch_piece (split_manager (game u)) sid qid tag
                      new_piece;
                Some (set_split_manager g1 m)
            | None => Some g1
            end = Some g2) as [g2 Hg2].
  { destruct (match get_qubit_for_position _ _ with
              | Some _ => _ | None => _ end) as [g2|]; [by eexists|done]. }
  rewrite Hg2 in H. simpl in H.
  destruct (evaluate_end oracle _) as [[[] g7]|] eqn:Hend; [|done].
  simpl in H. inversion H; subst u'. clear H. simpl.
  pose proof (same_record_evaluate_end oracle _ _ _ Hend)
    as (A1 & A2 & A3 & A4 & A5 & A6 & A7 & A8).
  assert (board g2 = board g1 /\ turn g2 = turn (game u)
          /\ captured g2 = captured (game u)
          /\ history g2 = history (game u)
          /\ split_mode g2 = split_mode (game u)
          /\ global_position_map (split_manager g2)
             = global_position_map (split_manager (game u))
          /\ match global_position_map (split_manager (game u)) !! (row, col)
             with
             | None => split_manager g2 = split_manager (game u)
             | Some (sid, qid, tag) =>
                 exists q q',
                   lookup_qubit (split_manager (game u)) (sid, qid) = Some q
                   /\ lookup_qubit (split_manager g2) (sid, qid) = Some q'
                   /\ branch_of tag q'
                      = mkBranch (pos (branch_of tag q)) new_piece
                   /\ collapsed_result q' = collapsed_result q
                   /\ match tag with
                      | BrA => branch_b q' = branch_b q
                      | BrB => branch_a q' = branch_a q
                      end
             end) as (B1 & B2 & B3 & B4 & B5 & B6 & B7).
  { unfold get_qubit_for_position in Hg2.
    destruct (global_position_map (split_manager (game u)) !! (row, col))
      as [[[sid qid] tag]|].
    - destruct (set_branch_piece _ _ _ _ _) as [m|] eqn:Hm; [|done].
      simpl in Hg2. inversion Hg2; subst g2. simpl.
      apply set_branch_piece_lookup in Hm as [Hidx Hq]. by repeat split.
    - inversion Hg2; subst g2. by repeat split. }
  eexists. split; [exact Hend|]. simpl.
  split; [rewrite B1; by apply cell_board_set_eq|].
  split.
  { intros r c Hrc Hne. rewrite B1. subst g1. simpl.
    by apply cell_board_set_ne. }
  split; [exact B6|]. split; [exact B7|].
  rewrite A1, A2, A3, A4, A5, A6, A8. simpl.
  by rewrite B2, B3, B4, B5.
Qed.


(** During play (the game not over, not in edit mode, no promotion
    pending, the click not on a button) a click changes the position only
    by a move the player was offered: either a square is selected, the
    clicked square is in [valid_moves], and the game afterwards is the one
    [make_move] gives for the move from the selected square to the clicked
    one; or the game is as before up to the castling rights (which the
    computation of the moves of a newly selected piece rewrites). *)
Theorem handle_click_moves_only_offered (u u' : Ui) (p : Z * Z) :
  game_over (game u) = false -> edit_mode (game u) = false ->
  promotion_pending (game u) = false ->
  get_edit_choice SQUARE_SIZE (game u) p = None ->
  wf_board (board (game u)) ->
  handle_click SQUARE_SIZE oracle p u = Some u' ->
  (exists col row scol srow,
     get_square SQUARE_SIZE (game u) p = Some (col, row)
     /\ selected u = Some (scol, srow)
     /\ (row, col) ∈ valid_moves u
     /\ make_move oracle srow scol row col (game u) = Some (tt, game u'))
  \/ only_castling (game u) (game u').
Proof.
  intros Hover Hedit Hpend Hchoice Hwf H. unfold handle_click in H.
  rewrite Hover, Hchoice, Hedit, Hpend in H.
  destruct (get_square SQUARE_SIZE (game u) p) as [[col row]|] eqn:Hsq.
  2:{ inversion H; subst. right. apply only_castling_refl. }
  unfold click_square in H.
  destruct (board_at (board (game u)) row col) as [x|]; [|done].
  simpl in H.
  destruct (selected u) as [[scol srow]|] eqn:Hsel.
  - destruct (pos_in (row, col) (valid_moves u)) eqn:Hin.
    + left. exists col, row, scol, srow.
      split; [done|]. split; [done|].
      split; [by apply list_elem_of_In, pos_in_In|].
      destruct (make_move oracle srow scol row col (game u))
        as [[[] g1]|]; [|done].
      simpl in H. by destruct (negb (promotion_pending g1)); inversion H.
    + inversion H; subst. right. apply only_castling_refl.
  - destruct (has_color x (turn (game u))).
    + destruct (get_valid_moves oracle col row false (game u))
        as [[moves g1]|] eqn:Hm; [|done].
      simpl in H. inversion H; subst. simpl. right.
      by eapply quiet_get_valid_moves.
    + inversion H; subst. right. apply only_castling_refl.
Qed.

Lemma game_over_is_stalemate color g x g' :
  is_stalemate oracle color g = Some (x, g') -> game_over g' = game_over g.
Proof.
  apply (keeps_is_stalemate (fun g g' => game_over g' = game_over g));
    first [done | (intros; congruence)].
Qed.

(** The click on the edit button.  Entering edit mode sets the flag and
    drops the selections, nothing else.  Leaving it clears the flag, drops
    the selections and asks [is_stalemate] only: the game can end there as
    a draw but never as a checkmate, whatever was set up on the board. *)
Theorem handle_click_toggles_edit_mode (u u' : Ui) (p : Z * Z) :
  game_over (game u) = false ->
  get_edit_choice SQUARE_SIZE (game u) p = Some ToggleEdit ->
  handle_click SQUARE_SIZE oracle p u = Some u' ->
  selected u' = None /\ valid_moves u' = []
  /\ selected_piece_to_place u' = None
  /\ edit_mode (game u') = negb (edit_mode (game u))
  /\ (edit_mode (game u) = false ->
      game u' = set_edit_mode (game u) true)
  /\ (edit_mode (game u) = true ->
      exists stale g1,
        is_stalemate oracle (turn (game u)) (set_edit_mode (game u) false)
        = Some (stale, g1)
        /\ game_over (game u') = stale
        /\ (game_over (game u') = true -> draw_by_stalemate (game u') = true)).
Proof.
  intros Hover Hchoice H. unfold handle_click in H.
  rewrite Hover, Hchoice in H. simpl in H.
  destruct (edit_mode (game u)) eqn:Hedit; simpl in H.
  - destruct (is_stalemate oracle _ _) as [[stale g1]|] eqn:Hs; [|done].
    simpl in H. inversion H; subst u'. clear H. simpl.
    pose proof (game_over_is_stalemate _ _ _ _ Hs) as Hov.
    assert (edit_mode g1 = false) as He.
    { apply (keeps_is_stalemate
               (fun g g' => edit_mode g' = edit_mode g) oracle) in Hs;
        first [done | (intros; congruence)]. }
    simpl in Hov. rewrite Hover in Hov.
    do 3 (split; [done|]).
    split; [by destruct stale|]. split; [done|]. intros _.
    exists stale, g1. split; [done|].
    destruct stale; simpl; [done|]. split; [done|]. congruence.
  - inversion H; subst u'. simpl. by repeat split.
Qed.

End Clicks.

Lemma handle_click_promotes_witness :
  exists gm,
    evaluate_end oracle_zero gm
    = Some (tt, game (default (mkUi king_taken_game None [] None)
                        (handle_click 50 oracle_zero (420, 310)
                           (mkUi king_taken_game None [] None))))
    /\ cell (board gm) 7 4 = Some (mkPiece (turn king_taken_game) Queen)
    /\ (forall r c, on_board r c = true -> (r, c) <> (7, 4) ->
          cell (board gm) r c = cell (board king_taken_game) r c)
    /\ global_position_map (split_manager gm)
       = global_position_map (split_manager king_taken_game)
    /\ match global_position_map (split_manager king_taken_game) !! (7, 4) with
       | None => split_manager gm = split_manager king_taken_game
       | Some (sid, qid, tag) =>
           exists q q',
             lookup_qubit (split_manager king_taken_game) (sid, qid) = Some q
             /\ lookup_qubit (split_manager gm) (sid, qid) = Some q'
             /\ branch_of tag q'
                = mkBranch (pos (branch_of tag q))
                    (mkPiece (turn king_taken_game) Queen)
             /\ collapsed_result q' = collapsed_result q
             /\ match tag with
                | BrA => branch_b q' = branch_b q
                | BrB => branch_a q' = branch_a q
                end
       end
    /\ turn (game (default (mkUi king_taken_game None [] None)
                     (handle_click 50 oracle_zero (420, 310)
                        (mkUi king_taken_game None [] None))))
       = opponent_of (turn king_taken_game)
    /\ promotion_pending
         (game (default (mkUi king_taken_game None [] None)
                  (handle_click 50 oracle_zero (420, 310)
                     (mkUi king_taken_game None [] None)))) = false
    /\ promotion_pos
         (game (default (mkUi king_taken_game None [] None)
                  (handle_click 50 oracle_zero (420, 310)
                     (mkUi king_taken_game None [] None)))) = None
    /\ en_passant
         (game (default (mkUi king_taken_game None [] None)
                  (handle_click 50 oracle_zero (420, 310)
                     (mkUi king_taken_game None [] None)))) = None
    /\ history
         (game (default (mkUi king_taken_game None [] None)
                  (handle_click 50 oracle_zero (420, 310)
                     (mkUi king_taken_game None [] None))))
       = history king_taken_game
    /\ captured
         (game (default (mkUi king_taken_game None [] None)
                  (handle_click 50 oracle_zero (420, 310)
                     (mkUi king_taken_game None [] None))))
       = captured king_taken_game
    /\ split_mode
         (game (default (mkUi king_taken_game None [] None)
                  (handle_click 50 oracle_zero (420, 310)
                     (mkUi king_taken_game None [] None))))
       = split_mode king_taken_game
    /\ selected (default (mkUi king_taken_game None [] None)
                   (handle_click 50 oracle_zero (420, 310)
                      (mkUi king_taken_game None [] None))) = None
    /\ valid_moves (default (mkUi king_taken_game None [] None)
                      (handle_click 50 oracle_zero (420, 310)
                         (mkUi king_taken_game None [] None))) = [].
Proof.
  apply (handle_click_promotes 50 oracle_zero
           (mkUi king_taken_game None [] None) _ (420, 310) Queen 7 4).
  - vm_compute. reflexivity.
  - vm_compute. reflexivity.
  - vm_compute. reflexivity.
  - vm_compute. reflexivity.
  - vm_compute. reflexivity.
  - reflexivity.
  - vm_compute. split; [reflexivity|]. repeat constructor.
  - vm_compute. reflexivity.
  - vm_compute. reflexivity.
Defined.

Lemma handle_click_moves_only_offered_witness :
  (exists col row scol srow,
     get_square 50 initial_game (210, 210) = Some (col, row)
     /\ Some (4, 6) = Some (scol, srow)
     /\ (row, col) ∈ [(5, 4); (4, 4)]
     /\ make_move oracle_zero srow scol row col initial_game
        = Some (tt, game (default (mkUi initial_game None [] None)
                            (handle_click 50 oracle_zero (210, 210)
                               (mkUi initial_game (Some (4, 6))
                                  [(5, 4); (4, 4)] None)))))
  \/ only_castling initial_game
       (game (default (mkUi initial_game None [] None)
                (handle_click 50 oracle_zero (210, 210)
                   (mkUi initial_game (Some (4, 6)) [(5, 4); (4, 4)] None)))).
Proof.
  apply (handle_click_moves_only_offered 50 oracle_zero
           (mkUi initial_game (Some (4, 6)) [(5, 4); (4, 4)] None) _
           (210, 210)).
  - reflexivity.
  - reflexivity.
  - reflexivity.
  - reflexivity.
  - vm_compute. split; [reflexivity|]. repeat constructor.
  - vm_compute. reflexivity.
Defined.

Lemma handle_click_toggles_edit_mode_witness :
  selected (default (mkUi initial_game None [] None)
              (handle_click 50 oracle_zero (420, 20)
                 (mkUi (set_edit_mode stalemate_game true) None [] None)))
  = None
  /\ valid_moves (default (mkUi initial_game None [] None)
                    (handle_click 50 oracle_zero (420, 20)
                       (mkUi (set_edit_mode stalemate_game true) None []
                          None))) = []
  /\ selected_piece_to_place
       (default (mkUi initial_game None [] None)
          (handle_click 50 oracle_zero (420, 20)
             (mkUi (set_edit_mode stalemate_game true) None [] None))) = None
  /\ edit_mode
       (game (default (mkUi initial_game None [] None)
                (handle_click 50 oracle_zero (420, 20)
                   (mkUi (set_edit_mode stalemate_game true) None [] None))))
     = negb (edit_mode (set_edit_mode stalemate_game true))
  /\ (edit_mode (set_edit_mode stalemate_game true) = false ->
      game (default (mkUi initial_game None [] None)
              (handle_click 50 oracle_zero (420, 20)
                 (mkUi (set_edit_mode stalemate_game true) None [] None)))
      = set_edit_mode (set_edit_mode stalemate_game true) true)
  /\ (edit_mode (set_edit_mode stalemate_game true) = true ->
      exists stale g1,
        is_stalemate oracle_zero (turn (set_edit_mode stalemate_game true))
          (set_edit_mode (set_edit_mode stalemate_game true) false)
        = Some (stale, g1)
        /\ game_over
             (game (default (mkUi initial_game None [] None)
                      (handle_click 50 oracle_zero (420, 20)
                         (mkUi (set_edit_mode stalemate_game true) None []
                            None)))) = stale
        /\ (game_over
              (game (default (mkUi initial_game None [] None)
                       (handle_click 50 oracle_zero (420, 20)
                          (mkUi (set_edit_mode stalemate_game true) None []
                             None)))) = true ->
            draw_by_stalemate
              (game (default (mkUi initial_game None [] None)
                       (handle_click 50 oracle_zero (420, 20)
                          (mkUi (set_edit_mode stalemate_game true) None []
                             None)))) = true)).
Proof.
  apply (handle_click_toggles_edit_mode 50 oracle_zero
           (mkUi (set_edit_mode stalemate_game true) None [] None) _
           (420, 20)).
  - reflexivity.
  - reflexivity.
  - vm_compute. reflexivity.
Defined.
